(** * The virtmem base allocator (src/base_alloc.cpp), embedded in Rocq

    The development follows the C++ source function by function.  The object
    state of [BaseVAlloc] is an explicit record that is threaded through every
    operation.  Undefined behaviour of the C++ program (an array index outside
    a page table, a [memcpy] that leaves its buffer, a walk along a cyclic
    page chain that never ends, a transfer outside the backing store) is the
    result [None].  [ASSERT] is the debugging macro of the library and is
    compiled out: the code after [ASSERT(false)] (for instance [return 0])
    is what runs, and that is what is modelled.

    The integer typedefs [VPtrNum], [VPtrSize], [VirtPageSize] and the layout
    of [LockPage], [PageInfo] and [UMemHeader] are declared in headers that
    are not part of the sources.  Addresses, sizes and counters are integers
    [Z] here (no wrap-around: a subtraction that would go below zero ends in a
    negative length, which the memory primitives refuse); the constants of
    the private enum are the fields of [Config]. *)

From Stdlib Require Import ZArith Lia Bool.
From stdpp Require Import base tactics numbers option list.

Local Open Scope Z_scope.

(** ** Configuration constants (private enum and [sizeof]) *)

Record Config := mkConfig {
  hdrSize : Z;               (* sizeof(UMemHeader) *)
  START_OFFSET : Z;
  BASE_INDEX : Z;
  MIN_ALLOC_SIZE : Z;
  PAGE_MAX_CLEAN_SKIPS : Z
}.

(** ** Data model *)

Module UMemHeader.
Record t := mk { size : Z; next : Z }.
Definition set_size (v : Z) (h : t) : t := mk v (next h).
Definition set_next (v : Z) (h : t) : t := mk (size h) v.
End UMemHeader.

Module LockPage.
Record t := mk {
  start : Z;
  size : Z;
  pool : list Z;
  locks : Z;
  cleanSkips : Z;
  dirty : bool;
  next : Z
}.
Definition set_start (v : Z) (g : t) : t :=
  mk v (size g) (pool g) (locks g) (cleanSkips g) (dirty g) (next g).
Definition set_size (v : Z) (g : t) : t :=
  mk (start g) v (pool g) (locks g) (cleanSkips g) (dirty g) (next g).
Definition set_pool (v : list Z) (g : t) : t :=
  mk (start g) (size g) v (locks g) (cleanSkips g) (dirty g) (next g).
Definition set_locks (v : Z) (g : t) : t :=
  mk (start g) (size g) (pool g) v (cleanSkips g) (dirty g) (next g).
Definition set_cleanSkips (v : Z) (g : t) : t :=
  mk (start g) (size g) (pool g) (locks g) v (dirty g) (next g).
Definition set_dirty (v : bool) (g : t) : t :=
  mk (start g) (size g) (pool g) (locks g) (cleanSkips g) v (next g).
Definition set_next (v : Z) (g : t) : t :=
  mk (start g) (size g) (pool g) (locks g) (cleanSkips g) (dirty g) v.
End LockPage.

Module PageInfo.
Record t := mk {
  pages : list LockPage.t;   (* count = length pages *)
  size : Z;
  freeIndex : Z;
  lockedIndex : Z
}.
Definition set_pages (v : list LockPage.t) (q : t) : t :=
  mk v (size q) (freeIndex q) (lockedIndex q).
Definition set_freeIndex (v : Z) (q : t) : t :=
  mk (pages q) (size q) v (lockedIndex q).
Definition set_lockedIndex (v : Z) (q : t) : t :=
  mk (pages q) (size q) (freeIndex q) v.
Definition count (q : t) : Z := Z.of_nat (length (pages q)).
End PageInfo.

(** The three page classes; [plist] of the source is indexed by them. *)
Inductive PClass := Small | Medium | Big.

Definition PClass_eqb (a b : PClass) : bool :=
  match a, b with
  | Small, Small | Medium, Medium | Big, Big => true
  | _, _ => false
  end.

(** Calls of the backing store driver, most recent first. *)
Inductive IOEvent :=
| IORead (vaddr n : Z)
| IOWrite (vaddr n : Z).

Record BaseVAlloc := mkAlloc {
  smallPages : PageInfo.t;
  mediumPages : PageInfo.t;
  bigPages : PageInfo.t;
  nextPageToSwap : Z;
  baseFreeList : UMemHeader.t;
  freePointer : Z;
  poolFreePos : Z;
  poolSize : Z;
  store : list Z;            (* contents of the backing store *)
  iolog : list IOEvent
}.

Definition set_smallPages (v : PageInfo.t) (s : BaseVAlloc) : BaseVAlloc :=
  mkAlloc v (mediumPages s) (bigPages s) (nextPageToSwap s) (baseFreeList s)
          (freePointer s) (poolFreePos s) (poolSize s) (store s) (iolog s).
Definition set_mediumPages (v : PageInfo.t) (s : BaseVAlloc) : BaseVAlloc :=
  mkAlloc (smallPages s) v (bigPages s) (nextPageToSwap s) (baseFreeList s)
          (freePointer s) (poolFreePos s) (poolSize s) (store s) (iolog s).
Definition set_bigPages (v : PageInfo.t) (s : BaseVAlloc) : BaseVAlloc :=
  mkAlloc (smallPages s) (mediumPages s) v (nextPageToSwap s) (baseFreeList s)
          (freePointer s) (poolFreePos s) (poolSize s) (store s) (iolog s).
Definition set_nextPageToSwap (v : Z) (s : BaseVAlloc) : BaseVAlloc :=
  mkAlloc (smallPages s) (mediumPages s) (bigPages s) v (baseFreeList s)
          (freePointer s) (poolFreePos s) (poolSize s) (store s) (iolog s).
Definition set_baseFreeList (v : UMemHeader.t) (s : BaseVAlloc) : BaseVAlloc :=
  mkAlloc (smallPages s) (mediumPages s) (bigPages s) (nextPageToSwap s) v
          (freePointer s) (poolFreePos s) (poolSize s) (store s) (iolog s).
Definition set_freePointer (v : Z) (s : BaseVAlloc) : BaseVAlloc :=
  mkAlloc (smallPages s) (mediumPages s) (bigPages s) (nextPageToSwap s)
          (baseFreeList s) v (poolFreePos s) (poolSize s) (store s) (iolog s).
Definition set_poolFreePos (v : Z) (s : BaseVAlloc) : BaseVAlloc :=
  mkAlloc (smallPages s) (mediumPages s) (bigPages s) (nextPageToSwap s)
          (baseFreeList s) (freePointer s) v (poolSize s) (store s) (iolog s).
Definition set_store (v : list Z) (s : BaseVAlloc) : BaseVAlloc :=
  mkAlloc (smallPages s) (mediumPages s) (bigPages s) (nextPageToSwap s)
          (baseFreeList s) (freePointer s) (poolFreePos s) (poolSize s) v (iolog s).
Definition set_iolog (v : list IOEvent) (s : BaseVAlloc) : BaseVAlloc :=
  mkAlloc (smallPages s) (mediumPages s) (bigPages s) (nextPageToSwap s)
          (baseFreeList s) (freePointer s) (poolFreePos s) (poolSize s) (store s) v.

Definition plist (c : PClass) (s : BaseVAlloc) : PageInfo.t :=
  match c with
  | Small => smallPages s
  | Medium => mediumPages s
  | Big => bigPages s
  end.

Definition set_plist (c : PClass) (v : PageInfo.t) (s : BaseVAlloc) : BaseVAlloc :=
  match c with
  | Small => set_smallPages v s
  | Medium => set_mediumPages v s
  | Big => set_bigPages v s
  end.

(** [pinfo->pages[i]]: an index outside the table is undefined. *)
Definition getPage (q : PageInfo.t) (i : Z) : option LockPage.t :=
  if 0 <=? i then PageInfo.pages q !! Z.to_nat i else None.

Definition page (c : PClass) (i : Z) (s : BaseVAlloc) : option LockPage.t :=
  getPage (plist c s) i.

Definition set_page (c : PClass) (i : Z) (g : LockPage.t) (s : BaseVAlloc) : BaseVAlloc :=
  set_plist c (PageInfo.set_pages (<[Z.to_nat i := g]> (PageInfo.pages (plist c s))) (plist c s)) s.

Definition modPage (c : PClass) (i : Z) (f : LockPage.t → LockPage.t)
    (s : BaseVAlloc) : option BaseVAlloc :=
  g ← page c i s; Some (set_page c i (f g) s).

(** Native pointers handed around by the source: into the buffer of a page,
    or into memory of the caller, which the allocator only reads and which
    is given by its contents. *)
Inductive NativePtr :=
| Null
| PoolPtr (c : PClass) (i : Z) (off : Z)
| UserBuf (d : list Z).

Definition ptr_add (a : NativePtr) (k : Z) : NativePtr :=
  match a with
  | Null => Null
  | PoolPtr c i off => PoolPtr c i (off + k)
  | UserBuf d => UserBuf (drop (Z.to_nat k) d)
  end.

(** [n] bytes of a list from offset [off]; undefined when they are not all there. *)
Definition slice (l : list Z) (off n : Z) : option (list Z) :=
  if (0 <=? off) && (0 <=? n) && (off + n <=? Z.of_nat (length l))
  then Some (take (Z.to_nat n) (drop (Z.to_nat off) l))
  else None.

(** Overwrite [l] from offset [off] with [d]; undefined when [d] does not fit. *)
Definition blit (l : list Z) (off : Z) (d : list Z) : option (list Z) :=
  if (0 <=? off) && (off + Z.of_nat (length d) <=? Z.of_nat (length l))
  then Some (take (Z.to_nat off) l ++ d ++ drop (Z.to_nat off + length d) l)
  else None.

(** The [n] bytes a native pointer points to. *)
Definition peek (s : BaseVAlloc) (a : NativePtr) (n : Z) : option (list Z) :=
  match a with
  | Null => None
  | PoolPtr c i off => g ← page c i s; slice (LockPage.pool g) off n
  | UserBuf d => slice d 0 n
  end.

(** Store bytes through a native pointer (only page buffers are written). *)
Definition poke (s : BaseVAlloc) (a : NativePtr) (d : list Z) : option BaseVAlloc :=
  match a with
  | PoolPtr c i off =>
      g ← page c i s;
      l ← blit (LockPage.pool g) off d;
      Some (set_page c i (LockPage.set_pool l g) s)
  | _ => None
  end.

(** [memcpy(dest, src, n)] *)
Definition memcpy (s : BaseVAlloc) (dest src : NativePtr) (n : Z) : option BaseVAlloc :=
  d ← peek s src n; poke s dest d.

(** [memcmp(a, b, n) != 0] *)
Definition memdiff (s : BaseVAlloc) (a b : NativePtr) (n : Z) : option bool :=
  x ← peek s a n; y ← peek s b n;
  Some (negb (bool_decide (x = y))).

(** ** Backing store driver: [doRead], [doWrite] *)

Definition doRead (s : BaseVAlloc) (dest : NativePtr) (vaddr n : Z) : option BaseVAlloc :=
  d ← slice (store s) vaddr n;
  poke (set_iolog (IORead vaddr n :: iolog s) s) dest d.

Definition doWrite (s : BaseVAlloc) (src : NativePtr) (vaddr n : Z) : option BaseVAlloc :=
  d ← peek s src n;
  st ← blit (store s) vaddr d;
  Some (set_iolog (IOWrite vaddr n :: iolog s) (set_store st s)).


(** The local variables of [makeDataLock] that its search loop updates. *)
Module DataLock.
Record t := mk {
  size : Z;
  pinfo : PClass;
  secpinfo : option PClass;
  pageindex : Z;
  oldlockindex : Z;
  secoldlockindex : Z;
  fixbeginningoverlap : bool;
  done : bool;
  shrunk : bool
}.
Definition set_size (v : Z) (l : t) : t :=
  mk v (pinfo l) (secpinfo l) (pageindex l) (oldlockindex l) (secoldlockindex l)
     (fixbeginningoverlap l) (done l) (shrunk l).
Definition set_pinfo (v : PClass) (l : t) : t :=
  mk (size l) v (secpinfo l) (pageindex l) (oldlockindex l) (secoldlockindex l)
     (fixbeginningoverlap l) (done l) (shrunk l).
Definition set_sec (i : Z) (c : PClass) (l : t) : t :=
  mk (size l) (pinfo l) (Some c) (pageindex l) (oldlockindex l) i
     (fixbeginningoverlap l) (done l) (shrunk l).
Definition set_pageindex (v : Z) (l : t) : t :=
  mk (size l) (pinfo l) (secpinfo l) v (oldlockindex l) (secoldlockindex l)
     (fixbeginningoverlap l) (done l) (shrunk l).
Definition set_oldlockindex (v : Z) (l : t) : t :=
  mk (size l) (pinfo l) (secpinfo l) (pageindex l) v (secoldlockindex l)
     (fixbeginningoverlap l) (done l) (shrunk l).
Definition set_fixbeginningoverlap (v : bool) (l : t) : t :=
  mk (size l) (pinfo l) (secpinfo l) (pageindex l) (oldlockindex l) (secoldlockindex l)
     v (done l) (shrunk l).
Definition set_done (v : bool) (l : t) : t :=
  mk (size l) (pinfo l) (secpinfo l) (pageindex l) (oldlockindex l) (secoldlockindex l)
     (fixbeginningoverlap l) v (shrunk l).
Definition set_shrunk (v : bool) (l : t) : t :=
  mk (size l) (pinfo l) (secpinfo l) (pageindex l) (oldlockindex l) (secoldlockindex l)
     (fixbeginningoverlap l) (done l) v.
End DataLock.

(** The local variables of [makeFittingLock] that its search loop updates;
    [unusedS], [unusedM], [unusedB] are the array [unusedlist]. *)
Module FitLock.
Record t := mk {
  size : Z;
  unusedS : Z;
  unusedM : Z;
  unusedB : Z;
  plistindex : option PClass;
  pageindex : Z;
  done : bool
}.
Definition unusedlist (c : PClass) (l : t) : Z :=
  match c with Small => unusedS l | Medium => unusedM l | Big => unusedB l end.
Definition set_unusedlist (c : PClass) (v : Z) (l : t) : t :=
  match c with
  | Small => mk (size l) v (unusedM l) (unusedB l) (plistindex l) (pageindex l) (done l)
  | Medium => mk (size l) (unusedS l) v (unusedB l) (plistindex l) (pageindex l) (done l)
  | Big => mk (size l) (unusedS l) (unusedM l) v (plistindex l) (pageindex l) (done l)
  end.
Definition set_size (v : Z) (l : t) : t :=
  mk v (unusedS l) (unusedM l) (unusedB l) (plistindex l) (pageindex l) (done l).
Definition set_plistindex (v : option PClass) (l : t) : t :=
  mk (size l) (unusedS l) (unusedM l) (unusedB l) v (pageindex l) (done l).
Definition set_found (c : PClass) (i : Z) (l : t) : t :=
  mk (size l) (unusedS l) (unusedM l) (unusedB l) (Some c) i true.
Definition set_pageindex (v : Z) (l : t) : t :=
  mk (size l) (unusedS l) (unusedM l) (unusedB l) (plistindex l) v (done l).
End FitLock.
Section Allocator.
Context (cfg : Config).

(** A walk along a page chain visits every page at most once unless the chain
    is cyclic, so [S count] steps are enough for every walk that ends. *)
Definition chainFuel (q : PageInfo.t) : nat := S (length (PageInfo.pages q)).

(** ** Paging engine *)

(** [syncBigPage(&bigPages.pages[i])] *)
Definition syncBigPage (s : BaseVAlloc) (i : Z) : option BaseVAlloc :=
  g ← page Big i s;
  if LockPage.dirty g then
    let wrsize := Z.min (poolSize s - LockPage.start g) (PageInfo.size (bigPages s)) in
    s1 ← doWrite s (PoolPtr Big i 0) (LockPage.start g) wrsize;
    modPage Big i (λ g, LockPage.set_cleanSkips 0 (LockPage.set_dirty false g)) s1
  else Some s.

(** The loop of [copyRawData]; the state of the loop is [dest], [p], [size]. *)
Fixpoint copyRawData_loop (fuel : nat) (s : BaseVAlloc) (i : Z)
    (dest : NativePtr) (p size : Z) : option (BaseVAlloc * NativePtr * Z * Z) :=
  match fuel with
  | O => None
  | S fuel' =>
    if (i =? -1) || (size =? 0) then Some (s, dest, p, size) else
    g ← page Big i s;
    if LockPage.start g =? 0 then
      copyRawData_loop fuel' s (LockPage.next g) dest p size
    else
      let pageend := LockPage.start g + PageInfo.size (bigPages s) in
      if (LockPage.start g <=? p) && (p <? pageend) then
        let offset := p - LockPage.start g in
        let copysize := Z.min size (LockPage.size g - offset) in
        s1 ← memcpy s dest (PoolPtr Big i offset) copysize;
        copyRawData_loop fuel' s1 (LockPage.next g)
                         (ptr_add dest copysize) (p + copysize) (size - copysize)
      else if (p <? LockPage.start g) && (LockPage.start g <? p + size) then
        let offset := LockPage.start g - p in
        let copysize := Z.min (size - offset) (LockPage.size g) in
        s1 ← memcpy s (ptr_add dest offset) (PoolPtr Big i 0) copysize;
        copyRawData_loop fuel' s1 (LockPage.next g) dest p offset
      else
        copyRawData_loop fuel' s (LockPage.next g) dest p size
  end.

Definition copyRawData (s : BaseVAlloc) (dest : NativePtr) (p size : Z) : option BaseVAlloc :=
  '(s1, dest1, p1, size1) ←
    copyRawData_loop (chainFuel (bigPages s)) s (PageInfo.freeIndex (bigPages s)) dest p size;
  if 0 <? size1 then doRead s1 dest1 p1 size1 else Some s1.

(** One overlapping page of [saveRawData]: copy [copysize] bytes from [src]
    to offset [off] of page [i] when the page is dirty or its bytes differ. *)
Definition saveChunk (s : BaseVAlloc) (i off : Z) (src : NativePtr) (copysize : Z)
    : option BaseVAlloc :=
  g ← page Big i s;
  differs ← (if LockPage.dirty g then Some true
             else memdiff s (PoolPtr Big i off) src copysize);
  if differs : bool then
    s1 ← memcpy s (PoolPtr Big i off) src copysize;
    modPage Big i (LockPage.set_dirty true) s1
  else Some s.

Fixpoint saveRawData_loop (fuel : nat) (s : BaseVAlloc) (i : Z)
    (src : NativePtr) (p size : Z) : option (BaseVAlloc * NativePtr * Z * Z) :=
  match fuel with
  | O => None
  | S fuel' =>
    if (i =? -1) || (size =? 0) then Some (s, src, p, size) else
    g ← page Big i s;
    if LockPage.start g =? 0 then
      saveRawData_loop fuel' s (LockPage.next g) src p size
    else
      let pageend := LockPage.start g + PageInfo.size (bigPages s) in
      if (LockPage.start g <=? p) && (p <? pageend) then
        let offset := p - LockPage.start g in
        let copysize := Z.min size (LockPage.size g - offset) in
        s1 ← saveChunk s i offset src copysize;
        saveRawData_loop fuel' s1 (LockPage.next g)
                         (ptr_add src copysize) (p + copysize) (size - copysize)
      else if (p <? LockPage.start g) && (LockPage.start g <? p + size) then
        let offset := LockPage.start g - p in
        let copysize := Z.min (size - offset) (LockPage.size g) in
        s1 ← saveChunk s i 0 (ptr_add src offset) copysize;
        saveRawData_loop fuel' s1 (LockPage.next g) src p offset
      else
        saveRawData_loop fuel' s (LockPage.next g) src p size
  end.

Definition saveRawData (s : BaseVAlloc) (src : NativePtr) (p size : Z) : option BaseVAlloc :=
  '(s1, src1, p1, size1) ←
    saveRawData_loop (chainFuel (bigPages s)) s (PageInfo.freeIndex (bigPages s)) src p size;
  if 0 <? size1 then doWrite s1 src1 p1 size1 else Some s1.

(** [findFreePage]: the first page of the free chain that holds the range;
    [-1] when there is none. *)
Definition fitsFree (g : LockPage.t) (p size : Z) (atstart : bool) : bool :=
  negb (LockPage.start g =? 0) &&
  ((atstart && (LockPage.start g =? p)) ||
   (negb atstart && (LockPage.start g <=? p) &&
    (p + size <=? LockPage.start g + LockPage.size g))).

Fixpoint findFreePage_loop (fuel : nat) (q : PageInfo.t) (i : Z)
    (p size : Z) (atstart : bool) : option Z :=
  match fuel with
  | O => None
  | S fuel' =>
    if i =? -1 then Some (-1) else
    g ← getPage q i;
    if fitsFree g p size atstart then Some i
    else findFreePage_loop fuel' q (LockPage.next g) p size atstart
  end.

Definition findFreePage (q : PageInfo.t) (p size : Z) (atstart : bool) : option Z :=
  findFreePage_loop (chainFuel q) q (PageInfo.freeIndex q) p size atstart.

Inductive PageFindState :=
| STATE_GOTFULL | STATE_GOTPARTIAL | STATE_GOTEMPTY
| STATE_GOTCLEAN | STATE_GOTDIRTY | STATE_GOTNONE.

(** Value of the enumerator, for the comparison [pagefindstate > STATE_GOTCLEAN]. *)
Definition stateRank (st : PageFindState) : Z :=
  match st with
  | STATE_GOTFULL => 0 | STATE_GOTPARTIAL => 1 | STATE_GOTEMPTY => 2
  | STATE_GOTCLEAN => 3 | STATE_GOTDIRTY => 4 | STATE_GOTNONE => 5
  end.

Definition stateEqb (a b : PageFindState) : bool := stateRank a =? stateRank b.

(** Does the mapped page [g] overlap the page that would start at [p]? *)
Definition overlapsNew (s : BaseVAlloc) (g : LockPage.t) (p : Z) : bool :=
  let newpageend := p + PageInfo.size (bigPages s) in
  let pageend := LockPage.start g + PageInfo.size (bigPages s) in
  ((LockPage.start g <=? p) && (p <? pageend)) ||
  ((LockPage.start g <=? newpageend) && (newpageend <=? pageend)).

(** First part of the body of the victim scan: partial overlap or empty page. *)
Definition scanOverlap (s : BaseVAlloc) (p i pageindex : Z) (st : PageFindState)
    : option (Z * PageFindState * BaseVAlloc) :=
  g ← page Big i s;
  if negb (LockPage.start g =? 0) then
    if overlapsNew s g p then
      s1 ← syncBigPage s i;
      s2 ← modPage Big i (LockPage.set_start 0) s1;   (* invalidate *)
      Some (i, STATE_GOTPARTIAL, s2)
    else Some (pageindex, st, s)
  else if negb (stateEqb st STATE_GOTPARTIAL) then Some (i, STATE_GOTEMPTY, s)
  else Some (pageindex, st, s).

(** Second part: [if (pagefindstate > STATE_GOTCLEAN)]. *)
Definition scanAge (s : BaseVAlloc) (i pageindex : Z) (st : PageFindState)
    : option (Z * PageFindState * BaseVAlloc) :=
  if stateRank STATE_GOTCLEAN <? stateRank st then
    g ← page Big i s;
    if negb (LockPage.dirty g) then Some (i, STATE_GOTCLEAN, s)
    else
      let skips := LockPage.cleanSkips g + 1 in
      let s1 := set_page Big i (LockPage.set_cleanSkips skips g) s in
      if PAGE_MAX_CLEAN_SKIPS cfg <=? skips then Some (i, STATE_GOTCLEAN, s1)
      else if negb (stateEqb st STATE_GOTDIRTY) && (i =? nextPageToSwap s1)
      then Some (i, STATE_GOTDIRTY, s1)
      else Some (pageindex, st, s1)
  else Some (pageindex, st, s).

Fixpoint pullScan (fuel : nat) (s : BaseVAlloc) (p i pageindex : Z) (st : PageFindState)
    : option (Z * PageFindState * BaseVAlloc) :=
  match fuel with
  | O => None
  | S fuel' =>
    if i =? -1 then Some (pageindex, st, s) else
    '(pageindex1, st1, s1) ← scanOverlap s p i pageindex st;
    '(pageindex2, st2, s2) ← scanAge s1 i pageindex1 st1;
    g ← page Big i s2;
    pullScan fuel' s2 p (LockPage.next g) pageindex2 st2
  end.

(** The part of [pullRawData] under [if (pagefindstate != STATE_GOTFULL)].
    The alignment branch of the source is under [if (false)] and never runs. *)
Definition swapIn (s : BaseVAlloc) (p pageindex : Z) (st : PageFindState)
    : option BaseVAlloc :=
  g ← page Big pageindex s;
  s1 ← (if negb (LockPage.start g =? 0) then syncBigPage s pageindex else Some s);
  s2 ← (if stateEqb st STATE_GOTDIRTY then
          g1 ← page Big pageindex s1;
          let n := LockPage.next g1 in
          Some (set_nextPageToSwap
                  (if n =? -1 then PageInfo.freeIndex (bigPages s1) else n) s1)
        else Some (set_nextPageToSwap (PageInfo.freeIndex (bigPages s1)) s1));
  s3 ← modPage Big pageindex (LockPage.set_start p) s2;
  let rdsize := Z.min (poolSize s3 - p) (PageInfo.size (bigPages s3)) in
  doRead s3 (PoolPtr Big pageindex 0) p rdsize.

Definition pullRawData (s : BaseVAlloc) (p size : Z) (readonly forcestart : bool)
    : option (NativePtr * BaseVAlloc) :=
  full ← findFreePage (bigPages s) p size forcestart;
  '(pageindex, st, s1) ←
    (if negb (full =? -1) then Some (full, STATE_GOTFULL, s)
     else pullScan (chainFuel (bigPages s)) s p
                   (PageInfo.freeIndex (bigPages s)) (-1) STATE_GOTNONE);
  s2 ← (if negb (stateEqb st STATE_GOTFULL) then swapIn s1 p pageindex st else Some s1);
  s3 ← (if negb readonly then modPage Big pageindex (LockPage.set_dirty true) s2
        else Some s2);
  g ← page Big pageindex s3;
  Some (PoolPtr Big pageindex (p - LockPage.start g), s3).

Definition pushRawData (s : BaseVAlloc) (p : Z) (d : NativePtr) (size : Z)
    : option BaseVAlloc :=
  '(pool, s1) ← pullRawData s p size false false;
  memcpy s1 pool d size.

(** ** Page chains *)

Fixpoint findUnusedLockedPage_loop (fuel : nat) (q : PageInfo.t) (i : Z) : option Z :=
  match fuel with
  | O => None
  | S fuel' =>
    if i =? -1 then Some (-1) else
    g ← getPage q i;
    if LockPage.locks g =? 0 then Some i
    else findUnusedLockedPage_loop fuel' q (LockPage.next g)
  end.

Definition findUnusedLockedPage (q : PageInfo.t) : option Z :=
  findUnusedLockedPage_loop (chainFuel q) q (PageInfo.lockedIndex q).

(** [syncLockedPage(&pinfo->pages[i])] *)
Definition syncLockedPage (s : BaseVAlloc) (c : PClass) (i : Z) : option BaseVAlloc :=
  g ← page c i s;
  if LockPage.dirty g
  then saveRawData s (PoolPtr c i 0) (LockPage.start g) (LockPage.size g)
  else Some s.

(** The search loops for the predecessor of [index] in a chain that starts
    at [prev]: [for (; pages[prev].next != index; prev = pages[prev].next) ;] *)
Fixpoint findPrev (fuel : nat) (q : PageInfo.t) (prev index : Z) : option Z :=
  match fuel with
  | O => None
  | S fuel' =>
    g ← getPage q prev;
    if LockPage.next g =? index then Some prev
    else findPrev fuel' q (LockPage.next g) index
  end.

Definition lockPage (s : BaseVAlloc) (c : PClass) (ptr size : Z) : option (Z * BaseVAlloc) :=
  '(index, s1) ←
    (match c with
     | Big =>
         '(_, s1) ← pullRawData s ptr size true true;
         index ← findFreePage (plist c s1) ptr size true;
         s2 ← (if size <? PageInfo.size (plist c s1) then syncBigPage s1 index else Some s1);
         Some (index, s2)
     | _ => Some (PageInfo.freeIndex (plist c s), s)
     end);
  let q := plist c s1 in
  s2 ← (if index =? PageInfo.freeIndex q then
          g ← getPage q (PageInfo.freeIndex q);
          Some (set_plist c (PageInfo.set_freeIndex (LockPage.next g) q) s1)
        else
          previ ← findPrev (chainFuel q) q (PageInfo.freeIndex q) index;
          g ← getPage q index;
          modPage c previ (LockPage.set_next (LockPage.next g)) s1);
  let s3 := (if PClass_eqb c Big && (nextPageToSwap s2 =? index)
             then set_nextPageToSwap (PageInfo.freeIndex (plist c s2)) s2
             else s2) in
  s4 ← modPage c index (LockPage.set_next (PageInfo.lockedIndex (plist c s3))) s3;
  Some (index, set_plist c (PageInfo.set_lockedIndex index (plist c s4)) s4).

Definition freeLockedPage (s : BaseVAlloc) (c : PClass) (index : Z) : option (Z * BaseVAlloc) :=
  s1 ← (match c with
        | Big =>
            g ← page c index s;
            if LockPage.size g <? PageInfo.size (plist c s) then
              s1 ← syncLockedPage s c index;
              modPage c index
                (λ g, LockPage.set_size (PageInfo.size (plist c s1)) (LockPage.set_start 0 g)) s1
            else Some s
        | _ => syncLockedPage s c index
        end);
  g ← page c index s1;
  let ret := LockPage.next g in
  let q := plist c s1 in
  s2 ← (if index =? PageInfo.lockedIndex q then
          Some (set_plist c (PageInfo.set_lockedIndex (LockPage.next g) q) s1)
        else
          prevind ← findPrev (chainFuel q) q (PageInfo.lockedIndex q) index;
          modPage c prevind (LockPage.set_next (LockPage.next g)) s1);
  s3 ← modPage c index (LockPage.set_next (PageInfo.freeIndex (plist c s2))) s2;
  let s4 := set_plist c (PageInfo.set_freeIndex index (plist c s3)) s3 in
  let s5 := (if PClass_eqb c Big && (nextPageToSwap s4 =? -1)
             then set_nextPageToSwap (PageInfo.freeIndex (plist c s4)) s4
             else s4) in
  s6 ← modPage c index (LockPage.set_locks 0) s5;
  Some (ret, s6).

(** Is virtual address [p] inside the range of page [g]? *)
Definition ownsAddr (g : LockPage.t) (p : Z) : bool :=
  (LockPage.start g <=? p) && (p - LockPage.start g <? LockPage.size g).

Fixpoint findLockedPage_loop (fuel : nat) (q : PageInfo.t) (i : Z) (p : Z) : option Z :=
  match fuel with
  | O => None
  | S fuel' =>
    if i =? -1 then Some (-1) else
    g ← getPage q i;
    if ownsAddr g p then Some i
    else findLockedPage_loop fuel' q (LockPage.next g) p
  end.

(** [findLockedPage(PageInfo *pinfo, VPtrNum p)] *)
Definition findLockedPage (q : PageInfo.t) (p : Z) : option Z :=
  findLockedPage_loop (chainFuel q) q (PageInfo.lockedIndex q) p.

(** [findLockedPage(VPtrNum p)]: the owning page, by class and index;
    the null result of the source is the inner [None]. *)
Definition findLockedPageAny (s : BaseVAlloc) (p : Z) : option (option (PClass * Z)) :=
  i ← findLockedPage (smallPages s) p;
  if negb (i =? -1) then Some (Some (Small, i)) else
  i ← findLockedPage (mediumPages s) p;
  if negb (i =? -1) then Some (Some (Medium, i)) else
  i ← findLockedPage (bigPages s) p;
  if negb (i =? -1) then Some (Some (Big, i)) else
  Some None.

(** ** [start] *)

(** The inner loop of [start] over the pages of one class. *)
Definition startPage (big : bool) (q : PageInfo.t) (i : nat) (g : LockPage.t) : LockPage.t :=
  LockPage.mk 0
    (if big then PageInfo.size q else LockPage.size g)
    (LockPage.pool g) 0 0 false
    (if Z.of_nat i =? PageInfo.count q - 1 then -1 else Z.of_nat i + 1).

Definition startClass (big : bool) (q : PageInfo.t) : PageInfo.t :=
  PageInfo.mk (imap (startPage big q) (PageInfo.pages q)) (PageInfo.size q) 0 (-1).

(** [start()]; [doStart] of the driver has no effect on the allocator. *)
Definition start (s : BaseVAlloc) : BaseVAlloc :=
  mkAlloc (startClass false (smallPages s)) (startClass false (mediumPages s))
          (startClass true (bigPages s))
          0 (UMemHeader.mk 0 0) 0 (START_OFFSET cfg + hdrSize cfg)
          (poolSize s) (store s) (iolog s).

(** ** Public byte accessors: [read], [write], [flush], [clearPages] *)

Definition beginOverlaps (g : LockPage.t) (p : Z) : bool :=
  (LockPage.start g <=? p) && (p <? LockPage.start g + LockPage.size g).

Definition endOverlaps (g : LockPage.t) (p pend : Z) : bool :=
  (p <? LockPage.start g) && (LockPage.start g <? pend).

(** The walk of [read] along the locked chain of class [c].  The result is
    [Some ptr] when the walk ends in the [return] of the source. *)
Fixpoint read_scan (fuel : nat) (s : BaseVAlloc) (c : PClass) (i p size : Z)
    : option (option NativePtr * BaseVAlloc) :=
  match fuel with
  | O => None
  | S fuel' =>
    if i =? -1 then Some (None, s) else
    g ← page c i s;
    let offset := p - LockPage.start g in
    if beginOverlaps g p && (offset + size <=? LockPage.size g) then
      Some (Some (PoolPtr c i offset), s)
    else
      s1 ← (if beginOverlaps g p || endOverlaps g p (p + size) then
              (* mirror data to normal page *)
              pushRawData s (LockPage.start g) (PoolPtr c i 0) (LockPage.size g)
            else Some s);
      g1 ← page c i s1;
      read_scan fuel' s1 c (LockPage.next g1) p size
  end.

Definition read_class (s : BaseVAlloc) (c : PClass) (p size : Z)
    : option (option NativePtr * BaseVAlloc) :=
  read_scan (chainFuel (plist c s)) s c (PageInfo.lockedIndex (plist c s)) p size.

Definition read (s : BaseVAlloc) (p size : Z) : option (NativePtr * BaseVAlloc) :=
  '(r, s1) ← read_class s Small p size;
  match r with Some a => Some (a, s1) | None =>
  '(r, s2) ← read_class s1 Medium p size;
  match r with Some a => Some (a, s2) | None =>
  '(r, s3) ← read_class s2 Big p size;
  match r with Some a => Some (a, s3) | None =>
  pullRawData s3 p size true false
  end end end.

(** The walk of [write] along the locked chain of class [c]; the flag of the
    result tells whether the walk ended in the [return] of the source. *)
Fixpoint write_scan (fuel : nat) (s : BaseVAlloc) (c : PClass) (i p : Z)
    (d : NativePtr) (size : Z) : option (bool * BaseVAlloc) :=
  match fuel with
  | O => None
  | S fuel' =>
    if i =? -1 then Some (false, s) else
    g ← page c i s;
    let bo := beginOverlaps g p in
    let eo := endOverlaps g p (p + size) in
    let s1 := (if negb (LockPage.dirty g) && (bo || eo)
               then set_page c i (LockPage.set_dirty true g) s else s) in
    if bo then
      let offset := p - LockPage.start g in
      if offset + size <=? LockPage.size g then
        s2 ← memcpy s1 (PoolPtr c i offset) d size;
        Some (true, s2)
      else
        s2 ← memcpy s1 (PoolPtr c i offset) d (LockPage.size g - offset);
        g2 ← page c i s2;
        write_scan fuel' s2 c (LockPage.next g2) p d size
    else if eo then
      let offset := LockPage.start g - p in
      s2 ← memcpy s1 (PoolPtr c i 0) (ptr_add d offset) (size - offset);
      g2 ← page c i s2;
      write_scan fuel' s2 c (LockPage.next g2) p d size
    else
      write_scan fuel' s1 c (LockPage.next g) p d size
  end.

Definition write_class (s : BaseVAlloc) (c : PClass) (p : Z) (d : NativePtr) (size : Z)
    : option (bool * BaseVAlloc) :=
  write_scan (chainFuel (plist c s)) s c (PageInfo.lockedIndex (plist c s)) p d size.

Definition write (s : BaseVAlloc) (p : Z) (d : NativePtr) (size : Z) : option BaseVAlloc :=
  '(r, s1) ← write_class s Small p d size;
  if r : bool then Some s1 else
  '(r, s2) ← write_class s1 Medium p d size;
  if r : bool then Some s2 else
  '(r, s3) ← write_class s2 Big p d size;
  if r : bool then Some s3 else
  pushRawData s3 p d size.

Fixpoint flush_loop (fuel : nat) (s : BaseVAlloc) (i : Z) (clear : bool) : option BaseVAlloc :=
  match fuel with
  | O => None
  | S fuel' =>
    if i =? -1 then Some s else
    g ← page Big i s;
    s1 ← (if negb (LockPage.start g =? 0) then
            s1 ← syncBigPage s i;
            if clear then modPage Big i (LockPage.set_start 0) s1 else Some s1
          else Some s);
    g1 ← page Big i s1;
    flush_loop fuel' s1 (LockPage.next g1) clear
  end.

Definition flush (s : BaseVAlloc) : option BaseVAlloc :=
  flush_loop (chainFuel (bigPages s)) s (PageInfo.freeIndex (bigPages s)) false.


(** ** Free-list allocator *)

(** Modelled from the spec: the byte layout of [UMemHeader], whose declaration
    is in a header outside the sources.  The two fields [size] and [next]
    each take half of [sizeof(UMemHeader)], least significant byte first; a
    byte is read modulo 256. *)
Fixpoint le_bytes (n : nat) (v : Z) : list Z :=
  match n with
  | O => []
  | S k => (v mod 256) :: le_bytes k (v / 256)
  end.

Definition le_value (l : list Z) : Z := foldr (λ b acc, b mod 256 + 256 * acc) 0 l.

Definition fieldBytes : nat := Z.to_nat (hdrSize cfg / 2).

Definition encodeHeader (h : UMemHeader.t) : list Z :=
  le_bytes fieldBytes (UMemHeader.size h) ++ le_bytes fieldBytes (UMemHeader.next h)
  ++ replicate (Z.to_nat (hdrSize cfg) - 2 * fieldBytes)%nat 0.

Definition decodeHeader (l : list Z) : UMemHeader.t :=
  UMemHeader.mk (le_value (take fieldBytes l))
                (le_value (take fieldBytes (drop fieldBytes l))).

(** [*getHeaderConst(p)]: every use in the source reads the fields before the
    next call that can swap the page, so the header is returned by value. *)
Definition getHeaderConst (s : BaseVAlloc) (p : Z) : option (UMemHeader.t * BaseVAlloc) :=
  if p =? BASE_INDEX cfg then Some (baseFreeList s, s) else
  '(a, s1) ← read s p (hdrSize cfg);
  d ← peek s1 a (hdrSize cfg);
  Some (decodeHeader d, s1).

Definition updateHeader (s : BaseVAlloc) (p : Z) (h : UMemHeader.t) : option BaseVAlloc :=
  if p =? BASE_INDEX cfg then Some (set_baseFreeList h s)
  else write s p (UserBuf (encodeHeader h)) (hdrSize cfg).

(** Free-list walks have no bound in the source; a list inside the pool has
    fewer than [poolSize] nodes. *)
Definition listFuel (s : BaseVAlloc) : nat := Z.to_nat (poolSize s) + 2.

(** The [while] loop of [freeRaw] that looks for the place of [hdrptr]. *)
Fixpoint freeRaw_find (fuel : nat) (s : BaseVAlloc) (hdrptr p : Z) (consth : UMemHeader.t)
    : option (Z * UMemHeader.t * BaseVAlloc) :=
  match fuel with
  | O => None
  | S fuel' =>
    if (p <? hdrptr) && (hdrptr <? UMemHeader.next consth) then Some (p, consth, s)
    else if (UMemHeader.next consth <=? p) &&
            ((p <? hdrptr) || (hdrptr <? UMemHeader.next consth))
    then Some (p, consth, s)
    else
      let p1 := UMemHeader.next consth in
      '(consth1, s1) ← getHeaderConst s p1;
      freeRaw_find fuel' s1 hdrptr p1 consth1
  end.

Definition freeRaw (s : BaseVAlloc) (ptr : Z) : option BaseVAlloc :=
  if ptr =? 0 then Some s else
  let hdrptr := ptr - hdrSize cfg in
  '(statheader, s1) ← getHeaderConst s hdrptr;
  '(consth, s2) ← getHeaderConst s1 (freePointer s1);
  '(p, stath, s3) ← freeRaw_find (listFuel s2) s2 hdrptr (freePointer s2) consth;
  (* Try to combine with the higher neighbor *)
  '(statheader1, s4) ←
     (if hdrptr + UMemHeader.size statheader =? UMemHeader.next stath then
        '(nexth, s4) ← getHeaderConst s3 (UMemHeader.next stath);
        Some (UMemHeader.mk (UMemHeader.size statheader + UMemHeader.size nexth)
                            (UMemHeader.next nexth), s4)
      else Some (UMemHeader.set_next (UMemHeader.next stath) statheader, s3));
  s5 ← updateHeader s4 hdrptr statheader1;
  (* Try to combine with the lower neighbor *)
  let stath1 :=
    (if p + UMemHeader.size stath =? hdrptr then
       UMemHeader.mk (UMemHeader.size stath + UMemHeader.size statheader1)
                     (UMemHeader.next statheader1)
     else UMemHeader.set_next hdrptr stath) in
  s6 ← updateHeader s5 p stath1;
  Some (set_freePointer p s6).

Definition getMem (s : BaseVAlloc) (size : Z) : option (Z * BaseVAlloc) :=
  let size := Z.max size (MIN_ALLOC_SIZE cfg) in
  let totalsize := size * hdrSize cfg in
  if poolFreePos s + totalsize <=? poolSize s then
    s1 ← write s (poolFreePos s) (UserBuf (encodeHeader (UMemHeader.mk size 0))) (hdrSize cfg);
    s2 ← freeRaw s1 (poolFreePos s1 + hdrSize cfg);
    let s3 := set_poolFreePos (poolFreePos s2 + totalsize) s2 in
    Some (freePointer s3, s3)
  else Some (0, s).

Definition quantityOf (size : Z) : Z := (size + hdrSize cfg - 1) / hdrSize cfg + 1.

(** The [while (true)] loop of [allocRaw]. *)
Fixpoint allocRaw_loop (fuel : nat) (s : BaseVAlloc) (quantity prevp p : Z)
    : option (Z * BaseVAlloc) :=
  match fuel with
  | O => None
  | S fuel' =>
    '(consth, s1) ← getHeaderConst s p;
    if quantity <=? UMemHeader.size consth then
      if UMemHeader.size consth =? quantity then
        (* exactly: unlink the block *)
        let next := UMemHeader.next consth in
        '(prevh, s2) ← getHeaderConst s1 prevp;
        s3 ← updateHeader s2 prevp (UMemHeader.set_next next prevh);
        Some (p + hdrSize cfg, set_freePointer prevp s3)
      else
        (* too big *)
        let h := UMemHeader.set_size (UMemHeader.size consth - quantity) consth in
        s2 ← updateHeader s1 p h;
        let p1 := p + UMemHeader.size h * hdrSize cfg in
        '(h1, s3) ← getHeaderConst s2 p1;
        s4 ← updateHeader s3 p1 (UMemHeader.set_size quantity h1);
        Some (p1 + hdrSize cfg, set_freePointer prevp s4)
    else if p =? freePointer s1 then
      '(p1, s2) ← getMem s1 quantity;
      if p1 =? 0 then Some (0, s2) else
      '(consth1, s3) ← getHeaderConst s2 p1;
      allocRaw_loop fuel' s3 quantity p1 (UMemHeader.next consth1)
    else
      allocRaw_loop fuel' s1 quantity p (UMemHeader.next consth)
  end.

Definition allocRaw (s : BaseVAlloc) (size : Z) : option (Z * BaseVAlloc) :=
  let quantity := quantityOf size in
  let s0 := (if freePointer s =? 0
             then set_baseFreeList (UMemHeader.mk 0 (BASE_INDEX cfg))
                    (set_freePointer (BASE_INDEX cfg) s)
             else s) in
  let prevp := freePointer s0 in
  '(h, s1) ← getHeaderConst s0 prevp;
  allocRaw_loop (2 * listFuel s1) s1 quantity prevp (UMemHeader.next h).

(** ** Lock subsystem *)


(** The search loop of [makeDataLock] along the locked chain of class [c]. *)
Fixpoint makeDataLock_scan (fuel : nat) (s : BaseVAlloc) (c : PClass) (i ptr : Z)
    (l : DataLock.t) : option (DataLock.t * BaseVAlloc) :=
  match fuel with
  | O => None
  | S fuel' =>
    if i =? -1 then Some (l, s) else
    g ← page c i s;
    (* [found]: the tail of the branch "already there?" *)
    let found (l : DataLock.t) (s : BaseVAlloc) :=
      g1 ← page c i s;
      let l1 := DataLock.set_pageindex i l in
      if LockPage.size g1 =? DataLock.size l1
      then Some (DataLock.set_done true l1, s)
      else makeDataLock_scan fuel' s c (LockPage.next g1) ptr l1 in
    if LockPage.start g =? ptr then
      if negb (PClass_eqb (DataLock.pinfo l) c) then
        if LockPage.locks g =? 0 then
          '(nxt, s1) ← freeLockedPage s c i;
          makeDataLock_scan fuel' s1 c nxt ptr l
        else
          let l1 :=
            (if PageInfo.size (plist c s) <? PageInfo.size (plist (DataLock.pinfo l) s)
             then DataLock.set_size (Z.min (DataLock.size l) (PageInfo.size (plist c s))) l
             else l) in
          found (DataLock.set_pinfo c l1) s
      else if DataLock.size l <? LockPage.size g then
        (* write excess data, shrink page *)
        s1 ← saveRawData s (PoolPtr c i (DataLock.size l))
                         (LockPage.start g + DataLock.size l)
                         (LockPage.size g - DataLock.size l);
        s2 ← modPage c i (LockPage.set_size (DataLock.size l)) s1;
        found l s2
      else found l s
    else
      let endoverlaps := (ptr <? LockPage.start g) && (LockPage.start g <? ptr + DataLock.size l) in
      let beginoverlaps :=
        (LockPage.start g <? ptr) && (ptr <? LockPage.start g + LockPage.size g) in
      if negb (LockPage.locks g =? 0) then
        let l1 :=
          (if endoverlaps
           then DataLock.set_shrunk true (DataLock.set_size (LockPage.start g - ptr) l)
           else if beginoverlaps then DataLock.set_fixbeginningoverlap true l
           else l) in
        makeDataLock_scan fuel' s c (LockPage.next g) ptr l1
      else if endoverlaps || beginoverlaps then
        '(nxt, s1) ← freeLockedPage s c i;
        makeDataLock_scan fuel' s1 c nxt ptr l
      else
        let l1 :=
          (if DataLock.oldlockindex l =? -1 then
             if PClass_eqb (DataLock.pinfo l) c then DataLock.set_oldlockindex i l
             else if (DataLock.secoldlockindex l =? -1) &&
                     (PageInfo.size (plist (DataLock.pinfo l) s) <? PageInfo.size (plist c s))
             then DataLock.set_sec i c l
             else l
           else l) in
        makeDataLock_scan fuel' s c (LockPage.next g) ptr l1
  end.

Definition makeDataLock_class (s : BaseVAlloc) (c : PClass) (ptr : Z) (l : DataLock.t)
    : option (DataLock.t * BaseVAlloc) :=
  if DataLock.done l then Some (l, s)
  else makeDataLock_scan (chainFuel (plist c s)) s c (PageInfo.lockedIndex (plist c s)) ptr l.

(** "does it fit in a smaller page now?": try class [c] for a lock that shrank. *)
Definition tryClass (s : BaseVAlloc) (c : PClass) (l : DataLock.t) : option DataLock.t :=
  if negb (PageInfo.freeIndex (plist c s) =? -1) then Some (DataLock.set_pinfo c l)
  else
    index ← findUnusedLockedPage (plist c s);
    if negb (index =? -1)
    then Some (DataLock.set_oldlockindex index (DataLock.set_pinfo c l))
    else Some l.

Definition migrateDown (s : BaseVAlloc) (l : DataLock.t) : option (DataLock.t * BaseVAlloc) :=
  if DataLock.shrunk l && (DataLock.size l <=? PageInfo.size (mediumPages s))
     && PClass_eqb (DataLock.pinfo l) Big then
    unused ← (if DataLock.pageindex l =? -1 then Some true
              else g ← page (DataLock.pinfo l) (DataLock.pageindex l) s;
                   Some (LockPage.locks g =? 0));
    if unused : bool then
      let oldpinfo := DataLock.pinfo l in
      l1 ← (if DataLock.size l <=? PageInfo.size (smallPages s)
            then tryClass s Small l else Some l);
      l2 ← (if PClass_eqb oldpinfo (DataLock.pinfo l1) then tryClass s Medium l1 else Some l1);
      if negb (PClass_eqb (DataLock.pinfo l2) oldpinfo) && negb (DataLock.pageindex l2 =? -1) then
        '(_, s1) ← freeLockedPage s oldpinfo (DataLock.pageindex l2);
        Some (DataLock.set_pageindex (-1) l2, s1)
      else Some (l2, s)
    else Some (l, s)
  else Some (l, s).

(** The loop that resolves an overlap at the beginning, along one chain. *)
Fixpoint fixBeginning_scan (fuel : nat) (s : BaseVAlloc) (c : PClass) (i ptr : Z)
    (l : DataLock.t) (copyoffset : Z) : option (Z * BaseVAlloc) :=
  match fuel with
  | O => None
  | S fuel' =>
    if i =? -1 then Some (copyoffset, s) else
    g ← page c i s;
    '(copyoffset1, s1) ←
      (if (negb (i =? DataLock.pageindex l) || negb (PClass_eqb c (DataLock.pinfo l)))
          && (LockPage.start g <? ptr) && (ptr <? LockPage.start g + LockPage.size g) then
         let offsetold := ptr - LockPage.start g in
         let copysize := Z.min (LockPage.size g - offsetold) (DataLock.size l) in
         s1 ← memcpy s (PoolPtr (DataLock.pinfo l) (DataLock.pageindex l) 0)
                     (PoolPtr c i offsetold) copysize;
         s2 ← modPage c i (LockPage.set_size offsetold) s1;
         Some (Z.max copyoffset copysize, s2)
       else Some (copyoffset, s));
    g1 ← page c i s1;
    fixBeginning_scan fuel' s1 c (LockPage.next g1) ptr l copyoffset1
  end.

Definition fixBeginning_class (s : BaseVAlloc) (c : PClass) (ptr : Z) (l : DataLock.t)
    (copyoffset : Z) : option (Z * BaseVAlloc) :=
  fixBeginning_scan (chainFuel (plist c s)) s c (PageInfo.lockedIndex (plist c s))
                    ptr l copyoffset.

(** The branch "make new or reuse old lock" of [makeDataLock]; the result
    [None] inside is the [return 0] of the source. *)
Definition newDataLock (s : BaseVAlloc) (ptr : Z) (l : DataLock.t)
    : option (option (DataLock.t * BaseVAlloc)) :=
  let l1 :=
    (if (PageInfo.freeIndex (plist (DataLock.pinfo l) s) =? -1)
        && (DataLock.oldlockindex l =? -1) then
       if (PageInfo.size (plist (DataLock.pinfo l) s) <? PageInfo.size (mediumPages s))
          && negb (PageInfo.freeIndex (mediumPages s) =? -1)
       then DataLock.set_pinfo Medium l
       else if (PageInfo.size (plist (DataLock.pinfo l) s) <? PageInfo.size (bigPages s))
               && negb (PageInfo.freeIndex (bigPages s) =? -1)
       then DataLock.set_pinfo Big l
       else l
     else l) in
  r ← (if negb (PageInfo.freeIndex (plist (DataLock.pinfo l1) s) =? -1) then
         let copyoffset := (if PClass_eqb (DataLock.pinfo l1) Big then DataLock.size l1 else 0) in
         '(index, s1) ← lockPage s (DataLock.pinfo l1) ptr (DataLock.size l1);
         Some (Some (copyoffset, DataLock.set_pageindex index l1, s1))
       else
         l2 ← (if (DataLock.oldlockindex l1 =? -1) && negb (DataLock.secoldlockindex l1 =? -1)
               then c ← DataLock.secpinfo l1;
                    Some (DataLock.set_oldlockindex (DataLock.secoldlockindex l1)
                            (DataLock.set_pinfo c l1))
               else Some l1);
         if negb (DataLock.oldlockindex l2 =? -1) then
           s1 ← syncLockedPage s (DataLock.pinfo l2) (DataLock.oldlockindex l2);
           s2 ← modPage (DataLock.pinfo l2) (DataLock.oldlockindex l2)
                        (LockPage.set_dirty false) s1;
           Some (Some (0, DataLock.set_pageindex (DataLock.oldlockindex l2) l2, s2))
         else Some None);
  match r with
  | None => Some None
  | Some (copyoffset, l3, s1) =>
    '(copyoffset1, s2) ←
      (if DataLock.fixbeginningoverlap l3 then
         '(co, s2) ← fixBeginning_class s1 Small ptr l3 copyoffset;
         '(co, s3) ← fixBeginning_class s2 Medium ptr l3 co;
         fixBeginning_class s3 Big ptr l3 co
       else Some (copyoffset, s1));
    s3 ← (if copyoffset1 <? DataLock.size l3 then
            copyRawData s2 (PoolPtr (DataLock.pinfo l3) (DataLock.pageindex l3) copyoffset1)
                        (ptr + copyoffset1) (DataLock.size l3 - copyoffset1)
          else Some s2);
    s4 ← modPage (DataLock.pinfo l3) (DataLock.pageindex l3) (LockPage.set_start ptr) s3;
    Some (Some (l3, s4))
  end.

Definition makeDataLock (s : BaseVAlloc) (ptr size : Z) (ro : bool)
    : option (NativePtr * BaseVAlloc) :=
  let pinfo := (if size <=? PageInfo.size (smallPages s) then Small
                else if size <=? PageInfo.size (mediumPages s) then Medium
                else Big) in
  let l0 := DataLock.mk size pinfo None (-1) (-1) (-1) false false false in
  '(l1, s1) ← makeDataLock_class s Small ptr l0;
  '(l2, s2) ← makeDataLock_class s1 Medium ptr l1;
  '(l3, s3) ← makeDataLock_class s2 Big ptr l2;
  '(l4, s4) ← migrateDown s3 l3;
  r ← (if DataLock.pageindex l4 =? -1 then newDataLock s4 ptr l4
       else
         g ← page (DataLock.pinfo l4) (DataLock.pageindex l4) s4;
         (* size increased? *)
         s5 ← (if LockPage.size g <? DataLock.size l4 then
                 let offset := LockPage.size g in
                 copyRawData s4 (PoolPtr (DataLock.pinfo l4) (DataLock.pageindex l4) offset)
                             (ptr + offset) (DataLock.size l4 - offset)
               else Some s4);
         Some (Some (l4, s5)));
  match r with
  | None => Some (Null, s4)
  | Some (l5, s5) =>
    s6 ← modPage (DataLock.pinfo l5) (DataLock.pageindex l5)
           (λ g, LockPage.set_size (DataLock.size l5)
                   (LockPage.set_locks (LockPage.locks g + 1)
                      (if LockPage.dirty g then g else LockPage.set_dirty (negb ro) g))) s5;
    Some (PoolPtr (DataLock.pinfo l5) (DataLock.pageindex l5) 0, s6)
  end.

(** The search loop of [makeFittingLock] along the locked chain of class [c]. *)
Fixpoint makeFittingLock_scan (fuel : nat) (s : BaseVAlloc) (c : PClass) (i ptr : Z)
    (l : FitLock.t) : option (FitLock.t * BaseVAlloc) :=
  match fuel with
  | O => None
  | S fuel' =>
    if i =? -1 then Some (l, s) else
    g ← page c i s;
    (* lock within requested address? *)
    if (LockPage.start g <=? ptr) && (ptr <? LockPage.start g + LockPage.size g) then
      Some (FitLock.set_found c i l, s)
    else
      let endoverlaps :=
        (ptr <? LockPage.start g) && (LockPage.start g <? ptr + FitLock.size l) in
      if endoverlaps && (LockPage.locks g =? 0) then
        (* remove unused locks *)
        '(nxt, s1) ← freeLockedPage s c i;
        makeFittingLock_scan fuel' s1 c nxt ptr l
      else
        let l1 := (if endoverlaps then FitLock.set_size (LockPage.start g - ptr) l else l) in
        let l2 := (if (LockPage.locks g =? 0) && (FitLock.unusedlist c l1 =? -1)
                   then FitLock.set_unusedlist c i l1 else l1) in
        makeFittingLock_scan fuel' s c (LockPage.next g) ptr l2
  end.

Definition makeFittingLock_class (s : BaseVAlloc) (c : PClass) (ptr : Z) (l : FitLock.t)
    : option (FitLock.t * BaseVAlloc) :=
  if FitLock.done l then Some (l, s)
  else makeFittingLock_scan (chainFuel (plist c s)) s c (PageInfo.lockedIndex (plist c s)) ptr l.

(** One round of the loop that picks the class of a new fitting lock;
    [sel] is the pair ([plistindex], [secpli]). *)
Definition pickClass (s : BaseVAlloc) (l : FitLock.t) (c : PClass)
    (sel : option PClass * option PClass) : option PClass * option PClass :=
  if negb (PageInfo.freeIndex (plist c s) =? -1) || negb (FitLock.unusedlist c l =? -1) then
    if FitLock.size l <=? PageInfo.size (plist c s) then (Some c, sel.2)
    else (sel.1, Some c)
  else sel.

(** [makeFittingLock(ptr, size, ro)]; the second component of the result is
    the value left in the reference parameter [size]. *)
Definition makeFittingLock (s : BaseVAlloc) (ptr size : Z) (ro : bool)
    : option (NativePtr * Z * BaseVAlloc) :=
  let size := Z.min size (PageInfo.size (bigPages s)) in
  let l0 := FitLock.mk size (-1) (-1) (-1) None (-1) false in
  '(l1, s1) ← makeFittingLock_class s Small ptr l0;
  '(l2, s2) ← makeFittingLock_class s1 Medium ptr l1;
  '(l3, s3) ← makeFittingLock_class s2 Big ptr l2;
  r ← (if FitLock.pageindex l3 =? -1 then
         (* no existing lock found *)
         let sel := pickClass s3 l3 Big (pickClass s3 l3 Medium
                      (pickClass s3 l3 Small (FitLock.plistindex l3, None))) in
         let l4 :=
           (match sel with
            | (None, Some c) =>
                FitLock.set_size (PageInfo.size (plist c s3)) (FitLock.set_plistindex (Some c) l3)
            | (pi, _) => FitLock.set_plistindex pi l3
            end) in
         match FitLock.plistindex l4 with
         | None => Some None
         | Some c =>
           '(pageindex, syncpool, s4) ←
             (if negb (PageInfo.freeIndex (plist c s3) =? -1) then
                '(index, s4) ← lockPage s3 c ptr (FitLock.size l4);
                Some (index, negb (PClass_eqb c Big), s4)
              else
                let index := FitLock.unusedlist c l4 in
                s4 ← syncLockedPage s3 c index;
                s5 ← modPage c index (LockPage.set_dirty false) s4;
                Some (index, true, s5));
           s5 ← (if syncpool : bool
                 then copyRawData s4 (PoolPtr c pageindex 0) ptr (FitLock.size l4)
                 else Some s4);
           s6 ← modPage c pageindex
                  (λ g, LockPage.set_size (FitLock.size l4) (LockPage.set_start ptr g)) s5;
           Some (Some (c, pageindex, 0, FitLock.size l4, s6))
         end
       else
         match FitLock.plistindex l3 with
         | None => None
         | Some c =>
           g ← page c (FitLock.pageindex l3) s3;
           let offset := ptr - LockPage.start g in
           (* fixup size as the starting address may be different *)
           Some (Some (c, FitLock.pageindex l3, offset,
                       Z.min (FitLock.size l3) (LockPage.size g - offset), s3))
         end);
  match r with
  | None => Some (Null, FitLock.size l3, s3)
  | Some (c, pageindex, offset, size1, s4) =>
    s5 ← modPage c pageindex
           (λ g, let g1 := LockPage.set_locks (LockPage.locks g + 1) g in
                 if LockPage.dirty g1 then g1 else LockPage.set_dirty (negb ro) g1) s4;
    Some (PoolPtr c pageindex offset, size1, s5)
  end.

(** [releaseLock(ptr)] *)
Definition releaseLock (s : BaseVAlloc) (ptr : Z) : option BaseVAlloc :=
  owner ← findLockedPageAny s ptr;
  '(c, i) ← owner;
  g ← page c i s;
  let s1 := set_page c i (LockPage.set_locks (LockPage.locks g - 1) g) s in
  if LockPage.locks g - 1 =? 0 then
    (* was it a big page? free it so that it can be re-used for non locked IO *)
    index ← findLockedPage (bigPages s1) ptr;
    if negb (index =? -1) then
      '(_, s2) ← freeLockedPage s1 Big index;
      Some s2
    else Some s1
  else Some s1.

End Allocator.

(** ** A concrete allocator

    The sizes of the seed scenarios of the specification: pages of 16, 64 and
    256 bytes, a pool of 4096 bytes and headers of 4 bytes.  The private enum
    is declared outside the sources; [BASE_INDEX] is an address below
    [START_OFFSET], which no block can have. *)

Definition cfg0 : Config :=
  {| hdrSize := 4; START_OFFSET := 8; BASE_INDEX := 1;
     MIN_ALLOC_SIZE := 16; PAGE_MAX_CLEAN_SKIPS := 5 |}.

(** What the constructor and [initPages] leave behind: [count] pages of
    [psize] zero bytes each. *)
Definition initPages (pcount : nat) (psize : Z) : PageInfo.t :=
  PageInfo.mk (replicate pcount (LockPage.mk 0 0 (replicate (Z.to_nat psize) 0) 0 0 false (-1)))
              psize 0 (-1).

Definition newAlloc (nsmall nmedium nbig : nat) (psize : Z) : BaseVAlloc :=
  mkAlloc (initPages nsmall 16) (initPages nmedium 64) (initPages nbig 256)
          0 (UMemHeader.mk 0 0) 0 0 psize (replicate (Z.to_nat psize) 0) [].

(** The allocator of the seed scenarios after [start()]. *)
Definition alloc0 : BaseVAlloc := start cfg0 (newAlloc 4 4 4 4096).

(** ** Page statistics and [writeZeros] *)

(** The counting loops of [getUnlockedPages] and [getFreeBigPages]:
    [for (i = head; i != -1; i = pages[i].next) if (test) ++ret;] with the
    counter [ret] a [uint8_t]. *)
Fixpoint countPages (fuel : nat) (q : PageInfo.t) (i : Z) (test : LockPage.t → bool)
    (ret : Z) : option Z :=
  match fuel with
  | O => None
  | S fuel' =>
    if i =? -1 then Some ret else
    g ← getPage q i;
    countPages fuel' q (LockPage.next g) test (if test g then (ret + 1) mod 256 else ret)
  end.

(** [getUnlockedPages(pinfo)]: the free chain, then the locked pages that
    carry no lock. *)
Definition getUnlockedPages (q : PageInfo.t) : option Z :=
  ret ← countPages (chainFuel q) q (PageInfo.freeIndex q) (λ _, true) 0;
  countPages (chainFuel q) q (PageInfo.lockedIndex q) (λ g, LockPage.locks g =? 0) ret.

(** [getFreeBigPages()] *)
Definition getFreeBigPages (s : BaseVAlloc) : option Z :=
  countPages (chainFuel (bigPages s)) (bigPages s) (PageInfo.freeIndex (bigPages s))
             (λ g, LockPage.start g =? 0) 0.

(** The loop of [writeZeros]; it does not end when [bigPages.size] is 0. *)
Fixpoint writeZeros_loop (fuel : nat) (s : BaseVAlloc) (start n i : Z) : option BaseVAlloc :=
  match fuel with
  | O => None
  | S fuel' =>
    if i <? n then
      s1 ← doWrite s (PoolPtr Big 0 0) (start + i) (Z.min (n - i) (PageInfo.size (bigPages s)));
      writeZeros_loop fuel' s1 start n (i + PageInfo.size (bigPages s))
    else Some s
  end.

(** [writeZeros(start, n)]: [memset] of the buffer of big page 0, then the
    writes.  Every round but the last moves [i] by at least one byte, so
    [n + 1] rounds are enough for every run that ends. *)
Definition writeZeros (s : BaseVAlloc) (start n : Z) : option BaseVAlloc :=
  g ← page Big 0 s;
  pool ← blit (LockPage.pool g) 0 (replicate (Z.to_nat (PageInfo.size (bigPages s))) 0);
  writeZeros_loop (Z.to_nat n + 1) (set_page Big 0 (LockPage.set_pool pool g) s) start n 0.


(** *** Observations used by the statements *)

(** The chains of a class as the lists of page indices they link, or [None]
    when a chain leaves the table or does not end. *)
Fixpoint chainList (fuel : nat) (q : PageInfo.t) (i : Z) : option (list Z) :=
  match fuel with
  | O => None
  | S fuel' =>
    if i =? -1 then Some [] else
    g ← getPage q i;
    l ← chainList fuel' q (LockPage.next g);
    Some (i :: l)
  end.

Definition freeChain (q : PageInfo.t) : option (list Z) :=
  chainList (chainFuel q) q (PageInfo.freeIndex q).

Definition lockedChain (q : PageInfo.t) : option (list Z) :=
  chainList (chainFuel q) q (PageInfo.lockedIndex q).

(** Number of nodes of the circular free list met on a walk from
    [freePointer] (the head kept in RAM included); 0 before the first
    allocation. *)
Fixpoint freeListWalk (cfg : Config) (fuel : nat) (s : BaseVAlloc) (p : Z) : option nat :=
  match fuel with
  | O => None
  | S fuel' =>
    '(h, s1) ← getHeaderConst cfg s p;
    if UMemHeader.next h =? freePointer s then Some 1%nat
    else n ← freeListWalk cfg fuel' s1 (UMemHeader.next h); Some (S n)
  end.

Definition freeListCount (cfg : Config) (s : BaseVAlloc) : option nat :=
  if freePointer s =? 0 then Some 0%nat
  else freeListWalk cfg (listFuel s) s (freePointer s).

(** The bytes that [read(p, n)] hands out. *)
Definition readBytes (cfg : Config) (s : BaseVAlloc) (p n : Z) : option (list Z * BaseVAlloc) :=
  '(a, s1) ← read cfg s p n;
  d ← peek s1 a n;
  Some (d, s1).

(** Number of [doWrite] calls recorded so far. *)
Definition isWrite (e : IOEvent) : bool :=
  match e with IOWrite _ _ => true | IORead _ _ => false end.

Definition writeCount (s : BaseVAlloc) : nat :=
  length (List.filter isWrite (iolog s)).

(** *** Call sequences of the scenarios *)

(** A full-size big lock at 100, a [write] that straddles its beginning, the
    release of the lock; then [write(200, e, 10)], a [read] elsewhere that
    evicts pages, and [read(200, 10)]. *)
Definition overlapAfterRelease : option BaseVAlloc :=
  '(_, s1) ← makeDataLock cfg0 alloc0 100 256 true;
  s2 ← write cfg0 s1 50 (UserBuf (replicate 100 7)) 100;
  releaseLock s2 100.

Definition writeEvictRead (e : list Z) : option (list Z) :=
  s3 ← overlapAfterRelease;
  s4 ← write cfg0 s3 200 (UserBuf e) 10;
  '(_, s5) ← read cfg0 s4 40 10;
  '(d, _) ← readBytes cfg0 s5 200 10;
  Some d.

(** A writable lock of 100 bytes in a big page, released again. *)
Definition lockRelease : option BaseVAlloc :=
  '(_, s1) ← makeDataLock cfg0 alloc0 100 100 false;
  releaseLock s1 100.

(** One allocation, so that the free list holds the head and one block. *)
Definition oneBlock : option BaseVAlloc :=
  '(_, s) ← allocRaw cfg0 alloc0 10; Some s.

Definition allocAllocFreeFree (s : BaseVAlloc) (n : Z) : option BaseVAlloc :=
  '(a, s1) ← allocRaw cfg0 s n;
  '(b, s2) ← allocRaw cfg0 s1 n;
  s3 ← freeRaw cfg0 s2 a;
  freeRaw cfg0 s3 b.


(** Four reads that map the four big pages, all clean. *)
Definition fourClean : option BaseVAlloc :=
  '(_, s1) ← read cfg0 alloc0 100 10;
  '(_, s2) ← read cfg0 s1 500 10;
  '(_, s3) ← read cfg0 s2 1000 10;
  '(_, s4) ← read cfg0 s3 1500 10;
  Some s4.

(** A read-only small lock at 100. *)
Definition smallLock : option BaseVAlloc :=
  '(_, s1) ← makeDataLock cfg0 alloc0 100 8 true; Some s1.

(** The states the scenarios end in ([alloc0] if a call were undefined). *)
Definition fourCleanState : BaseVAlloc := default alloc0 fourClean.
Definition smallLockState : BaseVAlloc := default alloc0 smallLock.

(** A writable lock of 100 bytes in a big page. *)
Definition bigLockState : BaseVAlloc :=
  default alloc0 ('(_, s1) ← makeDataLock cfg0 alloc0 100 100 false; Some s1).





(** A [write] of ten bytes at 200: a dirty big page is mapped there. *)
Definition dirtyPageState : BaseVAlloc :=
  default alloc0 (write cfg0 alloc0 200 (UserBuf (replicate 10 7)) 10).

(** *** Predicates of the statements *)

(** [chain q i l]: following [next] from index [i] in the table of [q] visits
    exactly the pages [l] and then reaches [-1]. *)
Inductive chain (q : PageInfo.t) : Z → list Z → Prop :=
| chain_nil : chain q (-1) []
| chain_cons i g l :
    getPage q i = Some g → chain q (LockPage.next g) l → chain q i (i :: l).

(** A class is well linked: both chains end, no page is in both, and the
    pages of the free chain carry no lock. *)
Definition wfClassb (q : PageInfo.t) : bool :=
  match freeChain q, lockedChain q with
  | Some F, Some L =>
      forallb (λ i, negb (bool_decide (i ∈ L))) F &&
      forallb (λ i, match getPage q i with
                    | Some g => LockPage.locks g =? 0
                    | None => false
                    end) F
  | _, _ => false
  end.

Definition wfChains (s : BaseVAlloc) : Prop :=
  wfClassb (smallPages s) = true ∧ wfClassb (mediumPages s) = true ∧
  wfClassb (bigPages s) = true.

(** [links s s']: the chains of [s'] are those of [s] (heads, [next] fields
    and class sizes are the same). *)
Definition links (s s' : BaseVAlloc) : Prop :=
  (∀ c, PageInfo.size (plist c s') = PageInfo.size (plist c s) ∧
        PageInfo.freeIndex (plist c s') = PageInfo.freeIndex (plist c s) ∧
        PageInfo.lockedIndex (plist c s') = PageInfo.lockedIndex (plist c s)) ∧
  (∀ c k, (LockPage.next <$> page c k s') = (LockPage.next <$> page c k s)) ∧
  poolSize s' = poolSize s.

(** The fields of a page other than its buffer and its dirty flag. *)
Definition meta (g : LockPage.t) : Z * Z * Z * Z * Z :=
  (LockPage.start g, LockPage.size g, LockPage.locks g, LockPage.cleanSkips g,
   LockPage.next g).

(** [softEq s s']: only page buffers, dirty flags, the store and the log of
    driver calls may differ. *)
Definition softEq (s s' : BaseVAlloc) : Prop :=
  (∀ c, PageInfo.size (plist c s') = PageInfo.size (plist c s) ∧
        PageInfo.freeIndex (plist c s') = PageInfo.freeIndex (plist c s) ∧
        PageInfo.lockedIndex (plist c s') = PageInfo.lockedIndex (plist c s)) ∧
  (∀ c k, (meta <$> page c k s') = (meta <$> page c k s)) ∧
  nextPageToSwap s' = nextPageToSwap s ∧ baseFreeList s' = baseFreeList s ∧
  freePointer s' = freePointer s ∧ poolFreePos s' = poolFreePos s ∧
  poolSize s' = poolSize s.

(** [pagewise R s s']: every page of [s] is still there in [s'] and related
    to its former self by [R]. *)
Definition pagewise (R : LockPage.t → LockPage.t → Prop) (s s' : BaseVAlloc) : Prop :=
  ∀ c k g, page c k s = Some g → ∃ g', page c k s' = Some g' ∧ R g g'.


(** [path q i l t]: following [next] from [i] visits the pages [l] and
    arrives at [t]. *)
Inductive path (q : PageInfo.t) : Z → list Z → Z → Prop :=
| path_nil i : path q i [] i
| path_cons i g l t :
    getPage q i = Some g → path q (LockPage.next g) l t → path q i (i :: l) t.

(** As [pagewise], with a relation that may depend on the class and the index
    of the page. *)
Definition pagewiseI (R : PClass → Z → LockPage.t → LockPage.t → Prop)
    (s s' : BaseVAlloc) : Prop :=
  ∀ c k g, page c k s = Some g → ∃ g', page c k s' = Some g' ∧ R c k g g'.

(** Every page but page [i] of class [c] keeps [start], [size] and [locks]. *)
Definition keptBut (c : PClass) (i : Z) (c' : PClass) (k : Z) (g g' : LockPage.t) : Prop :=
  ¬ (c' = c ∧ k = i) →
  LockPage.start g' = LockPage.start g ∧ LockPage.size g' = LockPage.size g ∧
  LockPage.locks g' = LockPage.locks g.

(** [footprint F s s']: only pages of the big free chain [F] differ between
    [s] and [s'], and no lock count differs at all. *)
Definition footprint (F : list Z) (s s' : BaseVAlloc) : Prop :=
  (∀ c k, c ≠ Big ∨ k ∉ F → page c k s' = page c k s) ∧
  pagewise (λ g g', LockPage.locks g' = LockPage.locks g) s s'.

(** A page with a lock keeps [start] and [size]; lock counts are kept. *)
Definition lockKept (g g' : LockPage.t) : Prop :=
  LockPage.locks g' = LockPage.locks g ∧
  (LockPage.locks g ≠ 0 →
   LockPage.start g' = LockPage.start g ∧ LockPage.size g' = LockPage.size g).

(** The chains of every class are well linked (as [wfClassb], in [Prop]). *)
Definition wellLinked (s : BaseVAlloc) : Prop :=
  ∀ c, ∃ F L,
    chain (plist c s) (PageInfo.freeIndex (plist c s)) F ∧
    chain (plist c s) (PageInfo.lockedIndex (plist c s)) L ∧
    (∀ x, x ∈ F → x ∉ L) ∧
    (∀ x g, x ∈ F → page c x s = Some g → LockPage.locks g = 0).

(** The slots remembered in [unusedlist] hold pages without a lock. *)
Definition unusedOK (s : BaseVAlloc) (l : FitLock.t) : Prop :=
  ∀ c, FitLock.unusedlist c l = -1 ∨
       ∃ g, page c (FitLock.unusedlist c l) s = Some g ∧ LockPage.locks g = 0.



(** [listFields s s']: the registers of the free list and of the pool are the
    same in [s] and [s']. *)
Definition listFields (s s' : BaseVAlloc) : Prop :=
  freePointer s' = freePointer s ∧ baseFreeList s' = baseFreeList s ∧
  poolFreePos s' = poolFreePos s ∧ poolSize s' = poolSize s.

(** [skips cfg q n s prevp p s' prevp' p']: from [(prevp, p)] in state [s]
    the loop of [allocRaw] makes [n] rounds without a [return] and arrives
    at [(prevp', p')] in state [s']: it steps over a block smaller than [q]
    units, or, back at the block [freePointer] is at, extends the list with
    [getMem] and starts over from [freePointer]. *)
Inductive skips (cfg : Config) (q : Z) :
    nat → BaseVAlloc → Z → Z → BaseVAlloc → Z → Z → Prop :=
| skips_here s prevp p : skips cfg q 0 s prevp p s prevp p
| skips_step n s prevp p h s1 s' prevp' p' :
    getHeaderConst cfg s p = Some (h, s1) →
    UMemHeader.size h < q →
    p ≠ freePointer s1 →
    skips cfg q n s1 p (UMemHeader.next h) s' prevp' p' →
    skips cfg q (S n) s prevp p s' prevp' p'
| skips_grow n s prevp p h s1 p1 s2 h1 s3 s' prevp' p' :
    getHeaderConst cfg s p = Some (h, s1) →
    UMemHeader.size h < q →
    p = freePointer s1 →
    getMem cfg s1 q = Some (p1, s2) →
    p1 ≠ 0 →
    getHeaderConst cfg s2 p1 = Some (h1, s3) →
    skips cfg q n s3 p1 (UMemHeader.next h1) s' prevp' p' →
    skips cfg q (S n) s prevp p s' prevp' p'.

(** The two tests of [read] on a locked page: the page holds the whole range
    (the walk returns), the page overlaps the range (the page is mirrored). *)
Definition holdsRange (g : LockPage.t) (p size : Z) : bool :=
  beginOverlaps g p && (p - LockPage.start g + size <=? LockPage.size g).

Definition touchesRange (g : LockPage.t) (p size : Z) : bool :=
  beginOverlaps g p || endOverlaps g p (p + size).

(** [P] holds of every page of the three locked chains. *)
Definition lockedPagesb (P : LockPage.t → bool) (s : BaseVAlloc) : bool :=
  forallb (λ c, match lockedChain (plist c s) with
                | Some L => forallb (λ x, match page c x s with
                                          | Some g => P g
                                          | None => false
                                          end) L
                | None => false
                end) [Small; Medium; Big].

(** [dirtyKept s s']: from [s] to [s'] a mapped dirty big page stays mapped
    and dirty, unless a write to the store has happened in between. *)
Definition dirtyKept (s s' : BaseVAlloc) : Prop :=
  (writeCount s ≤ writeCount s')%nat ∧
  ∀ j g, page Big j s = Some g → LockPage.dirty g = true → LockPage.start g ≠ 0 →
         (∃ g', page Big j s' = Some g' ∧ LockPage.dirty g' = true ∧ LockPage.start g' ≠ 0) ∨
         (writeCount s < writeCount s')%nat.

(** A page of [F] is a mapped dirty big page. *)
Definition pendingWrite (F : list Z) (s : BaseVAlloc) : Prop :=
  ∃ j g, j ∈ F ∧ page Big j s = Some g ∧ LockPage.dirty g = true ∧ LockPage.start g ≠ 0.

(** What [flush] ([clear = false]) and [clearPages] ([clear = true]) make of
    a page of the free chain of big pages. *)
Definition flushedPage (clear : bool) (g : LockPage.t) : LockPage.t :=
  if LockPage.start g =? 0 then g else
  let g1 := (if LockPage.dirty g
             then LockPage.set_cleanSkips 0 (LockPage.set_dirty false g) else g) in
  if clear then LockPage.set_start 0 g1 else g1.

(** Big page [j] is mapped and dirty. *)
Definition pendingb (s : BaseVAlloc) (j : Z) : bool :=
  match page Big j s with
  | Some g => negb (LockPage.start g =? 0) && LockPage.dirty g
  | None => false
  end.

(** Page [k] of class [c] is the only page of the locked chains that
    overlaps the range [p, p + size). *)
Definition soleToucher (s : BaseVAlloc) (p size : Z) (c : PClass) (k : Z) : bool :=
  forallb (λ c', match lockedChain (plist c' s) with
                 | Some L =>
                     forallb (λ x, match page c' x s with
                                   | Some g => negb (touchesRange g p size)
                                               || (PClass_eqb c' c && (x =? k))
                                   | None => false
                                   end) L
                 | None => false
                 end) [Small; Medium; Big].

(** The same in [Prop], with the chains named. *)
Definition soleTouch (s : BaseVAlloc) (p size : Z) (c : PClass) (k : Z) : Prop :=
  ∀ c', ∃ L', chain (plist c' s) (PageInfo.lockedIndex (plist c' s)) L' ∧
              ∀ x g, x ∈ L' → page c' x s = Some g → touchesRange g p size = true →
                     c' = c ∧ x = k.

(** The index of a class in the array [plist] of the source. *)
Definition pindex (c : PClass) : Z :=
  match c with Small => 0 | Medium => 1 | Big => 2 end.

(** A page keeps its size, and its start unless it has been unmapped. *)
Definition windowKept (g g' : LockPage.t) : Prop :=
  LockPage.size g' = LockPage.size g ∧
  (LockPage.start g' = LockPage.start g ∨ LockPage.start g' = 0).

(** [P] holds of every page of the free chain of big pages. *)
Definition bigFreePagesb (P : LockPage.t → bool) (s : BaseVAlloc) : bool :=
  match freeChain (bigPages s) with
  | Some F => forallb (λ k, match page Big k s with
                            | Some g => P g
                            | None => false
                            end) F
  | None => false
  end.

(** [poolOnly s s']: the store and the log of driver calls are the same, and
    every page of [s] is in [s'] with at most its buffer changed. *)
Definition poolOnly (s s' : BaseVAlloc) : Prop :=
  store s' = store s ∧ iolog s' = iolog s ∧
  ∀ c k g, page c k s = Some g → ∃ pool, page c k s' = Some (LockPage.set_pool pool g).

(** * Properties *)

Global Instance PClass_eq_dec : EqDecision PClass.
Proof. solve_decision. Defined.

Lemma PClass_eqb_eq a b : PClass_eqb a b = true ↔ a = b.
Proof. destruct a, b; simpl; split; congruence. Qed.

Lemma PClass_eqb_neq a b : PClass_eqb a b = false ↔ a ≠ b.
Proof. destruct a, b; simpl; split; congruence. Qed.

(** Turn the boolean tests of the model into propositions. *)
Ltac zbool :=
  repeat match goal with
  | H : (_ && _) = true |- _ => apply andb_true_iff in H; destruct H
  | H : (_ || _) = false |- _ => apply orb_false_iff in H; destruct H
  | H : negb _ = true |- _ => apply negb_true_iff in H
  | H : negb _ = false |- _ => apply negb_false_iff in H
  | H : (_ =? _) = true |- _ => apply Z.eqb_eq in H
  | H : (_ =? _) = false |- _ => apply Z.eqb_neq in H
  | H : (_ <? _) = true |- _ => apply Z.ltb_lt in H
  | H : (_ <? _) = false |- _ => apply Z.ltb_ge in H
  | H : (_ <=? _) = true |- _ => apply Z.leb_le in H
  | H : (_ <=? _) = false |- _ => apply Z.leb_gt in H
  | H : PClass_eqb _ _ = true |- _ => apply PClass_eqb_eq in H
  | H : PClass_eqb _ _ = false |- _ => apply PClass_eqb_neq in H
  end.

(** Split a hypothesis [x ← m; k = Some r] into its steps. *)
Tactic Notation "bind_inv" hyp(H) "as" ident(E) :=
  match type of H with
  | (mbind _ ?m) = Some _ =>
      destruct m as [?|] eqn:E; simpl in H; [|discriminate H]
  | (?m ≫= _) = Some _ =>
      destruct m as [?|] eqn:E; simpl in H; [|discriminate H]
  end.

Tactic Notation "bind_inv" hyp(H) :=
  let E := fresh "E" in bind_inv H as E.

Global Arguments getPage : simpl never.
Global Arguments page : simpl never.
Global Arguments set_page : simpl never.
Global Arguments modPage : simpl never.

Section Pages.

Lemma getPage_Some q i g :
  getPage q i = Some g → 0 ≤ i ∧ PageInfo.pages q !! Z.to_nat i = Some g.
Proof.
  unfold getPage. destruct (0 <=? i) eqn:E; [|discriminate].
  zbool. auto.
Qed.

Lemma getPage_range q i g :
  getPage q i = Some g → 0 ≤ i < Z.of_nat (length (PageInfo.pages q)).
Proof.
  intros H. apply getPage_Some in H as [H0 H].
  apply lookup_lt_Some in H. lia.
Qed.

Lemma getPage_not_end q g : getPage q (-1) = Some g → False.
Proof. intros H. apply getPage_range in H. lia. Qed.

Lemma plist_set_plist c v s : plist c (set_plist c v s) = v.
Proof. by destruct c. Qed.

Lemma plist_set_plist_ne c c' v s : c ≠ c' → plist c' (set_plist c v s) = plist c' s.
Proof. by destruct c, c'. Qed.

Lemma page_set_page_eq c i g g0 s :
  page c i s = Some g0 → page c i (set_page c i g s) = Some g.
Proof.
  unfold page, set_page. rewrite plist_set_plist. intros H.
  apply getPage_Some in H as [H0 H].
  unfold getPage. simpl. rewrite (proj2 (Z.leb_le _ _) H0).
  apply list_lookup_insert_eq. by eapply lookup_lt_Some.
Qed.

Lemma page_set_page_ne c i g s c' k :
  0 ≤ i → (c ≠ c' ∨ i ≠ k) → page c' k (set_page c i g s) = page c' k s.
Proof.
  intros Hi Hne. unfold page, set_page.
  destruct (decide (c = c')) as [->|Hc].
  - rewrite plist_set_plist. unfold getPage. simpl.
    destruct (0 <=? k) eqn:E; [|done]. zbool.
    apply list_lookup_insert_ne. destruct Hne; [done|]. lia.
  - by rewrite plist_set_plist_ne.
Qed.

(** A page after [set_page], by cases. *)
Lemma page_set_page c i g g0 s c' k :
  page c i s = Some g0 →
  page c' k (set_page c i g s) =
    if decide (c = c' ∧ i = k) then Some g else page c' k s.
Proof.
  intros H. case_decide as Hd.
  - destruct Hd as [<- <-]. by eapply page_set_page_eq.
  - apply page_set_page_ne.
    + apply getPage_range in H. lia.
    + destruct (decide (c = c')) as [->|]; [right|by left].
      intros ->. by apply Hd.
Qed.

Lemma modPage_Some c i f s s' :
  modPage c i f s = Some s' →
  ∃ g, page c i s = Some g ∧ s' = set_page c i (f g) s.
Proof.
  unfold modPage. intros H. bind_inv H. injection H as <-. eauto.
Qed.

(** The fields of the allocator and of a class that [set_page] keeps. *)
Lemma set_page_fields c i g s :
  nextPageToSwap (set_page c i g s) = nextPageToSwap s ∧
  baseFreeList (set_page c i g s) = baseFreeList s ∧
  freePointer (set_page c i g s) = freePointer s ∧
  poolFreePos (set_page c i g s) = poolFreePos s ∧
  poolSize (set_page c i g s) = poolSize s ∧
  store (set_page c i g s) = store s ∧
  iolog (set_page c i g s) = iolog s.
Proof. by destruct c. Qed.

Lemma set_page_class c i g s c' :
  PageInfo.size (plist c' (set_page c i g s)) = PageInfo.size (plist c' s) ∧
  PageInfo.freeIndex (plist c' (set_page c i g s)) = PageInfo.freeIndex (plist c' s) ∧
  PageInfo.lockedIndex (plist c' (set_page c i g s)) = PageInfo.lockedIndex (plist c' s) ∧
  length (PageInfo.pages (plist c' (set_page c i g s))) = length (PageInfo.pages (plist c' s)).
Proof.
  destruct c, c'; simpl; repeat split; try done; apply length_insert.
Qed.

End Pages.

(** ** Chains *)

Section Chains.

Lemma chainList_chain fuel q i l : chainList fuel q i = Some l → chain q i l.
Proof.
  revert i l. induction fuel as [|fuel IH]; intros i l H; [discriminate|].
  simpl in H. destruct (i =? -1) eqn:E.
  - zbool. injection H as <-. subst. constructor.
  - bind_inv H. bind_inv H. injection H as <-.
    econstructor; eauto.
Qed.

Lemma chain_chainList q i l fuel :
  chain q i l → (length l < fuel)%nat → chainList fuel q i = Some l.
Proof.
  intros Hc. revert fuel. induction Hc as [|i g l Hg Hc IH]; intros fuel Hl.
  - destruct fuel; [simpl in Hl; lia|]. done.
  - destruct fuel; [simpl in Hl; lia|]. simpl in *.
    destruct (i =? -1) eqn:E.
    + zbool. subst. by apply getPage_not_end in Hg.
    + rewrite Hg. simpl. rewrite IH by lia. done.
Qed.

Lemma chain_det q i l l' : chain q i l → chain q i l' → l = l'.
Proof.
  intros Hc. revert l'. induction Hc as [|i g l Hg Hc IH]; intros l' Hc'.
  - inversion Hc' as [|? ? ? Hg' _]; [done|]. by apply getPage_not_end in Hg'.
  - inversion Hc' as [Hi|? g' l'' Hg' Hc'']; subst.
    + by apply getPage_not_end in Hg.
    + rewrite Hg in Hg'. injection Hg' as <-. f_equal. by apply IH.
Qed.

Lemma chain_elem q i l k :
  chain q i l → k ∈ l → ∃ g l', getPage q k = Some g ∧ chain q k (k :: l') ∧
                                 (length l' < length l)%nat ∧ l' `suffix_of` l.
Proof.
  intros Hc. induction Hc as [|i g l Hg Hc IH]; intros Hk.
  - by apply elem_of_nil in Hk.
  - apply elem_of_cons in Hk as [->|Hk].
    + exists g, l. split; [done|]. split; [eapply chain_cons; eauto|]. simpl. split; [lia|].
      by apply suffix_cons_r.
    + destruct (IH Hk) as (g' & l' & ? & ? & ? & ?). exists g', l'.
      split; [done|]. split; [done|]. simpl. split; [lia|]. by apply suffix_cons_r.
Qed.

Lemma chain_NoDup q i l : chain q i l → NoDup l.
Proof.
  intros Hc. induction Hc as [|i g l Hg Hc IH]; [constructor|].
  constructor; [|done]. intros Hin.
  destruct (chain_elem _ _ _ _ Hc Hin) as (g' & l' & Hg' & Hc' & Hlen & _).
  assert (i :: l = i :: l') as Heq.
  { eapply chain_det; [|exact Hc']. eapply chain_cons; [exact Hg|exact Hc]. }
  injection Heq as ->. lia.
Qed.

Lemma chain_range q i l k :
  chain q i l → k ∈ l → 0 ≤ k < Z.of_nat (length (PageInfo.pages q)).
Proof.
  intros Hc Hk. destruct (chain_elem _ _ _ _ Hc Hk) as (g & _ & Hg & _).
  by eapply getPage_range.
Qed.

Lemma chain_length q i l : chain q i l → (length l ≤ length (PageInfo.pages q))%nat.
Proof.
  intros Hc.
  assert (Z.to_nat <$> l ⊆+ seq 0 (length (PageInfo.pages q))) as Hsub.
  { apply NoDup_submseteq.
    - apply NoDup_fmap_2_strong; [|by eapply chain_NoDup].
      intros x y Hx Hy Heq.
      pose proof (chain_range _ _ _ _ Hc Hx). pose proof (chain_range _ _ _ _ Hc Hy). lia.
    - intros x Hx. apply list_elem_of_fmap in Hx as (y & -> & Hy).
      pose proof (chain_range _ _ _ _ Hc Hy). apply elem_of_seq. lia. }
  apply submseteq_length in Hsub. rewrite length_fmap, length_seq in Hsub. done.
Qed.

Lemma chain_fuel q i l : chain q i l → (length l < chainFuel q)%nat.
Proof. intros Hc. apply chain_length in Hc. unfold chainFuel. lia. Qed.

Lemma freeChain_chain q F : freeChain q = Some F → chain q (PageInfo.freeIndex q) F.
Proof. apply chainList_chain. Qed.

Lemma lockedChain_chain q L : lockedChain q = Some L → chain q (PageInfo.lockedIndex q) L.
Proof. apply chainList_chain. Qed.

Lemma chain_freeChain q F : chain q (PageInfo.freeIndex q) F → freeChain q = Some F.
Proof. intros Hc. apply chain_chainList; [done|]. by eapply chain_fuel. Qed.

Lemma chain_lockedChain q L : chain q (PageInfo.lockedIndex q) L → lockedChain q = Some L.
Proof. intros Hc. apply chain_chainList; [done|]. by eapply chain_fuel. Qed.

(** A chain only depends on the [next] fields of its own pages. *)
Lemma chain_ext q q' i l :
  chain q i l →
  (∀ k g, k ∈ l → getPage q k = Some g →
          ∃ g', getPage q' k = Some g' ∧ LockPage.next g' = LockPage.next g) →
  chain q' i l.
Proof.
  intros Hc. induction Hc as [|i g l Hg Hc IH]; intros Hext; [constructor|].
  destruct (Hext i g) as (g' & Hg' & Hn); [by left|done|].
  econstructor; [done|]. rewrite Hn. apply IH.
  intros k gk Hk Hgk. apply Hext; [by right|done].
Qed.

Lemma chain_cons_inv q h x l :
  chain q h (x :: l) → h = x ∧ ∃ g, getPage q x = Some g ∧ chain q (LockPage.next g) l.
Proof. inversion 1; subst. eauto. Qed.

Lemma chain_same_pages q q' i l :
  PageInfo.pages q' = PageInfo.pages q → chain q i l → chain q' i l.
Proof.
  intros Hp Hc. eapply chain_ext; [done|]. intros k g _ Hg.
  exists g. split; [|done]. unfold getPage in *. by rewrite Hp.
Qed.

Lemma findFreePage_loop_chain q i l fuel p size a :
  chain q i l → (length l < fuel)%nat →
  ∃ r, findFreePage_loop fuel q i p size a = Some r ∧
       ((r = -1 ∧ ∀ k g, k ∈ l → getPage q k = Some g → fitsFree g p size a = false) ∨
        (r ∈ l ∧ ∃ g, getPage q r = Some g ∧ fitsFree g p size a = true)).
Proof.
  intros Hc. revert fuel. induction Hc as [|i g l Hg Hc IH]; intros fuel Hl.
  - destruct fuel; [simpl in Hl; lia|]. exists (-1). split; [done|]. left.
    split; [done|]. intros k g Hk. by apply elem_of_nil in Hk.
  - destruct fuel; [simpl in Hl; lia|]. simpl in *.
    destruct (i =? -1) eqn:E.
    { zbool. subst. by apply getPage_not_end in Hg. }
    rewrite Hg. simpl. destruct (fitsFree g p size a) eqn:Hfit.
    + exists i. split; [done|]. right. split; [by left|]. eauto.
    + destruct (IH fuel) as (r & Hr & Hcase); [lia|]. exists r. split; [done|].
      destruct Hcase as [[-> Hno]|[Hin Hfits]].
      * left. split; [done|]. intros k gk Hk Hgk.
        apply elem_of_cons in Hk as [->|Hk]; [congruence|eauto].
      * right. split; [by right|done].
Qed.

Lemma findFreePage_chain q F p size a :
  chain q (PageInfo.freeIndex q) F →
  ∃ r, findFreePage q p size a = Some r ∧
       ((r = -1 ∧ ∀ k g, k ∈ F → getPage q k = Some g → fitsFree g p size a = false) ∨
        (r ∈ F ∧ ∃ g, getPage q r = Some g ∧ fitsFree g p size a = true)).
Proof.
  intros Hc. apply findFreePage_loop_chain; [done|]. by eapply chain_fuel.
Qed.

End Chains.

(** ** The effect of the primitive steps *)

Section Prims.

Lemma plist_set_iolog c v s : plist c (set_iolog v s) = plist c s.
Proof. by destruct c. Qed.
Lemma plist_set_store c v s : plist c (set_store v s) = plist c s.
Proof. by destruct c. Qed.
Lemma plist_set_nextPageToSwap c v s : plist c (set_nextPageToSwap v s) = plist c s.
Proof. by destruct c. Qed.
Lemma plist_set_freePointer c v s : plist c (set_freePointer v s) = plist c s.
Proof. by destruct c. Qed.
Lemma plist_set_baseFreeList c v s : plist c (set_baseFreeList v s) = plist c s.
Proof. by destruct c. Qed.
Lemma plist_set_poolFreePos c v s : plist c (set_poolFreePos v s) = plist c s.
Proof. by destruct c. Qed.

Lemma page_set_iolog c k v s : page c k (set_iolog v s) = page c k s.
Proof. unfold page. by rewrite plist_set_iolog. Qed.
Lemma page_set_store c k v s : page c k (set_store v s) = page c k s.
Proof. unfold page. by rewrite plist_set_store. Qed.
Lemma page_set_nextPageToSwap c k v s : page c k (set_nextPageToSwap v s) = page c k s.
Proof. unfold page. by rewrite plist_set_nextPageToSwap. Qed.
Lemma page_set_freePointer c k v s : page c k (set_freePointer v s) = page c k s.
Proof. unfold page. by rewrite plist_set_freePointer. Qed.
Lemma page_set_baseFreeList c k v s : page c k (set_baseFreeList v s) = page c k s.
Proof. unfold page. by rewrite plist_set_baseFreeList. Qed.
Lemma page_set_poolFreePos c k v s : page c k (set_poolFreePos v s) = page c k s.
Proof. unfold page. by rewrite plist_set_poolFreePos. Qed.

(** Changing the chain heads of a class leaves its pages alone. *)
Lemma page_set_heads c c' k s fi li :
  page c' k (set_plist c (PageInfo.mk (PageInfo.pages (plist c s)) (PageInfo.size (plist c s)) fi li) s)
  = page c' k s.
Proof. unfold page. by destruct c, c'. Qed.

Lemma poke_Some s a d s' :
  poke s a d = Some s' →
  ∃ c i off g l, a = PoolPtr c i off ∧ page c i s = Some g ∧
                 blit (LockPage.pool g) off d = Some l ∧
                 s' = set_page c i (LockPage.set_pool l g) s.
Proof.
  destruct a as [|c i off|]; simpl; try discriminate.
  intros H. bind_inv H. bind_inv H. injection H as <-.
  by exists c, i, off, t, l.
Qed.

Lemma memcpy_Some s dest src n s' :
  memcpy s dest src n = Some s' →
  ∃ c i off g l d, dest = PoolPtr c i off ∧ page c i s = Some g ∧
                   peek s src n = Some d ∧ blit (LockPage.pool g) off d = Some l ∧
                   s' = set_page c i (LockPage.set_pool l g) s.
Proof.
  unfold memcpy. intros H. bind_inv H.
  apply poke_Some in H as (c & i & off & g & l0 & -> & Hg & Hb & ->).
  by exists c, i, off, g, l0, l.
Qed.

Lemma slice_Some l off n d : slice l off n = Some d → 0 ≤ off ∧ 0 ≤ n.
Proof.
  unfold slice. destruct (_ && _) eqn:E; [|discriminate]. zbool. auto.
Qed.

Lemma doRead_Some s dest a n s' :
  doRead s dest a n = Some s' →
  ∃ c i off g l, dest = PoolPtr c i off ∧ page c i s = Some g ∧ 0 ≤ a ∧ 0 ≤ n ∧
                 s' = set_page c i (LockPage.set_pool l g)
                               (set_iolog (IORead a n :: iolog s) s).
Proof.
  unfold doRead. intros H. bind_inv H.
  apply slice_Some in E as [? ?].
  apply poke_Some in H as (c & i & off & g & l0 & -> & Hg & Hb & ->).
  rewrite page_set_iolog in Hg. by exists c, i, off, g, l0.
Qed.

Lemma doWrite_Some s src a n s' :
  doWrite s src a n = Some s' →
  ∃ st, s' = set_iolog (IOWrite a n :: iolog s) (set_store st s).
Proof.
  unfold doWrite. intros H. bind_inv H. bind_inv H. injection H as <-. eauto.
Qed.

Lemma syncBigPage_Some s i s' :
  syncBigPage s i = Some s' →
  ∃ g, page Big i s = Some g ∧
       ((LockPage.dirty g = false ∧ s' = s) ∨
        (LockPage.dirty g = true ∧ ∃ st n,
           s' = set_page Big i (LockPage.set_cleanSkips 0 (LockPage.set_dirty false g))
                  (set_iolog (IOWrite (LockPage.start g) n :: iolog s) (set_store st s)))).
Proof.
  unfold syncBigPage. intros H. bind_inv H. rename t into g. exists g. split; [done|].
  destruct (LockPage.dirty g) eqn:Hd.
  - right. split; [done|]. bind_inv H.
    apply doWrite_Some in E0 as (st & ->).
    apply modPage_Some in H as (g' & Hg' & ->).
    rewrite page_set_iolog, page_set_store in Hg'.
    rewrite E in Hg'. injection Hg' as <-. eauto.
  - left. split; [done|]. congruence.
Qed.

End Prims.

(** ** Steps that keep the chains *)

Section Links.

Lemma links_refl s : links s s.
Proof. by repeat split. Qed.

Lemma links_trans s1 s2 s3 : links s1 s2 → links s2 s3 → links s1 s3.
Proof.
  intros (Hc1 & Hn1 & Hp1) (Hc2 & Hn2 & Hp2). split; [|split].
  - intros c. destruct (Hc1 c) as (? & ? & ?), (Hc2 c) as (? & ? & ?).
    repeat split; congruence.
  - intros c k. by rewrite Hn2, Hn1.
  - congruence.
Qed.

Lemma links_set_page c i g g' s :
  page c i s = Some g → LockPage.next g' = LockPage.next g →
  links s (set_page c i g' s).
Proof.
  intros Hg Hn. split; [|split].
  - intros c'. destruct (set_page_class c i g' s c') as (? & ? & ? & _). done.
  - intros c' k. rewrite (page_set_page _ _ _ _ _ _ _ Hg).
    case_decide as Hd; [|done]. destruct Hd as [<- <-]. rewrite Hg. simpl. by rewrite Hn.
  - apply set_page_fields.
Qed.

Lemma links_set_iolog v s : links s (set_iolog v s).
Proof.
  split; [|split]; [intros c; by rewrite plist_set_iolog| |done].
  intros c k. by rewrite page_set_iolog.
Qed.

Lemma links_set_store v s : links s (set_store v s).
Proof.
  split; [|split]; [intros c; by rewrite plist_set_store| |done].
  intros c k. by rewrite page_set_store.
Qed.

Lemma links_set_nextPageToSwap v s : links s (set_nextPageToSwap v s).
Proof.
  split; [|split]; [intros c; by rewrite plist_set_nextPageToSwap| |done].
  intros c k. by rewrite page_set_nextPageToSwap.
Qed.

Lemma links_page c k s s' g :
  links s s' → page c k s = Some g →
  ∃ g', page c k s' = Some g' ∧ LockPage.next g' = LockPage.next g.
Proof.
  intros (_ & Hn & _) Hg. specialize (Hn c k). rewrite Hg in Hn. simpl in Hn.
  destruct (page c k s') as [g'|]; [|discriminate]. injection Hn as Hn. eauto.
Qed.

Lemma links_sym s s' : links s s' → links s' s.
Proof.
  intros (Hc & Hn & Hp). split; [|split]; [|by intros c k; rewrite Hn|done].
  intros c. destruct (Hc c) as (? & ? & ?). by repeat split.
Qed.

Lemma chain_links c s s' i l :
  links s s' → chain (plist c s) i l → chain (plist c s') i l.
Proof.
  intros Hl Hc. eapply chain_ext; [done|].
  intros k g _ Hg. by eapply (links_page c k s s').
Qed.

Lemma doWrite_links s src a n s' : doWrite s src a n = Some s' → links s s'.
Proof.
  intros H. apply doWrite_Some in H as (st & ->).
  eapply links_trans; [apply links_set_store|apply links_set_iolog].
Qed.

Lemma poke_links s a d s' : poke s a d = Some s' → links s s'.
Proof.
  intros H. apply poke_Some in H as (c & i & off & g & l & -> & Hg & _ & ->).
  by eapply links_set_page.
Qed.

Lemma memcpy_links s dest src n s' : memcpy s dest src n = Some s' → links s s'.
Proof. unfold memcpy. intros H. bind_inv H. by eapply poke_links. Qed.

Lemma doRead_links s dest a n s' : doRead s dest a n = Some s' → links s s'.
Proof.
  unfold doRead. intros H. bind_inv H.
  eapply links_trans; [apply links_set_iolog|by eapply poke_links].
Qed.

Lemma modPage_links c i f s s' :
  (∀ g, LockPage.next (f g) = LockPage.next g) →
  modPage c i f s = Some s' → links s s'.
Proof.
  intros Hf H. apply modPage_Some in H as (g & Hg & ->). by eapply links_set_page.
Qed.

Lemma syncBigPage_links s i s' : syncBigPage s i = Some s' → links s s'.
Proof.
  intros H. apply syncBigPage_Some in H as (g & Hg & [[_ ->]|[_ (st & n & ->)]]).
  - apply links_refl.
  - eapply links_trans; [apply links_set_store|].
    eapply links_trans; [apply links_set_iolog|].
    eapply links_set_page; [by rewrite page_set_iolog, page_set_store|done].
Qed.

(** After [syncBigPage] the page is clean; its mapping is as before. *)
Lemma syncBigPage_clean s i s' :
  syncBigPage s i = Some s' →
  ∃ g g', page Big i s = Some g ∧ page Big i s' = Some g' ∧
          LockPage.dirty g' = false ∧ LockPage.start g' = LockPage.start g.
Proof.
  intros H. apply syncBigPage_Some in H as (g & Hg & [[Hd ->]|[_ (st & n & ->)]]).
  - by exists g, g.
  - exists g, (LockPage.set_cleanSkips 0 (LockPage.set_dirty false g)).
    split; [done|]. split; [|done].
    eapply page_set_page_eq. by rewrite page_set_iolog, page_set_store.
Qed.

End Links.

(** The victim scan never ends in [STATE_GOTFULL]. *)
Lemma scanOverlap_not_full s p i pi st pi' st' s' :
  scanOverlap s p i pi st = Some (pi', st', s') →
  stateEqb st STATE_GOTFULL = false → stateEqb st' STATE_GOTFULL = false.
Proof.
  intros H Hst. unfold scanOverlap in H. bind_inv H.
  destruct (negb _).
  - destruct (overlapsNew _ _ _).
    + bind_inv H. bind_inv H. by injection H as <- <- <-.
    + by injection H as <- <- <-.
  - destruct (negb _); by injection H as <- <- <-.
Qed.

Lemma scanAge_not_full cfg s i pi st pi' st' s' :
  scanAge cfg s i pi st = Some (pi', st', s') →
  stateEqb st STATE_GOTFULL = false → stateEqb st' STATE_GOTFULL = false.
Proof.
  intros H Hst. unfold scanAge in H. destruct (_ <? _).
  - bind_inv H. destruct (negb _); [by injection H as <- <- <-|].
    destruct (_ <=? _); [by injection H as <- <- <-|].
    destruct (_ && _); by injection H as <- <- <-.
  - by injection H as <- <- <-.
Qed.

Lemma pullScan_not_full_gen cfg fuel s p i pi st pi' st' s' :
  pullScan cfg fuel s p i pi st = Some (pi', st', s') →
  stateEqb st STATE_GOTFULL = false → stateEqb st' STATE_GOTFULL = false.
Proof.
  revert s i pi st. induction fuel as [|fuel IH]; intros s i pi st H Hst; [discriminate|].
  simpl in H. destruct (i =? -1); [by injection H as <- <- <-|].
  bind_inv H. destruct p0 as [[pi1 st1] s1]. simpl in H.
  bind_inv H. destruct p0 as [[pi2 st2] s2]. simpl in H.
  bind_inv H. eapply IH; [done|].
  eapply scanAge_not_full; [done|]. by eapply scanOverlap_not_full.
Qed.

Lemma pullScan_not_full cfg fuel s p i pi pi' st' s' :
  pullScan cfg fuel s p i pi STATE_GOTNONE = Some (pi', st', s') →
  stateEqb st' STATE_GOTFULL = false.
Proof. intros H. by eapply pullScan_not_full_gen. Qed.

(** ** Closure of the page swap under a relation on allocator states

    [T] is any preorder on states that contains the elementary updates the
    swap makes on pages of the big free chain [F].  Then it contains
    [pullRawData]. *)

Section PullClosure.
Context (cfg : Config) (T : BaseVAlloc → BaseVAlloc → Prop) (F : list Z).
Hypothesis T_refl : ∀ s, T s s.
Hypothesis T_trans : ∀ s1 s2 s3, T s1 s2 → T s2 s3 → T s1 s3.
Hypothesis T_sync : ∀ s i s', i ∈ F → syncBigPage s i = Some s' → T s s'.
Hypothesis T_invalidate : ∀ s i g,
  i ∈ F → page Big i s = Some g → LockPage.dirty g = false →
  T s (set_page Big i (LockPage.set_start 0 g) s).
Hypothesis T_skips : ∀ s i g,
  i ∈ F → page Big i s = Some g → LockPage.dirty g = true →
  T s (set_page Big i (LockPage.set_cleanSkips (LockPage.cleanSkips g + 1) g) s).
Hypothesis T_hint : ∀ s v, T s (set_nextPageToSwap v s).
Hypothesis T_remap : ∀ s j g p n s',
  j ∈ F → page Big j s = Some g →
  (LockPage.start g = 0 ∨ LockPage.dirty g = false) →
  doRead (set_page Big j (LockPage.set_start p g) s) (PoolPtr Big j 0) p n = Some s' →
  T s s'.

Lemma scanOverlap_closure s p i pi st pi' st' s' :
  i ∈ F → scanOverlap s p i pi st = Some (pi', st', s') →
  T s s' ∧ links s s' ∧ (pi' = pi ∨ pi' = i).
Proof.
  intros Hi H. unfold scanOverlap in H. bind_inv H. rename t into g.
  destruct (negb (LockPage.start g =? 0)) eqn:Hs.
  - destruct (overlapsNew s g p) eqn:Ho.
    + bind_inv H. rename b into s1. bind_inv H. injection H as <- <- <-.
      pose proof (syncBigPage_clean _ _ _ E0) as (g0 & g1 & Hg0 & Hg1 & Hd & _).
      apply modPage_Some in E1 as (g1' & Hg1' & ->).
      rewrite Hg1 in Hg1'. injection Hg1' as <-.
      split; [|split; [|by right]].
      * eapply T_trans; [by eapply T_sync|]. by apply T_invalidate.
      * eapply links_trans; [by eapply syncBigPage_links|]. by eapply links_set_page.
    + injection H as <- <- <-. split; [done|]. split; [apply links_refl|by left].
  - destruct (negb (stateEqb st STATE_GOTPARTIAL)); injection H as <- <- <-;
      (split; [done|]; split; [apply links_refl|auto]).
Qed.

Lemma scanAge_closure s i pi st pi' st' s' :
  i ∈ F → scanAge cfg s i pi st = Some (pi', st', s') →
  T s s' ∧ links s s' ∧ (pi' = pi ∨ pi' = i).
Proof.
  intros Hi H. unfold scanAge in H.
  destruct (stateRank STATE_GOTCLEAN <? stateRank st).
  - bind_inv H. rename t into g. destruct (negb (LockPage.dirty g)) eqn:Hd.
    + injection H as <- <- <-. split; [done|]. split; [apply links_refl|by right].
    + zbool.
      assert (T s (set_page Big i (LockPage.set_cleanSkips (LockPage.cleanSkips g + 1) g) s)
              ∧ links s (set_page Big i (LockPage.set_cleanSkips (LockPage.cleanSkips g + 1) g) s))
        as [HT HL].
      { split; [by apply T_skips|by eapply links_set_page]. }
      destruct (PAGE_MAX_CLEAN_SKIPS cfg <=? LockPage.cleanSkips g + 1).
      { injection H as <- <- <-. auto. }
      destruct (_ && _); injection H as <- <- <-; auto.
  - injection H as <- <- <-. split; [done|]. split; [apply links_refl|by left].
Qed.

Lemma pullScan_closure fuel s p i pi st pi' st' s' l :
  (∀ k, k ∈ l → k ∈ F) → chain (bigPages s) i l →
  pullScan cfg fuel s p i pi st = Some (pi', st', s') →
  T s s' ∧ links s s' ∧ (pi' = pi ∨ pi' ∈ l).
Proof.
  revert s i pi st l. induction fuel as [|fuel IH]; intros s i pi st l HF Hc H;
    [discriminate|].
  simpl in H. destruct (i =? -1) eqn:E.
  { injection H as <- <- <-. split; [done|]. split; [apply links_refl|by left]. }
  zbool. inversion Hc as [|? g0 l0 Hg0 Hc0]; subst; [done|].
  assert (i ∈ F) as Hi by (apply HF; by left).
  bind_inv H. destruct p0 as [[pi1 st1] s1]. simpl in H.
  bind_inv H. destruct p0 as [[pi2 st2] s2]. simpl in H.
  bind_inv H. rename t into g2.
  apply scanOverlap_closure in E0 as (HT1 & HL1 & Hp1); [|done].
  apply scanAge_closure in E1 as (HT2 & HL2 & Hp2); [|done].
  pose proof (links_trans _ _ _ HL1 HL2) as HL.
  destruct (links_page Big i s s2 g0 HL Hg0) as (g2' & Hg2' & Hn).
  rewrite E2 in Hg2'. injection Hg2' as <-.
  apply (IH s2 _ _ _ l0) in H as (HT3 & HL3 & Hp3).
  - split; [eauto|]. split; [by eapply links_trans|].
    destruct Hp3 as [-> | ?]; [|by right; right].
    destruct Hp2 as [-> | ->]; [|by right; left].
    destruct Hp1 as [-> | ->]; [by left|by right; left].
  - intros k Hk. apply HF. by right.
  - rewrite Hn. by apply (chain_links Big s s2).
Qed.

Lemma swapIn_closure s p j st s' :
  j ∈ F → swapIn s p j st = Some s' →
  T s s' ∧ links s s' ∧
  ∃ g', page Big j s' = Some g' ∧ LockPage.start g' = p ∧ 0 ≤ p.
Proof.
  intros Hj H. unfold swapIn in H. bind_inv H. rename t into g.
  bind_inv H. rename b into s1. bind_inv H. rename b into s2.
  bind_inv H. rename b into s3.
  assert (T s s1 ∧ links s s1 ∧
          ∃ g1, page Big j s1 = Some g1 ∧
                (LockPage.start g1 = 0 ∨ LockPage.dirty g1 = false)) as (HT1 & HL1 & g1 & Hg1 & Hcl).
  { destruct (negb (LockPage.start g =? 0)) eqn:Hs.
    - pose proof (syncBigPage_clean _ _ _ E0) as (g0 & g1 & Hg0 & Hg1 & Hd & _).
      split; [by eapply T_sync|]. split; [by eapply syncBigPage_links|]. eauto.
    - injection E0 as <-. zbool. split; [done|]. split; [apply links_refl|]. eauto. }
  assert (∃ v, s2 = set_nextPageToSwap v s1) as (v & ->).
  { destruct (stateEqb st STATE_GOTDIRTY).
    - bind_inv E1. injection E1 as <-. eauto.
    - injection E1 as <-. eauto. }
  apply modPage_Some in E2 as (g2 & Hg2 & ->).
  rewrite page_set_nextPageToSwap in Hg2. rewrite Hg1 in Hg2. injection Hg2 as <-.
  pose proof (doRead_Some _ _ _ _ _ H) as (c & i & off & g3 & l & Heq & Hg3 & Hp & _ & Hs').
  injection Heq as <- <- <-.
  split; [|split].
  - eapply T_trans; [exact HT1|]. eapply T_trans; [apply T_hint|].
    eapply T_remap; [done| |done|done]. by rewrite page_set_nextPageToSwap.
  - eapply links_trans; [exact HL1|]. eapply links_trans; [apply links_set_nextPageToSwap|].
    eapply links_trans; [|by eapply doRead_links].
    eapply links_set_page; [by rewrite page_set_nextPageToSwap|done].
  - erewrite page_set_page_eq in Hg3; [|by rewrite page_set_nextPageToSwap].
    injection Hg3 as <-. subst s'.
    exists (LockPage.set_pool l (LockPage.set_start p g1)). split; [|done].
    eapply page_set_page_eq. rewrite page_set_iolog.
    eapply page_set_page_eq. by rewrite page_set_nextPageToSwap.
Qed.

(** [pullRawData] up to the point where the dirty flag is set. *)
Lemma pullBody_closure s p size forcestart full pi st s1 s2 :
  chain (bigPages s) (PageInfo.freeIndex (bigPages s)) F →
  findFreePage (bigPages s) p size forcestart = Some full →
  (if negb (full =? -1) then Some (full, STATE_GOTFULL, s)
   else pullScan cfg (chainFuel (bigPages s)) s p
          (PageInfo.freeIndex (bigPages s)) (-1) STATE_GOTNONE) = Some (pi, st, s1) →
  (if negb (stateEqb st STATE_GOTFULL) then swapIn s1 p pi st else Some s1) = Some s2 →
  T s s2 ∧ links s s2 ∧ pi ∈ F ∧
  ∃ g, page Big pi s2 = Some g ∧
       (LockPage.start g = p ∧ 0 ≤ p ∨
        st = STATE_GOTFULL ∧ s2 = s ∧ fitsFree g p size forcestart = true).
Proof.
  intros Hc Hfind Hscan Hswap.
  destruct (findFreePage_chain _ _ p size forcestart Hc) as (r & Hr & Hcase).
  rewrite Hr in Hfind. injection Hfind as <-.
  destruct (negb (r =? -1)) eqn:Hfull.
  - injection Hscan as <- <- <-. simpl in Hswap. injection Hswap as <-.
    zbool. destruct Hcase as [[-> _]|[Hin (g & Hg & Hfit)]]; [done|].
    split; [done|]. split; [apply links_refl|]. split; [done|].
    exists g. split; [done|]. right. done.
  - pose proof (pullScan_not_full _ _ _ _ _ _ _ _ _ Hscan) as Hnf.
    rewrite Hnf in Hswap by done. simpl in Hswap.
    apply pullScan_closure with (l := F) in Hscan as (HT1 & HL1 & Hpi); [|done|done].
    assert (pi ∈ F) as Hin.
    { destruct Hpi as [-> | ?]; [|done]. unfold swapIn in Hswap. bind_inv Hswap.
      by apply getPage_not_end in E. }
    apply swapIn_closure in Hswap as (HT2 & HL2 & g' & Hg' & Hs & Hp); [|done].
    split; [eauto|]. split; [by eapply links_trans|]. split; [done|].
    exists g'. split; [done|]. left. done.
Qed.

End PullClosure.

(** ** Page-wise relations *)

Section Pagewise.
Context (R : LockPage.t → LockPage.t → Prop).
Hypothesis R_refl : ∀ g, R g g.

Lemma pagewise_refl s : pagewise R s s.
Proof. intros c k g Hg. eauto. Qed.

Lemma pagewise_trans s1 s2 s3 :
  (∀ g1 g2 g3, R g1 g2 → R g2 g3 → R g1 g3) →
  pagewise R s1 s2 → pagewise R s2 s3 → pagewise R s1 s3.
Proof.
  intros Htr H1 H2 c k g Hg.
  destruct (H1 c k g Hg) as (g' & Hg' & HR1).
  destruct (H2 c k g' Hg') as (g'' & Hg'' & HR2). eauto.
Qed.

Lemma pagewise_same s s' :
  (∀ c k, page c k s' = page c k s) → pagewise R s s'.
Proof. intros Hs c k g Hg. rewrite Hs. eauto. Qed.

Lemma pagewise_set_page c i g g' s :
  page c i s = Some g → R g g' → pagewise R s (set_page c i g' s).
Proof.
  intros Hg HR c' k gk Hgk. rewrite (page_set_page _ _ _ _ _ _ _ Hg).
  case_decide as Hd; [|eauto]. destruct Hd as [<- <-].
  rewrite Hg in Hgk. injection Hgk as <-. eauto.
Qed.



Lemma pagewise_set_nextPageToSwap v s : pagewise R s (set_nextPageToSwap v s).
Proof. apply pagewise_same. intros. apply page_set_nextPageToSwap. Qed.

End Pagewise.

(** ** Clean pages and the victim scan *)

Section CleanSkips.
Context (cfg : Config).





Lemma doRead_pagewise (R : LockPage.t → LockPage.t → Prop) s dest a n s' :
  (∀ g, R g g) → (∀ g l, R g (LockPage.set_pool l g)) →
  doRead s dest a n = Some s' → pagewise R s s'.
Proof.
  intros Hrefl Hpool H.
  apply doRead_Some in H as (c & i & off & g & l & -> & Hg & _ & _ & ->).
  intros c' k gk Hgk.
  erewrite page_set_page; [|by rewrite page_set_iolog].
  rewrite page_set_iolog. case_decide as Hd; [|eauto].
  destruct Hd as [<- <-]. rewrite Hg in Hgk. injection Hgk as <-. eauto.
Qed.


End CleanSkips.

(** ** Unlinking a page from a chain *)

Section Paths.

Lemma chain_path q i l : chain q i l → path q i l (-1).
Proof. induction 1; econstructor; eauto. Qed.

Lemma path_chain q i l1 m l2 : path q i l1 m → chain q m l2 → chain q i (l1 ++ l2).
Proof. induction 1; intros Hc; simpl; [done|]. econstructor; eauto. Qed.

Lemma chain_app_inv q i l1 l2 :
  chain q i (l1 ++ l2) → ∃ m, path q i l1 m ∧ chain q m l2.
Proof.
  revert i. induction l1 as [|x l1 IH]; intros i Hc; simpl in *.
  - exists i. split; [constructor|done].
  - inversion Hc as [|? g ? Hg Hc']; subst.
    destruct (IH _ Hc') as (m & Hp & Hm). exists m. split; [|done].
    econstructor; eauto.
Qed.

Lemma path_snoc_inv q i l x t :
  path q i (l ++ [x]) t → ∃ g, path q i l x ∧ getPage q x = Some g ∧ LockPage.next g = t.
Proof.
  revert i. induction l as [|y l IH]; intros i Hp; simpl in *.
  - inversion Hp as [|? g ? ? Hg Hp']; subst. inversion Hp'; subst.
    exists g. split; [constructor|done].
  - inversion Hp as [|? g ? ? Hg Hp']; subst.
    destruct (IH _ Hp') as (gx & Hpx & Hgx & Hn). exists gx.
    split; [|done]. econstructor; eauto.
Qed.

Lemma path_ext q q' i l t :
  path q i l t →
  (∀ k g, k ∈ l → getPage q k = Some g →
          ∃ g', getPage q' k = Some g' ∧ LockPage.next g' = LockPage.next g) →
  path q' i l t.
Proof.
  induction 1 as [|i g l t Hg Hp IH]; intros Hext; [constructor|].
  destruct (Hext i g) as (g' & Hg' & Hn); [by left|done|].
  econstructor; [done|]. rewrite Hn. apply IH.
  intros k gk Hk Hgk. apply Hext; [by right|done].
Qed.

(** The search for the predecessor finds the page before [x] on a path that
    does not visit [x] earlier. *)
Lemma findPrev_path q i l prev x fuel :
  path q i (l ++ [prev]) x → x ∉ l ++ [prev] → (length l < fuel)%nat →
  findPrev fuel q i x = Some prev.
Proof.
  revert i fuel. induction l as [|y l IH]; intros i fuel Hp Hx Hf; simpl in *.
  - destruct fuel; [lia|]. inversion Hp as [|? g ? ? Hg Hp']; subst.
    inversion Hp'; subst. simpl. rewrite Hg. simpl. by rewrite Z.eqb_refl.
  - destruct fuel; [lia|]. inversion Hp as [|? g ? ? Hg Hp']; subst.
    simpl. rewrite Hg. simpl.
    destruct (LockPage.next g =? x) eqn:E.
    + zbool. exfalso. apply Hx. right.
      destruct l; simpl in *; inversion Hp'; subst; by left.
    + apply IH; [done| |lia]. intros Hin. apply Hx. by right.
Qed.

End Paths.

Section Surgery.

(** The chains of a class after [freeLockedPage]: the page leaves the locked
    chain and becomes the head of the free chain. *)
Lemma unlink_chain q q1 L1 L2 Fr i g hl :
  chain q hl (L1 ++ i :: L2) → chain q (PageInfo.freeIndex q) Fr →
  (∀ x, x ∈ Fr → x ∉ L1 ++ i :: L2) →
  getPage q i = Some g →
  (if i =? hl
   then Some (PageInfo.set_lockedIndex (LockPage.next g) q)
   else prevind ← findPrev (chainFuel q) q hl i;
        gp ← getPage q prevind;
        Some (PageInfo.set_pages
                (<[Z.to_nat prevind := LockPage.set_next (LockPage.next g) gp]> (PageInfo.pages q))
                q)) = Some q1 →
  hl = PageInfo.lockedIndex q →
  chain q1 (PageInfo.lockedIndex q1) (L1 ++ L2) ∧
  chain q1 (PageInfo.freeIndex q1) Fr ∧
  PageInfo.freeIndex q1 = PageInfo.freeIndex q ∧
  PageInfo.size q1 = PageInfo.size q ∧
  length (PageInfo.pages q1) = length (PageInfo.pages q) ∧
  ∀ k, k ∉ L1 → getPage q1 k = getPage q k.
Proof.
  intros HL HF Hdisj Hg Hq1 ->.
  pose proof (chain_NoDup _ _ _ HL) as Hnd.
  apply NoDup_app in Hnd as (Hnd1 & Hnd12 & Hnd2).
  apply NoDup_cons in Hnd2 as (Hi2 & Hnd2).
  destruct (chain_app_inv _ _ _ _ HL) as (m & Hp & Hm).
  inversion Hm as [|? g' ? Hg' Hc2]; subst.
  rewrite Hg in Hg'. injection Hg' as <-.
  assert (i ∉ L1) as Hi1.
  { intros Hin. apply (Hnd12 i Hin). by left. }
  destruct (i =? PageInfo.lockedIndex q) eqn:E.
  - zbool. injection Hq1 as <-.
    assert (L1 = []) as ->.
    { destruct L1 as [|y L1]; [done|]. exfalso. apply Hi1.
      inversion Hp. apply elem_of_cons. left. congruence. }
    simpl. split; [by apply (chain_same_pages q)|]. split; [by apply (chain_same_pages q)|].
    repeat split; done.
  - zbool. bind_inv Hq1. rename z into prevind. bind_inv Hq1. rename t into gp.
    injection Hq1 as <-.
    destruct (decide (L1 = [])) as [->|Hne].
    { inversion Hp; subst. done. }
    destruct (exists_last Hne) as (L0 & prev & ->).
    destruct (path_snoc_inv _ _ _ _ _ Hp) as (gp' & Hp0 & Hgp' & Hnp).
    rewrite (findPrev_path _ _ L0 prev i) in E0; [| done | done |].
    2:{ pose proof (chain_fuel _ _ _ HL) as Hfl. rewrite !length_app in Hfl.
        simpl in Hfl. lia. }
    injection E0 as <-. rewrite Hgp' in E1. injection E1 as <-.
    set (q1 := PageInfo.set_pages _ q).
    assert (∀ k, k ≠ prev → getPage q1 k = getPage q k) as Hother.
    { intros k Hk. unfold getPage, q1. simpl.
      destruct (0 <=? k) eqn:Ek; [|done]. zbool.
      apply list_lookup_insert_ne. apply getPage_range in Hgp'. lia. }
    assert (getPage q1 prev = Some (LockPage.set_next (LockPage.next g) gp')) as Hprev.
    { pose proof (getPage_Some _ _ _ Hgp') as [H0 Hlk].
      unfold getPage, q1. simpl. rewrite (proj2 (Z.leb_le _ _) H0).
      apply list_lookup_insert_eq. by eapply lookup_lt_Some. }
    assert (prev ∉ L0) as Hp0'.
    { apply NoDup_app in Hnd1 as (_ & Hd & _). intros Hin. apply (Hd prev Hin). by left. }
    assert (prev ∉ L2) as Hp2.
    { intros Hin. apply (Hnd12 prev); [|by right].
      apply elem_of_app. right. by left. }
    split; [|split; [|split; [|split; [|split]]]]; try done.
    + rewrite <- app_assoc. simpl.
      eapply path_chain.
      * eapply path_ext; [exact Hp0|]. intros k gk Hk Hgk.
        exists gk. split; [|done]. rewrite Hother; [done|]. intros ->. done.
      * econstructor; [exact Hprev|]. simpl.
        eapply chain_ext; [exact Hc2|]. intros k gk Hk Hgk.
        exists gk. split; [|done]. rewrite Hother; [done|]. intros ->. done.
    + eapply chain_ext; [exact HF|]. intros k gk Hk Hgk.
      exists gk. split; [|done]. rewrite Hother; [done|]. intros ->.
      apply (Hdisj prev Hk). apply elem_of_app. left. apply elem_of_app. right. by left.
    + unfold q1. simpl. apply length_insert.
    + intros k Hk. apply Hother. intros ->. apply Hk.
      apply elem_of_app. right. by left.
Qed.

End Surgery.

(** ** Steps that only touch buffers, dirty flags, the store and the log *)

Section SoftEq.

Lemma softEq_refl s : softEq s s.
Proof. by repeat split. Qed.

Lemma softEq_trans s1 s2 s3 : softEq s1 s2 → softEq s2 s3 → softEq s1 s3.
Proof.
  intros (Hc1 & Hm1 & ? & ? & ? & ? & ?) (Hc2 & Hm2 & ? & ? & ? & ? & ?).
  split; [|split; [|repeat split; congruence]].
  - intros c. destruct (Hc1 c) as (? & ? & ?), (Hc2 c) as (? & ? & ?).
    repeat split; congruence.
  - intros c k. by rewrite Hm2, Hm1.
Qed.

Lemma softEq_set_page c i g g' s :
  page c i s = Some g → meta g' = meta g → softEq s (set_page c i g' s).
Proof.
  intros Hg Hm. split; [|split].
  - intros c'. destruct (set_page_class c i g' s c') as (? & ? & ? & _). done.
  - intros c' k. rewrite (page_set_page _ _ _ _ _ _ _ Hg).
    case_decide as Hd; [|done]. destruct Hd as [<- <-]. rewrite Hg. simpl. by rewrite Hm.
  - destruct (set_page_fields c i g' s) as (? & ? & ? & ? & ? & _). done.
Qed.

Lemma softEq_set_iolog v s : softEq s (set_iolog v s).
Proof.
  split; [|split]; [intros c; by rewrite plist_set_iolog| |done].
  intros c k. by rewrite page_set_iolog.
Qed.

Lemma softEq_set_store v s : softEq s (set_store v s).
Proof.
  split; [|split]; [intros c; by rewrite plist_set_store| |done].
  intros c k. by rewrite page_set_store.
Qed.

Lemma softEq_links s s' : softEq s s' → links s s'.
Proof.
  intros (Hc & Hm & _ & _ & _ & _ & Hp). split; [done|]. split; [|done].
  intros c k. specialize (Hm c k).
  destruct (page c k s') as [g'|], (page c k s) as [g|]; simpl in *; try done.
  unfold meta in Hm. injection Hm as _ _ _ _ ->. done.
Qed.

Lemma softEq_page c k s s' g :
  softEq s s' → page c k s = Some g →
  ∃ g', page c k s' = Some g' ∧ meta g' = meta g.
Proof.
  intros (_ & Hm & _) Hg. specialize (Hm c k). rewrite Hg in Hm. simpl in Hm.
  destruct (page c k s') as [g'|]; [|discriminate]. injection Hm as Hm.
  exists g'. split; [done|]. unfold meta. congruence.
Qed.

Lemma softEq_sym s s' : softEq s s' → softEq s' s.
Proof.
  intros (Hc & Hm & ? & ? & ? & ? & ?).
  split; [|split; [by intros c k; rewrite Hm|by repeat split]].
  intros c. destruct (Hc c) as (? & ? & ?). by repeat split.
Qed.

Lemma doWrite_softEq s src a n s' : doWrite s src a n = Some s' → softEq s s'.
Proof.
  intros H. apply doWrite_Some in H as (st & ->).
  eapply softEq_trans; [apply softEq_set_store|apply softEq_set_iolog].
Qed.

Lemma poke_softEq s a d s' : poke s a d = Some s' → softEq s s'.
Proof.
  intros H. apply poke_Some in H as (c & i & off & g & l & -> & Hg & _ & ->).
  by eapply softEq_set_page.
Qed.

Lemma memcpy_softEq s dest src n s' : memcpy s dest src n = Some s' → softEq s s'.
Proof. unfold memcpy. intros H. bind_inv H. by eapply poke_softEq. Qed.

Lemma doRead_softEq s dest a n s' : doRead s dest a n = Some s' → softEq s s'.
Proof.
  unfold doRead. intros H. bind_inv H.
  eapply softEq_trans; [apply softEq_set_iolog|by eapply poke_softEq].
Qed.

Lemma saveChunk_softEq s i off src n s' : saveChunk s i off src n = Some s' → softEq s s'.
Proof.
  unfold saveChunk. intros H. bind_inv H. bind_inv H.
  destruct b; [|injection H as <-; apply softEq_refl].
  bind_inv H. apply modPage_Some in H as (g & Hg & ->).
  eapply softEq_trans; [by eapply memcpy_softEq|]. by eapply softEq_set_page.
Qed.

Lemma saveRawData_loop_softEq fuel s i src p size s' src' p' size' :
  saveRawData_loop fuel s i src p size = Some (s', src', p', size') → softEq s s'.
Proof.
  revert s i src p size. induction fuel as [|fuel IH]; intros s i src p size H;
    [discriminate|].
  simpl in H. destruct (_ || _); [injection H as <- _ _ _; apply softEq_refl|].
  bind_inv H. destruct (_ =? 0); [by eapply IH|].
  destruct (_ && _).
  { bind_inv H. eapply softEq_trans; [by eapply saveChunk_softEq|by eapply IH]. }
  destruct (_ && _).
  { bind_inv H. eapply softEq_trans; [by eapply saveChunk_softEq|by eapply IH]. }
  by eapply IH.
Qed.

Lemma saveRawData_softEq s src p size s' : saveRawData s src p size = Some s' → softEq s s'.
Proof.
  unfold saveRawData. intros H. bind_inv H. destruct p0 as [[[s1 src1] p1] size1].
  simpl in H. apply saveRawData_loop_softEq in E.
  destruct (0 <? size1); [|by injection H as <-].
  eapply softEq_trans; [done|by eapply doWrite_softEq].
Qed.

Lemma copyRawData_loop_softEq fuel s i dest p size s' dest' p' size' :
  copyRawData_loop fuel s i dest p size = Some (s', dest', p', size') → softEq s s'.
Proof.
  revert s i dest p size. induction fuel as [|fuel IH]; intros s i dest p size H;
    [discriminate|].
  simpl in H. destruct (_ || _); [injection H as <- _ _ _; apply softEq_refl|].
  bind_inv H. destruct (_ =? 0); [by eapply IH|].
  destruct (_ && _).
  { bind_inv H. eapply softEq_trans; [by eapply memcpy_softEq|by eapply IH]. }
  destruct (_ && _).
  { bind_inv H. eapply softEq_trans; [by eapply memcpy_softEq|by eapply IH]. }
  by eapply IH.
Qed.

Lemma copyRawData_softEq s dest p size s' : copyRawData s dest p size = Some s' → softEq s s'.
Proof.
  unfold copyRawData. intros H. bind_inv H. destruct p0 as [[[s1 dest1] p1] size1].
  simpl in H. apply copyRawData_loop_softEq in E.
  destruct (0 <? size1); [|by injection H as <-].
  eapply softEq_trans; [done|by eapply doRead_softEq].
Qed.

Lemma syncLockedPage_softEq s c i s' : syncLockedPage s c i = Some s' → softEq s s'.
Proof.
  unfold syncLockedPage. intros H. bind_inv H.
  destruct (LockPage.dirty _); [by eapply saveRawData_softEq|].
  injection H as <-. apply softEq_refl.
Qed.

End SoftEq.

(** ** The effect of [freeLockedPage] *)

Section PagewiseI.
Context (R : PClass → Z → LockPage.t → LockPage.t → Prop).
Hypothesis R_refl : ∀ c k g, R c k g g.
Hypothesis R_trans : ∀ c k g1 g2 g3, R c k g1 g2 → R c k g2 g3 → R c k g1 g3.

Lemma pagewiseI_refl s : pagewiseI R s s.
Proof. intros c k g Hg. eauto. Qed.

Lemma pagewiseI_trans s1 s2 s3 :
  pagewiseI R s1 s2 → pagewiseI R s2 s3 → pagewiseI R s1 s3.
Proof.
  intros H1 H2 c k g Hg.
  destruct (H1 c k g Hg) as (g' & Hg' & HR1).
  destruct (H2 c k g' Hg') as (g'' & Hg'' & HR2). eauto.
Qed.

Lemma pagewiseI_same s s' :
  (∀ c k, page c k s' = page c k s) → pagewiseI R s s'.
Proof. intros Hs c k g Hg. rewrite Hs. eauto. Qed.

Lemma pagewiseI_set_page c i g g' s :
  page c i s = Some g → R c i g g' → pagewiseI R s (set_page c i g' s).
Proof.
  intros Hg HR c' k gk Hgk. rewrite (page_set_page _ _ _ _ _ _ _ Hg).
  case_decide as Hd; [|eauto]. destruct Hd as [<- <-].
  rewrite Hg in Hgk. injection Hgk as <-. eauto.
Qed.

Lemma pagewiseI_softEq s s' :
  (∀ c k g g', meta g' = meta g → R c k g g') → softEq s s' → pagewiseI R s s'.
Proof.
  intros HR Hs c k g Hg.
  destruct (softEq_page c k s s' g Hs Hg) as (g' & Hg' & Hm). eauto.
Qed.

End PagewiseI.

Section FreeLockedPage.

Lemma keptBut_refl c i c' k g : keptBut c i c' k g g.
Proof. by intros ?. Qed.

Lemma keptBut_trans c i c' k g1 g2 g3 :
  keptBut c i c' k g1 g2 → keptBut c i c' k g2 g3 → keptBut c i c' k g1 g3.
Proof.
  intros H1 H2 Hne. destruct (H1 Hne) as (? & ? & ?), (H2 Hne) as (? & ? & ?).
  repeat split; congruence.
Qed.

Lemma keptBut_meta c i c' k g g' : meta g' = meta g → keptBut c i c' k g g'.
Proof. unfold meta. intros Hm _. by simplify_eq. Qed.

Lemma keptBut_pw_trans c i s1 s2 s3 :
  pagewiseI (keptBut c i) s1 s2 → pagewiseI (keptBut c i) s2 s3 →
  pagewiseI (keptBut c i) s1 s3.
Proof. apply pagewiseI_trans. intros ? ?. apply keptBut_trans. Qed.

(** Setting heads of chains or the swap hint changes no page. *)
Lemma keptBut_set_heads c i c0 s fi li :
  pagewiseI (keptBut c i) s
    (set_plist c0 (PageInfo.mk (PageInfo.pages (plist c0 s)) (PageInfo.size (plist c0 s)) fi li) s).
Proof. apply pagewiseI_same; [apply keptBut_refl|]. intros. apply page_set_heads. Qed.

(** The first part of [freeLockedPage]: the write-back of the page. *)
Lemma freeLockedPage_sync s c index s1 :
  match c with
  | Big =>
      g ← page c index s;
      if LockPage.size g <? PageInfo.size (plist c s) then
        s1 ← syncLockedPage s c index;
        modPage c index
          (λ g, LockPage.set_size (PageInfo.size (plist c s1)) (LockPage.set_start 0 g)) s1
      else Some s
  | _ => syncLockedPage s c index
  end = Some s1 →
  links s s1 ∧ pagewiseI (keptBut c index) s s1 ∧
  (∀ k g, page c k s = Some g → ∃ g', page c k s1 = Some g' ∧
                                      LockPage.locks g' = LockPage.locks g).
Proof.
  intros H.
  assert (∀ s s', softEq s s' →
            links s s' ∧ pagewiseI (keptBut c index) s s' ∧
            (∀ k g, page c k s = Some g → ∃ g', page c k s' = Some g' ∧
                                                LockPage.locks g' = LockPage.locks g))
    as Hsoft.
  { intros s0 s0' Hs. split; [by apply softEq_links|]. split.
    - apply pagewiseI_softEq; [|done]. intros. by apply keptBut_meta.
    - intros k g Hg. destruct (softEq_page c k _ _ g Hs Hg) as (g' & Hg' & Hm).
      exists g'. split; [done|]. unfold meta in Hm. by simplify_eq. }
  destruct c; try (apply Hsoft; by eapply syncLockedPage_softEq).
  bind_inv H. destruct (_ <? _); [|injection H as <-; apply Hsoft, softEq_refl].
  bind_inv H. rename b into s0. apply syncLockedPage_softEq in E0.
  destruct (Hsoft _ _ E0) as (HL & HP & HK).
  apply modPage_Some in H as (g & Hg & ->).
  split; [|split].
  - eapply links_trans; [done|]. by eapply links_set_page.
  - eapply keptBut_pw_trans; [done|].
    eapply pagewiseI_set_page; [intros; apply keptBut_refl|done|].
    intros Hne. by destruct Hne.
  - intros k gk Hgk. destruct (HK k gk Hgk) as (g' & Hg' & Hl).
    rewrite (page_set_page _ _ _ _ _ _ _ Hg). case_decide as Hd; [|eauto].
    destruct Hd as [_ <-]. rewrite Hg in Hg'. injection Hg' as <-.
    eexists. split; [done|]. done.
Qed.


(** The second part: the page is unlinked from the locked chain. *)
Lemma freeLockedPage_unlink s1 c i g s2 :
  page c i s1 = Some g →
  (if i =? PageInfo.lockedIndex (plist c s1) then
     Some (set_plist c (PageInfo.set_lockedIndex (LockPage.next g) (plist c s1)) s1)
   else
     prevind ← findPrev (chainFuel (plist c s1)) (plist c s1)
                        (PageInfo.lockedIndex (plist c s1)) i;
     modPage c prevind (LockPage.set_next (LockPage.next g)) s1) = Some s2 →
  (if i =? PageInfo.lockedIndex (plist c s1)
   then Some (PageInfo.set_lockedIndex (LockPage.next g) (plist c s1))
   else prevind ← findPrev (chainFuel (plist c s1)) (plist c s1)
                           (PageInfo.lockedIndex (plist c s1)) i;
        gp ← getPage (plist c s1) prevind;
        Some (PageInfo.set_pages
                (<[Z.to_nat prevind := LockPage.set_next (LockPage.next g) gp]>
                   (PageInfo.pages (plist c s1)))
                (plist c s1))) = Some (plist c s2) ∧
  (∀ c', c' ≠ c → plist c' s2 = plist c' s1) ∧
  poolSize s2 = poolSize s1 ∧ nextPageToSwap s2 = nextPageToSwap s1 ∧
  pagewiseI (keptBut c i) s1 s2.
Proof.
  intros Hg H. destruct (i =? _).
  - injection H as <-. rewrite plist_set_plist. split; [done|].
    split; [intros c' Hc; by apply plist_set_plist_ne|].
    split; [by destruct c|]. split; [by destruct c|].
    apply keptBut_set_heads.
  - bind_inv H. rename z into prevind. apply modPage_Some in H as (gp & Hgp & ->).
    unfold page in Hgp. simpl. rewrite Hgp. simpl.
    unfold set_page. rewrite plist_set_plist. split; [done|].
    split; [intros c' Hc; by apply plist_set_plist_ne|].
    split; [by destruct c|]. split; [by destruct c|].
    apply (pagewiseI_set_page _ (keptBut_refl c i) c prevind gp); [done|]. by intros _.
Qed.


Lemma freeLockedPage_effect s c i ret s' L1 L2 Fr :
  chain (plist c s) (PageInfo.lockedIndex (plist c s)) (L1 ++ i :: L2) →
  chain (plist c s) (PageInfo.freeIndex (plist c s)) Fr →
  (∀ x, x ∈ Fr → x ∉ L1 ++ i :: L2) →
  freeLockedPage s c i = Some (ret, s') →
  chain (plist c s') (PageInfo.lockedIndex (plist c s')) (L1 ++ L2) ∧
  chain (plist c s') (PageInfo.freeIndex (plist c s')) (i :: Fr) ∧
  chain (plist c s') ret L2 ∧
  (∀ c', c' ≠ c →
     (∀ h l, chain (plist c' s) h l → chain (plist c' s') h l) ∧
     PageInfo.freeIndex (plist c' s') = PageInfo.freeIndex (plist c' s) ∧
     PageInfo.lockedIndex (plist c' s') = PageInfo.lockedIndex (plist c' s)) ∧
  (∀ c', PageInfo.size (plist c' s') = PageInfo.size (plist c' s)) ∧
  poolSize s' = poolSize s ∧
  pagewiseI (keptBut c i) s s' ∧
  (∀ g, page c i s = Some g →
        ∃ g', page c i s' = Some g' ∧ LockPage.locks g' = 0).
Proof.
  intros HL HF Hdisj H. unfold freeLockedPage in H.
  bind_inv H. rename b into s1. bind_inv H. rename t into g.
  bind_inv H. rename b into s2. bind_inv H. rename b into s3.
  bind_inv H. rename b into s6. injection H as <- <-.
  apply freeLockedPage_sync in E as (HL1 & HP1 & HK1).
  pose proof (chain_links c _ _ _ _ HL1 HL) as HLs1.
  pose proof (chain_links c _ _ _ _ HL1 HF) as HFs1.
  destruct HL1 as (Hheads1 & Hnext1 & Hps1).
  destruct (Hheads1 c) as (Hsz1 & Hfi1 & Hli1). rewrite <- Hli1 in HLs1. rewrite <- Hfi1 in HFs1.
  destruct (freeLockedPage_unlink _ _ _ _ _ E0 E1) as (Hq1 & Hoth2 & Hps2 & Hsw2 & HP2).
  destruct (unlink_chain _ _ _ _ _ _ _ _ HLs1 HFs1 Hdisj E0 Hq1 eq_refl)
    as (HL2 & HF2 & Hfi2 & Hsz2 & Hlen2 & Hst2).
  pose proof (chain_NoDup _ _ _ HLs1) as Hnd.
  apply NoDup_app in Hnd as (Hnd1 & Hnd12 & Hnd2).
  apply NoDup_cons in Hnd2 as (Hi2 & Hnd2).
  assert (i ∉ L1) as Hi1.
  { intros Hin. apply (Hnd12 i Hin). by left. }
  assert (i ∉ Fr) as HiF.
  { intros Hin. apply (Hdisj i Hin). apply elem_of_app. right. by left. }
  (* the page is linked in front of the free chain *)
  apply modPage_Some in E2 as (g2 & Hg2 & ->).
  assert (g2 = g) as ->.
  { unfold page in Hg2, E0. rewrite (Hst2 i Hi1) in Hg2. congruence. }
  set (g3 := LockPage.set_next (PageInfo.freeIndex (plist c s2)) g) in *.
  set (s3 := set_page c i g3 s2) in *.
  set (s4 := set_plist c (PageInfo.set_freeIndex i (plist c s3)) s3) in *.
  set (s5 := if PClass_eqb c Big && (nextPageToSwap s4 =? -1)
             then set_nextPageToSwap (PageInfo.freeIndex (plist c s4)) s4 else s4) in *.
  apply modPage_Some in E3 as (g5 & Hg5 & ->).
  assert (∀ c' k, page c' k s5 = page c' k s3) as Hpg5.
  { intros c' k. unfold s5. destruct (_ && _).
    - rewrite page_set_nextPageToSwap. apply page_set_heads.
    - apply page_set_heads. }
  assert (∀ c', plist c' s5 = plist c' s4) as Hpl5.
  { intros c'. unfold s5. destruct (_ && _); [apply plist_set_nextPageToSwap|done]. }
  assert (page c i s3 = Some g3) as Hg3.
  { by eapply page_set_page_eq. }
  assert (g5 = g3) as -> by (rewrite Hpg5, Hg3 in Hg5; congruence).
  set (s6 := set_page c i (LockPage.set_locks 0 g3) s5).
  assert (∀ k, k ≠ i → getPage (plist c s6) k = getPage (plist c s2) k) as Hother.
  { intros k Hk. change (page c k s6 = page c k s2). unfold s6.
    rewrite page_set_page_ne; [|apply getPage_range in E0; lia|by right].
    rewrite Hpg5. unfold s3. rewrite page_set_page_ne; [done| |by right].
    apply getPage_range in E0; lia. }
  assert (page c i s6 = Some (LockPage.set_locks 0 g3)) as Hg6.
  { eapply page_set_page_eq. by rewrite Hpg5. }
  assert (PageInfo.lockedIndex (plist c s6) = PageInfo.lockedIndex (plist c s2) ∧
          PageInfo.freeIndex (plist c s6) = i ∧
          PageInfo.size (plist c s6) = PageInfo.size (plist c s2)) as (Hli6 & Hfi6 & Hsz6).
  { unfold s6. destruct (set_page_class c i (LockPage.set_locks 0 g3) s5 c) as (-> & -> & -> & _).
    rewrite Hpl5. unfold s4. rewrite plist_set_plist. simpl.
    destruct (set_page_class c i g3 s2 c) as (? & _ & ? & _). done. }
  assert (∀ h l, i ∉ l → chain (plist c s2) h l → chain (plist c s6) h l) as Hkeep.
  { intros h l Hil Hc. eapply chain_ext; [exact Hc|]. intros k gk Hk Hgk.
    exists gk. split; [|done]. rewrite Hother; [done|]. intros ->. done. }
  split; [|split; [|split; [|split; [|split; [|split; [|split]]]]]].
  - rewrite Hli6. apply Hkeep; [|done]. intros Hin. apply elem_of_app in Hin as [?|?]; done.
  - rewrite Hfi6. econstructor; [exact Hg6|]. simpl. apply Hkeep; [done|]. exact HF2.
  - apply Hkeep; [done|].
    destruct (chain_app_inv _ _ _ _ HL2) as (m & Hp & Hm).
    destruct (chain_app_inv _ _ _ _ HLs1) as (m' & Hp' & Hm').
    apply chain_cons_inv in Hm' as (_ & g' & Hg' & Hc2).
    unfold page in E0. rewrite E0 in Hg'. injection Hg' as <-.
    eapply chain_ext; [exact Hc2|]. intros k gk Hk Hgk. exists gk. split; [|done].
    rewrite Hst2; [done|]. intros Hin. apply (Hnd12 k Hin). by right.
  - intros c' Hc'.
    assert (plist c' s6 = plist c' s1) as Heq.
    { unfold s6, set_page. rewrite plist_set_plist_ne by done. rewrite Hpl5.
      unfold s4. rewrite plist_set_plist_ne by done.
      unfold s3, set_page. rewrite plist_set_plist_ne by done. by apply Hoth2. }
    rewrite Heq. destruct (Hheads1 c') as (_ & ? & ?).
    split; [|done]. intros h l Hc. eapply chain_ext; [exact Hc|].
    intros k gk _ Hgk. specialize (Hnext1 c' k). unfold page in Hnext1.
    rewrite Hgk in Hnext1. simpl in Hnext1.
    destruct (getPage (plist c' s1) k) as [gk'|]; [|discriminate].
    injection Hnext1 as ?. eauto.
  - intros c'. destruct (decide (c' = c)) as [->|Hc'].
    + rewrite Hsz6, Hsz2. done.
    + assert (plist c' s6 = plist c' s1) as ->.
      { unfold s6, set_page. rewrite plist_set_plist_ne by done. rewrite Hpl5.
        unfold s4. rewrite plist_set_plist_ne by done.
        unfold s3, set_page. rewrite plist_set_plist_ne by done. by apply Hoth2. }
      by destruct (Hheads1 c') as (? & _).
  - unfold s6. destruct (set_page_fields c i (LockPage.set_locks 0 g3) s5) as (_ & _ & _ & _ & -> & _).
    assert (poolSize s5 = poolSize s4) as -> by (unfold s5; by destruct (_ && _)).
    assert (poolSize s4 = poolSize s3) as -> by (unfold s4; by destruct c).
    unfold s3. destruct (set_page_fields c i g3 s2) as (_ & _ & _ & _ & -> & _). congruence.
  - eapply keptBut_pw_trans; [exact HP1|]. eapply keptBut_pw_trans; [exact HP2|].
    intros c' k gk Hgk. destruct (decide (c' = c ∧ k = i)) as [[-> ->]|Hne].
    + exists (LockPage.set_locks 0 g3). split; [done|]. intros Hne. by destruct Hne.
    + exists gk. split; [|apply keptBut_refl]. unfold s6.
      rewrite page_set_page_ne; [|apply getPage_range in E0; lia|].
      2:{ destruct (decide (c = c')) as [->|]; [right|by left]. intros ->. by apply Hne. }
      rewrite Hpg5. unfold s3. rewrite page_set_page_ne; [done|apply getPage_range in E0; lia|].
      destruct (decide (c = c')) as [->|]; [right|by left]. intros ->. by apply Hne.
  - intros g0 _. eauto.
Qed.

End FreeLockedPage.

(** ** The footprint of [pullRawData] *)

Section Footprint.
Context (cfg : Config).

Lemma locksSame_refl g : (λ g g' : LockPage.t, LockPage.locks g' = LockPage.locks g) g g.
Proof. done. Qed.

Lemma footprint_refl F s : footprint F s s.
Proof. split; [done|]. by apply pagewise_refl. Qed.

Lemma footprint_trans F s1 s2 s3 :
  footprint F s1 s2 → footprint F s2 s3 → footprint F s1 s3.
Proof.
  intros [Hf1 Hl1] [Hf2 Hl2]. split.
  - intros c k Hk. by rewrite Hf2, Hf1.
  - eapply pagewise_trans; [|done|done]. simpl. intros. congruence.
Qed.

Lemma footprint_same F s s' : (∀ c k, page c k s' = page c k s) → footprint F s s'.
Proof. intros Hs. split; [by intros|]. by apply pagewise_same. Qed.

Lemma footprint_set_page F i g g' s :
  i ∈ F → page Big i s = Some g → LockPage.locks g' = LockPage.locks g →
  footprint F s (set_page Big i g' s).
Proof.
  intros Hi Hg Hl. split.
  - intros c k Hk. apply page_set_page_ne; [apply getPage_range in Hg; lia|].
    destruct Hk as [Hk|Hk]; [by left|right]. intros ->. done.
  - by apply (pagewise_set_page _ locksSame_refl Big i g).
Qed.

Lemma footprint_doRead F i s off a n s' :
  i ∈ F → doRead s (PoolPtr Big i off) a n = Some s' → footprint F s s'.
Proof.
  intros Hi H. apply doRead_Some in H as (c & i' & off' & g & l & Heq & Hg & _ & _ & ->).
  injection Heq as <- <- <-.
  eapply footprint_trans; [apply footprint_same; intros; apply page_set_iolog|].
  apply (footprint_set_page F i g); [done| |done]. by rewrite page_set_iolog.
Qed.

Lemma footprint_syncBigPage F i s s' :
  i ∈ F → syncBigPage s i = Some s' → footprint F s s'.
Proof.
  intros Hi H. apply syncBigPage_Some in H as (g & Hg & [[_ ->]|[_ (st & n & ->)]]).
  - apply footprint_refl.
  - eapply footprint_trans; [apply footprint_same; intros; apply page_set_store|].
    eapply footprint_trans; [apply footprint_same; intros; apply page_set_iolog|].
    apply (footprint_set_page F i g); [done| |done].
    by rewrite page_set_iolog, page_set_store.
Qed.

Lemma pullRawData_footprint F s p size readonly forcestart a s' :
  chain (bigPages s) (PageInfo.freeIndex (bigPages s)) F →
  pullRawData cfg s p size readonly forcestart = Some (a, s') →
  footprint F s s' ∧ links s s' ∧
  ∃ j g', a = PoolPtr Big j (p - LockPage.start g') ∧ j ∈ F ∧ page Big j s' = Some g' ∧
          (readonly = false → LockPage.dirty g' = true) ∧
          (LockPage.start g' = p ∧ 0 ≤ p ∨ fitsFree g' p size forcestart = true).
Proof.
  intros Hc H. unfold pullRawData in H.
  bind_inv H. rename z into full. bind_inv H. destruct p0 as [[pi st] s1]. simpl in H.
  bind_inv H. rename b into s2. bind_inv H. rename b into s3.
  bind_inv H. rename t into g3. injection H as <- <-.
  destruct (pullBody_closure cfg (footprint F) F) with (s := s) (p := p) (size := size)
    (forcestart := forcestart) (full := full) (pi := pi) (st := st) (s1 := s1) (s2 := s2)
    as (HT & HL & Hpi & g2 & Hg2 & Hcase); try done.
  - apply footprint_refl.
  - apply footprint_trans.
  - intros. by eapply footprint_syncBigPage.
  - intros s0 i g0 Hi Hg0 _. by apply (footprint_set_page F i g0).
  - intros s0 i g0 Hi Hg0 _. by apply (footprint_set_page F i g0).
  - intros. apply footprint_same. intros. apply page_set_nextPageToSwap.
  - intros s0 j g0 p0 n s0' Hj Hg0 _ Hrd.
    eapply footprint_trans; [|by eapply footprint_doRead].
    by apply (footprint_set_page F j g0).
  - destruct readonly; simpl in E2.
    + injection E2 as <-. rewrite Hg2 in E3. injection E3 as <-.
      split; [done|]. split; [done|]. exists pi, g2. split; [done|]. split; [done|].
      split; [done|]. split; [done|].
      destruct Hcase as [?|(_ & _ & ?)]; [by left|by right].
    + apply modPage_Some in E2 as (g2' & Hg2' & ->). rewrite Hg2 in Hg2'.
      injection Hg2' as <-. erewrite page_set_page_eq in E3 by done. injection E3 as <-.
      split; [|split].
      * eapply footprint_trans; [done|]. by apply (footprint_set_page F pi g2).
      * eapply links_trans; [done|]. by eapply links_set_page.
      * exists pi, (LockPage.set_dirty true g2). split; [done|]. split; [done|].
        split; [by eapply page_set_page_eq|]. split; [done|].
        destruct Hcase as [?|(_ & _ & ?)]; [by left|by right].
Qed.

End Footprint.

(** ** The FULL hit of [pullRawData] *)

Section FullHit.
Context (cfg : Config).

(** C8.  If a page of the big free chain already holds the requested range
    (in the sense of [findFreePage], which respects [forcestart]), then
    [pullRawData] returns a pointer into the pool of such a page of the chain
    at offset [p - start], the driver is not called ([iolog] and [store] are
    as before) and [start] and [size] of every page of every class are
    unchanged. *)
Theorem C8_full_hit_no_io s p size readonly forcestart F i g :
  freeChain (bigPages s) = Some F →
  i ∈ F → page Big i s = Some g → fitsFree g p size forcestart = true →
  ∃ j gj s',
    pullRawData cfg s p size readonly forcestart
      = Some (PoolPtr Big j (p - LockPage.start gj), s') ∧
    j ∈ F ∧ page Big j s = Some gj ∧ fitsFree gj p size forcestart = true ∧
    iolog s' = iolog s ∧ store s' = store s ∧
    ∀ c k, (LockPage.start <$> page c k s') = (LockPage.start <$> page c k s) ∧
           (LockPage.size <$> page c k s') = (LockPage.size <$> page c k s).
Proof.
  intros HF Hi Hg Hfit. apply freeChain_chain in HF.
  destruct (findFreePage_chain _ _ p size forcestart HF) as (j & Hfind & Hcase).
  destruct Hcase as [[-> Hno]|[Hj (gj & Hgj & Hfj)]].
  { rewrite (Hno i g Hi Hg) in Hfit. discriminate. }
  assert (j ≠ -1) as Hne.
  { intros ->. by apply getPage_not_end in Hgj. }
  unfold pullRawData. rewrite Hfind. simpl.
  destruct (j =? -1) eqn:E; [zbool; done|]. simpl.
  change (page Big j s = Some gj) in Hgj.
  destruct readonly; simpl.
  - rewrite Hgj. simpl.
    exists j, gj, s. repeat split; done.
  - unfold modPage. rewrite Hgj. simpl.
    rewrite (page_set_page_eq _ _ _ _ _ Hgj). simpl.
    exists j, gj, (set_page Big j (LockPage.set_dirty true gj) s).
    split; [done|]. split; [done|]. split; [done|]. split; [done|].
    split; [apply set_page_fields|]. split; [apply set_page_fields|].
    intros c k. rewrite (page_set_page _ _ _ _ _ _ _ Hgj).
    case_decide as Hd; [|done]. destruct Hd as [<- <-]. rewrite Hgj. done.
Qed.

End FullHit.

(** ** [releaseLock] *)

Section ReleaseLock.

Lemma forallb_elem {A} (f : A → bool) l x : forallb f l = true → x ∈ l → f x = true.
Proof.
  induction l as [|y l IH]; simpl; intros H Hx; [by apply elem_of_nil in Hx|].
  zbool. apply elem_of_cons in Hx as [->|Hx]; auto.
Qed.

Lemma wfClassb_spec q :
  wfClassb q = true →
  ∃ F L, freeChain q = Some F ∧ lockedChain q = Some L ∧
         chain q (PageInfo.freeIndex q) F ∧ chain q (PageInfo.lockedIndex q) L ∧
         (∀ x, x ∈ F → x ∉ L) ∧
         (∀ x g, x ∈ F → getPage q x = Some g → LockPage.locks g = 0).
Proof.
  unfold wfClassb. destruct (freeChain q) as [F|] eqn:HF; [|discriminate].
  destruct (lockedChain q) as [L|] eqn:HL; [|discriminate].
  intros H. zbool. exists F, L. split; [done|]. split; [done|].
  split; [by apply freeChain_chain|]. split; [by apply lockedChain_chain|]. split.
  - intros x Hx. pose proof (forallb_elem _ _ _ H Hx) as Hb. simpl in Hb.
    zbool. by apply bool_decide_eq_false in Hb.
  - intros x g Hx Hg. pose proof (forallb_elem _ _ _ H0 Hx) as Hb. simpl in Hb.
    rewrite Hg in Hb. by zbool.
Qed.

Lemma findLockedPage_loop_elem q i l fuel p r :
  chain q i l → findLockedPage_loop fuel q i p = Some r → r = -1 ∨ r ∈ l.
Proof.
  intros Hc. revert fuel. induction Hc as [|i g l Hg Hc IH]; intros fuel H.
  - destruct fuel; [discriminate|]. simpl in H. injection H as <-. by left.
  - destruct fuel; [discriminate|]. simpl in H.
    destruct (i =? -1); [injection H as <-; by left|].
    rewrite Hg in H. simpl in H. destruct (ownsAddr g p).
    + injection H as <-. right. by left.
    + destruct (IH _ H) as [?|?]; [by left|by right; right].
Qed.

(** The search only looks at [next], [start] and [size]. *)
Lemma findLockedPage_loop_ext q q' fuel i p :
  (∀ k, match getPage q k, getPage q' k with
        | Some g, Some g' => LockPage.next g' = LockPage.next g ∧
                             LockPage.start g' = LockPage.start g ∧
                             LockPage.size g' = LockPage.size g
        | None, None => True
        | _, _ => False
        end) →
  findLockedPage_loop fuel q' i p = findLockedPage_loop fuel q i p.
Proof.
  intros Hext. revert i. induction fuel as [|fuel IH]; intros i; [done|].
  simpl. destruct (i =? -1); [done|]. specialize (Hext i).
  destruct (getPage q i) as [g|], (getPage q' i) as [g'|]; simpl; try done.
  destruct Hext as (Hn & Hs & Hz). unfold ownsAddr. rewrite Hs, Hz, Hn.
  destruct (_ && _); [done|apply IH].
Qed.

Lemma findLockedPage_set_locks c i g v s c' p :
  page c i s = Some g →
  findLockedPage (plist c' (set_page c i (LockPage.set_locks v g) s)) p
  = findLockedPage (plist c' s) p.
Proof.
  intros Hg. unfold findLockedPage, chainFuel.
  destruct (set_page_class c i (LockPage.set_locks v g) s c') as (_ & _ & -> & ->).
  apply findLockedPage_loop_ext. intros k.
  change (match page c' k s, page c' k (set_page c i (LockPage.set_locks v g) s) with
          | Some g0, Some g' => LockPage.next g' = LockPage.next g0 ∧
                                LockPage.start g' = LockPage.start g0 ∧
                                LockPage.size g' = LockPage.size g0
          | None, None => True
          | _, _ => False
          end).
  rewrite (page_set_page _ _ _ _ _ _ _ Hg). case_decide as Hd.
  - destruct Hd as [<- <-]. rewrite Hg. done.
  - destruct (page c' k s); done.
Qed.

(** C9.  [releaseLock(ptr)] on well linked chains, for the buffer [i] of
    class [c] that owns [ptr], with [locks >= 1]: the lock count of the
    buffer is decremented.  When it reaches zero and the buffer is a big
    page, the buffer leaves the locked chain and becomes the head of the free
    chain; in every other case (small or medium buffer, or locks left) the
    chains of its class are as before, so a small or medium buffer stays in
    the locked chain with [locks == 0]. *)
Theorem C9_releaseLock_effect s ptr c i g s' L Fr :
  wfChains s →
  lockedChain (plist c s) = Some L → freeChain (plist c s) = Some Fr →
  findLockedPageAny s ptr = Some (Some (c, i)) →
  page c i s = Some g → 1 ≤ LockPage.locks g →
  releaseLock s ptr = Some s' →
  i ∈ L ∧
  ∃ g', page c i s' = Some g' ∧ LockPage.locks g' = LockPage.locks g - 1 ∧
        if bool_decide (LockPage.locks g = 1 ∧ c = Big)
        then (∃ L1 L2, L = L1 ++ i :: L2 ∧ lockedChain (plist c s') = Some (L1 ++ L2)) ∧
             freeChain (plist c s') = Some (i :: Fr)
        else lockedChain (plist c s') = Some L ∧ freeChain (plist c s') = Some Fr.
Proof.
  intros (Hws & Hwm & Hwb) HL HF Hown Hg Hlocks H.
  apply lockedChain_chain in HL. apply freeChain_chain in HF.
  assert (findLockedPage (plist c s) ptr = Some i ∧ i ≠ -1 ∧
          (c = Big → findLockedPage (plist Big s) ptr = Some i)) as (Hfind & Hne & Hbig).
  { unfold findLockedPageAny in Hown.
    bind_inv Hown. destruct (negb (z =? -1)) eqn:Hn1.
    { injection Hown as <- <-. zbool. done. }
    bind_inv Hown. destruct (negb (z0 =? -1)) eqn:Hn2.
    { injection Hown as <- <-. zbool. done. }
    bind_inv Hown. destruct (negb (z1 =? -1)) eqn:Hn3; [|discriminate].
    injection Hown as <- <-. zbool. done. }
  assert (i ∈ L) as HiL.
  { destruct (findLockedPage_loop_elem _ _ _ _ _ _ HL Hfind); done. }
  split; [done|].
  unfold releaseLock in H. rewrite Hown in H. simpl in H. rewrite Hg in H. simpl in H.
  set (s1 := set_page c i (LockPage.set_locks (LockPage.locks g - 1) g) s) in *.
  assert (links s s1) as Hl1 by (by eapply links_set_page).
  assert (page c i s1 = Some (LockPage.set_locks (LockPage.locks g - 1) g)) as Hg1.
  { by eapply page_set_page_eq. }
  pose proof (chain_links c _ _ _ _ Hl1 HL) as HL1.
  pose proof (chain_links c _ _ _ _ Hl1 HF) as HF1.
  pose proof Hl1 as (Hheads & Hnext & _).
  destruct (Hheads c) as (_ & Hfi & Hli). rewrite <- Hli in HL1. rewrite <- Hfi in HF1.
  destruct (LockPage.locks g - 1 =? 0) eqn:Hz.
  - zbool. bind_inv H. rename z into index.
    unfold s1 in E. change (bigPages ?x) with (plist Big x) in E.
    rewrite (findLockedPage_set_locks _ _ _ _ _ _ _ Hg) in E. fold s1 in E.
    destruct (negb (index =? -1)) eqn:Hidx.
    + zbool. bind_inv H. destruct p as [ret s2]. injection H as <-.
      destruct (wfClassb_spec _ Hwb) as (Fb & Lb & _ & _ & HFb & HLb & Hdb & _).
      change (bigPages s) with (plist Big s) in HLb, HFb.
      pose proof (chain_links Big _ _ _ _ Hl1 HLb) as HLb1.
      pose proof (chain_links Big _ _ _ _ Hl1 HFb) as HFb1.
      destruct (Hheads Big) as (_ & Hfib & Hlib).
      rewrite <- Hlib in HLb1. rewrite <- Hfib in HFb1.
      assert (index ∈ Lb) as Hin.
      { destruct (findLockedPage_loop_elem _ _ _ _ _ _ HLb E); done. }
      apply list_elem_of_split in Hin as (Lb1 & Lb2 & ->).
      destruct (freeLockedPage_effect _ _ _ _ _ _ _ _ HLb1 HFb1 Hdb E0)
        as (HLn & HFn & _ & Hoth & _ & _ & Hkept & Hzero).
      destruct (decide (c = Big)) as [->|Hc].
      * assert (index = i) as -> by (rewrite (Hbig eq_refl) in E; congruence).
        destruct (Hzero _ Hg1) as (g' & Hg' & Hl'). exists g'. split; [done|].
        split; [lia|]. rewrite bool_decide_eq_true_2 by (split; [lia|done]).
        assert (L = Lb1 ++ i :: Lb2) as -> by (eapply chain_det; done).
        assert (Fr = Fb) as -> by (eapply chain_det; done).
        split; [exists Lb1, Lb2; split; [done|by apply chain_lockedChain]|].
        by apply chain_freeChain.
      * destruct (Hkept c i _ Hg1) as (g' & Hg' & Hk). exists g'. split; [done|].
        destruct Hk as (_ & _ & Hl'); [intros [? _]; done|]. simpl in Hl'.
        split; [lia|]. rewrite bool_decide_eq_false_2 by (intros [_ ?]; done).
        destruct (Hoth c Hc) as (Hch & Hf & Hl).
        split; [apply chain_lockedChain; rewrite Hl|apply chain_freeChain; rewrite Hf];
          by apply Hch.
    + zbool. injection H as <-. subst index.
      exists (LockPage.set_locks (LockPage.locks g - 1) g). split; [done|]. split; [done|].
      assert (c ≠ Big) as Hc.
      { intros ->. rewrite (Hbig eq_refl) in E. congruence. }
      rewrite bool_decide_eq_false_2 by (intros [_ ?]; done).
      split; [by apply chain_lockedChain|by apply chain_freeChain].
  - zbool. injection H as <-.
    exists (LockPage.set_locks (LockPage.locks g - 1) g). split; [done|]. split; [done|].
    rewrite bool_decide_eq_false_2 by (intros [? _]; lia).
    split; [by apply chain_lockedChain|by apply chain_freeChain].
Qed.

End ReleaseLock.

(** ** Locked pages are left alone *)

Section Frame.
Context (cfg : Config).

Lemma lockKept_refl g : lockKept g g.
Proof. by split. Qed.

Lemma lockKept_trans g1 g2 g3 : lockKept g1 g2 → lockKept g2 g3 → lockKept g1 g3.
Proof.
  intros [Hl1 Hk1] [Hl2 Hk2]. split; [congruence|]. intros Hne.
  destruct (Hk1 Hne) as [? ?]. destruct Hk2 as [? ?]; [congruence|]. split; congruence.
Qed.

Lemma frame_refl s : pagewise lockKept s s.
Proof. apply pagewise_refl, lockKept_refl. Qed.

Lemma frame_trans s1 s2 s3 :
  pagewise lockKept s1 s2 → pagewise lockKept s2 s3 → pagewise lockKept s1 s3.
Proof. apply pagewise_trans, lockKept_trans. Qed.

Lemma frame_softEq s s' : softEq s s' → pagewise lockKept s s'.
Proof.
  intros Hs c k g Hg. destruct (softEq_page c k s s' g Hs Hg) as (g' & Hg' & Hm).
  exists g'. split; [done|]. unfold meta in Hm. injection Hm as ? ? ? ? ?. by split.
Qed.

Lemma frame_same s s' : (∀ c k, page c k s' = page c k s) → pagewise lockKept s s'.
Proof. apply pagewise_same, lockKept_refl. Qed.

Lemma frame_set_page c i g g' s :
  page c i s = Some g → lockKept g g' → pagewise lockKept s (set_page c i g' s).
Proof. apply pagewise_set_page, lockKept_refl. Qed.

Lemma frame_footprint F s s' :
  footprint F s s' →
  (∀ x g, x ∈ F → page Big x s = Some g → LockPage.locks g = 0) →
  pagewise lockKept s s'.
Proof.
  intros [Hfp Hlk] HF c k g Hg.
  destruct (Hlk c k g Hg) as (g' & Hg' & Hl). exists g'. split; [done|].
  split; [done|]. intros Hne.
  assert (c ≠ Big ∨ k ∉ F) as Hout.
  { destruct (decide (c = Big)) as [->|]; [right|by left].
    intros Hin. apply Hne. by eapply HF. }
  rewrite (Hfp c k Hout), Hg in Hg'. by injection Hg' as <-.
Qed.

Lemma frame_locks c k s s' g' :
  pagewise lockKept s s' → page c k s' = Some g' →
  (∃ g, page c k s = Some g) → ∃ g, page c k s = Some g ∧ LockPage.locks g' = LockPage.locks g.
Proof.
  intros Hf Hg' [g Hg]. destruct (Hf c k g Hg) as (g'' & Hg'' & Hl & _).
  exists g. split; [done|]. congruence.
Qed.



Lemma wfChains_wellLinked s : wfChains s → wellLinked s.
Proof.
  intros (Hs & Hm & Hb) c.
  assert (wfClassb (plist c s) = true) as Hc by (by destruct c).
  destruct (wfClassb_spec _ Hc) as (F & L & _ & _ & HF & HL & Hd & Hu).
  exists F, L. done.
Qed.

Lemma unusedOK_frame s s' l : unusedOK s l → pagewise lockKept s s' → unusedOK s' l.
Proof.
  intros Hu Hf c. destruct (Hu c) as [?|(g & Hg & Hl)]; [by left|right].
  destruct (Hf _ _ _ Hg) as (g' & Hg' & Hl' & _). exists g'. split; [done|]. congruence.
Qed.

(** [freeLockedPage] of a page without locks, on well linked chains. *)
Lemma freeLockedPage_frame s c i ret s' Lpre L2 g :
  wellLinked s →
  chain (plist c s) (PageInfo.lockedIndex (plist c s)) (Lpre ++ i :: L2) →
  page c i s = Some g → LockPage.locks g = 0 →
  freeLockedPage s c i = Some (ret, s') →
  wellLinked s' ∧ pagewise lockKept s s' ∧
  chain (plist c s') (PageInfo.lockedIndex (plist c s')) (Lpre ++ L2) ∧
  chain (plist c s') ret L2.
Proof.
  intros Hw HL Hg Hl0 H.
  destruct (Hw c) as (F & L & HF & HL' & Hd & Hu).
  assert (L = Lpre ++ i :: L2) as -> by (eapply chain_det; done).
  destruct (freeLockedPage_effect _ _ _ _ _ _ _ _ HL HF Hd H)
    as (HLn & HFn & Hret & Hoth & _ & _ & Hkept & Hzero).
  destruct (Hzero _ Hg) as (gi' & Hgi' & Hli').
  assert (pagewise lockKept s s') as Hframe.
  { intros c' k gk Hgk. destruct (Hkept c' k gk Hgk) as (gk' & Hgk' & Hk).
    exists gk'. split; [done|].
    destruct (decide (c' = c ∧ k = i)) as [[-> ->]|Hne].
    - rewrite Hg in Hgk. injection Hgk as <-. rewrite Hgi' in Hgk'. injection Hgk' as <-.
      split; [congruence|]. intros ?. done.
    - destruct (Hk Hne) as (? & ? & ?). by split. }
  split; [|done].
  intros c'. destruct (decide (c' = c)) as [->|Hc'].
  - exists (i :: F), (Lpre ++ L2). split; [done|]. split; [done|].
    pose proof (chain_NoDup _ _ _ HL) as Hnd.
    apply NoDup_app in Hnd as (_ & Hnd12 & Hnd2). apply NoDup_cons in Hnd2 as (Hi2 & _).
    split.
    + intros x Hx Hin. apply elem_of_cons in Hx as [->|Hx].
      * apply elem_of_app in Hin as [Hin|Hin]; [|done]. apply (Hnd12 i Hin). by left.
      * apply (Hd x Hx). apply elem_of_app in Hin as [Hin|Hin]; apply elem_of_app;
          [by left|right; by right].
    + intros x gx Hx Hgx. apply elem_of_cons in Hx as [->|Hx]; [congruence|].
      destruct (chain_elem _ _ _ _ HF Hx) as (gx0 & _ & Hgx0 & _).
      destruct (Hframe c x gx0 Hgx0) as (gx' & Hgx' & Hlx & _).
      rewrite Hgx in Hgx'. injection Hgx' as <-. rewrite Hlx. by eapply Hu.
  - destruct (Hw c') as (F' & L' & HF' & HL'' & Hd' & Hu').
    destruct (Hoth c' Hc') as (Hch & -> & ->).
    exists F', L'. split; [by apply Hch|]. split; [by apply Hch|]. split; [done|].
    intros x gx Hx Hgx.
    destruct (chain_elem _ _ _ _ HF' Hx) as (gx0 & _ & Hgx0 & _).
    destruct (Hframe c' x gx0 Hgx0) as (gx' & Hgx' & Hlx & _).
    rewrite Hgx in Hgx'. injection Hgx' as <-. rewrite Hlx. by eapply Hu'.
Qed.

(** The search loop of [makeFittingLock]. *)
Lemma makeFittingLock_scan_frame fuel s c i ptr l l' s' Lpre Lrest :
  wellLinked s →
  chain (plist c s) (PageInfo.lockedIndex (plist c s)) (Lpre ++ Lrest) →
  chain (plist c s) i Lrest → unusedOK s l →
  makeFittingLock_scan fuel s c i ptr l = Some (l', s') →
  wellLinked s' ∧ pagewise lockKept s s' ∧ unusedOK s' l' ∧
  FitLock.size l' ≤ FitLock.size l.
Proof.
  revert s i l Lpre Lrest. induction fuel as [|fuel IH];
    intros s i l Lpre Lrest Hw HL Hi Hu H; [discriminate|].
  simpl in H. destruct (i =? -1) eqn:Ei.
  { injection H as <- <-. split; [done|]. split; [apply frame_refl|]. split; [done|lia]. }
  zbool. bind_inv H. rename t into g.
  destruct Lrest as [|x L2]; [inversion Hi; by subst|].
  apply chain_cons_inv in Hi as (-> & g0 & Hg0 & Hc2).
  unfold page in E. rewrite E in Hg0. injection Hg0 as <-.
  destruct (_ && _) eqn:Hin.
  { injection H as <- <-. split; [done|]. split; [apply frame_refl|]. split; [|simpl; lia].
    intros c'. destruct (Hu c'); [by left|by right]. }
  destruct ((ptr <? LockPage.start g) && (LockPage.start g <? ptr + FitLock.size l)) eqn:Hend;
    simpl in H.
  - destruct (LockPage.locks g =? 0) eqn:Hl0; simpl in H.
    + zbool. bind_inv H. destruct p as [nxt s1]. simpl in H.
      destruct (freeLockedPage_frame _ _ _ _ _ _ _ _ Hw HL E Hl0 E0)
        as (Hw1 & Hf1 & HL1 & Hn1).
      destruct (IH _ _ _ _ _ Hw1 HL1 Hn1 (unusedOK_frame _ _ _ Hu Hf1) H)
        as (Hw2 & Hf2 & Hu2 & Hsz).
      split; [done|]. split; [by eapply frame_trans|]. done.
    + zbool.
      eapply (IH s _ _ (Lpre ++ [x]) L2) in H; [| done | by rewrite <- app_assoc | done |].
      * destruct H as (? & ? & ? & Hsz). repeat split; try done. simpl in Hsz. lia.
      * intros c'. destruct (Hu c'); [by left|by right].
  - eapply (IH s _ _ (Lpre ++ [x]) L2) in H; [| done | by rewrite <- app_assoc | done |].
    + destruct H as (? & ? & ? & Hsz). repeat split; try done.
      destruct (_ && _) in Hsz; simpl in Hsz; [by destruct c|done].
    + destruct ((LockPage.locks g =? 0) && (FitLock.unusedlist c l =? -1)) eqn:Hun; [|done].
      zbool. intros c'. destruct (decide (c' = c)) as [->|Hc'].
      * right. exists g. by destruct c.
      * destruct (Hu c') as [?|?]; [left|right]; by destruct c, c'.
Qed.


Lemma frame_set_heads c s fi li :
  pagewise lockKept s
    (set_plist c (PageInfo.mk (PageInfo.pages (plist c s)) (PageInfo.size (plist c s)) fi li) s).
Proof. apply frame_same. intros. apply page_set_heads. Qed.

(** [lockPage] takes a page of the free chain and changes no locked page. *)
Lemma lockPage_frame s c ptr sz index s' :
  wellLinked s → lockPage cfg s c ptr sz = Some (index, s') →
  pagewise lockKept s s' ∧ ∃ g, page c index s = Some g ∧ LockPage.locks g = 0.
Proof.
  intros Hw H. unfold lockPage in H.
  bind_inv H as E. destruct p as [index0 s1]. simpl in H.
  bind_inv H as Erelink. rename b into s2.
  bind_inv H as Enext. rename b into s4. injection H as <- <-.
  destruct (Hw c) as (F & L & HF & HL & Hd & Hu).
  assert (pagewise lockKept s s1 ∧ links s s1 ∧ (index0 = -1 ∨ index0 ∈ F)) as (Hf1 & Hl1 & Hidx).
  { assert (PageInfo.freeIndex (plist c s) = -1 ∨ PageInfo.freeIndex (plist c s) ∈ F)
      as Hhead.
    { destruct F as [|x F]; [inversion HF; by left|].
      apply chain_cons_inv in HF as (Hh & _). right. rewrite Hh. by left. }
    destruct c.
    - injection E as <- <-. split; [apply frame_refl|]. split; [apply links_refl|done].
    - injection E as <- <-. split; [apply frame_refl|]. split; [apply links_refl|done].
    - bind_inv E as Epull. destruct p as [a s0]. simpl in E.
      bind_inv E as E1. rename z into idx.
      bind_inv E as E2. injection E as <- <-.
      destruct (pullRawData_footprint cfg F _ _ _ _ _ _ _ HF Epull) as (Hfp & Hl0 & _).
      pose proof (frame_footprint _ _ _ Hfp Hu) as Hf0.
      pose proof (chain_links Big _ _ _ _ Hl0 HF) as HF0.
      pose proof Hl0 as (Hheads & _ & _). destruct (Hheads Big) as (_ & Hfi & _).
      rewrite <- Hfi in HF0.
      destruct (findFreePage_chain _ _ ptr sz true HF0) as (r & Hr & Hcase).
      change (plist Big s0) with (bigPages s0) in E1. unfold plist in Hr.
      rewrite Hr in E1. injection E1 as <-.
      assert (r = -1 ∨ r ∈ F) as Hin by (destruct Hcase as [[? _]|[? _]]; auto).
      destruct (sz <? _).
      + destruct Hin as [->|Hin].
        { unfold syncBigPage in E2. bind_inv E2. by apply getPage_not_end in E. }
        pose proof (footprint_syncBigPage F _ _ _ Hin E2) as Hfp2.
        split; [|split; [|by right]].
        * eapply frame_trans; [done|]. eapply frame_footprint; [done|].
          intros x gx Hx Hgx.
          destruct (chain_elem _ _ _ _ HF Hx) as (gx0 & _ & Hgx0 & _).
          destruct (Hf0 Big x gx0 Hgx0) as (gx' & Hgx' & Hlx & _).
          rewrite Hgx in Hgx'. injection Hgx' as <-. rewrite Hlx. by eapply Hu.
        * eapply links_trans; [done|]. by eapply syncBigPage_links.
      + injection E2 as <-. done. }
  assert (∃ g1, page c index0 s1 = Some g1 ∧ pagewise lockKept s1 s2) as (g1 & Hg1 & Hf2).
  { destruct (index0 =? _) eqn:Hhead.
    - zbool. bind_inv Erelink as Eg. injection Erelink as <-. rewrite <- Hhead in Eg.
      exists t. split; [done|]. apply frame_set_heads.
    - bind_inv Erelink as Eprev. bind_inv Erelink as Eg.
      apply modPage_Some in Erelink as (gp & Hgp & ->).
      exists t. split; [done|]. eapply frame_set_page; [done|]. by split. }
  assert (index0 ∈ F) as Hin.
  { destruct Hidx as [->|?]; [|done]. by apply getPage_not_end in Hg1. }
  destruct (chain_elem _ _ _ _ HF Hin) as (g & _ & Hg & _).
  split.
  - eapply frame_trans; [exact Hf1|]. eapply frame_trans; [exact Hf2|].
    apply modPage_Some in Enext as (g3 & Hg3 & ->).
    eapply frame_trans; [|apply frame_set_heads].
    eapply frame_trans; [|eapply frame_set_page; [exact Hg3|by split]].
    destruct (_ && _); [|apply frame_refl].
    apply frame_same. intros. apply page_set_nextPageToSwap.
  - exists g. split; [done|]. by eapply Hu.
Qed.

(** C4.  On well linked chains, [makeFittingLock] leaves [start] and [size]
    of every page that carries a lock before the call as they are (such a
    page is in a locked chain, since pages of the free chains carry no
    lock); the value left in the reference parameter [size] is not larger
    than the one passed in.  The theorem covers the failing call too. *)
Theorem C4_fitting_lock_keeps_locked_pages s ptr size ro a size' s' c k g :
  wfChains s →
  makeFittingLock cfg s ptr size ro = Some (a, size', s') →
  page c k s = Some g → 0 < LockPage.locks g →
  size' ≤ size ∧
  ∃ g', page c k s' = Some g' ∧
        LockPage.start g' = LockPage.start g ∧ LockPage.size g' = LockPage.size g.
Proof.
  intros Hwf H Hg Hlocks. apply wfChains_wellLinked in Hwf.
  unfold makeFittingLock in H.
  set (l0 := FitLock.mk _ _ _ _ _ _ _) in H.
  assert (unusedOK s l0) as Hu0 by (intros c'; left; by destruct c').
  assert (∀ s l c' l' s',
            wellLinked s → unusedOK s l →
            makeFittingLock_class s c' ptr l = Some (l', s') →
            wellLinked s' ∧ pagewise lockKept s s' ∧ unusedOK s' l' ∧
            FitLock.size l' ≤ FitLock.size l) as Hclass.
  { intros s0 l c' l' s0' Hw Hu Hcl. unfold makeFittingLock_class in Hcl.
    destruct (FitLock.done l).
    { injection Hcl as <- <-. split; [done|]. split; [apply frame_refl|]. split; [done|lia]. }
    destruct (Hw c') as (F & L & HF & HL & _).
    eapply (makeFittingLock_scan_frame _ _ _ _ _ _ _ _ [] L); eauto. }
  bind_inv H. destruct p as [l1 s1]. simpl in H.
  bind_inv H. destruct p as [l2 s2]. simpl in H.
  bind_inv H. destruct p as [l3 s3]. simpl in H.
  destruct (Hclass _ _ _ _ _ Hwf Hu0 E) as (Hw1 & Hf1 & Hu1 & Hs1).
  destruct (Hclass _ _ _ _ _ Hw1 Hu1 E0) as (Hw2 & Hf2 & Hu2 & Hs2).
  destruct (Hclass _ _ _ _ _ Hw2 Hu2 E1) as (Hw3 & Hf3 & Hu3 & Hs3).
  assert (pagewise lockKept s s3) as Hf03.
  { eapply frame_trans; [exact Hf1|]. eapply frame_trans; [exact Hf2|exact Hf3]. }
  assert (FitLock.size l3 ≤ size) as Hsz3 by (simpl in *; lia).
  clear E E0 E1 Hclass.
  bind_inv H as Ebody. destruct o as [[[[[cf pageindex] offset] size1] s4]|].
  2:{ injection H as <- <- <-. split; [done|].
      destruct (Hf03 c k g Hg) as (g' & Hg' & _ & Hk). exists g'. split; [done|].
      apply Hk. lia. }
  bind_inv H as Elast. rename b into s5.
  apply modPage_Some in Elast as (gf & Hgf & ->). injection H as <- <- <-.
  (* up to the last step no locked page has changed *)
  assert (size1 ≤ size ∧ pagewise lockKept s s4) as (Hsize & Hf04).
  { destruct (FitLock.pageindex l3 =? -1) eqn:Hpi.
    - (* a new lock *)
      set (sel := pickClass _ _ _ _) in Ebody.
      set (l4 := match sel with
                 | (None, Some c0) => _
                 | (_pi, _) => _ end) in Ebody.
      assert (FitLock.size l4 ≤ FitLock.size l3 ∧
              ∀ c0, FitLock.unusedlist c0 l4 = FitLock.unusedlist c0 l3) as (Hs4 & Hun4).
      { assert (∀ c2, sel.2 = Some c2 → PageInfo.size (plist c2 s3) < FitLock.size l3)
          as Hres.
        { assert (∀ c0 p c2, (pickClass s3 l3 c0 p).2 = Some c2 →
                    p.2 = Some c2 ∨ PageInfo.size (plist c2 s3) < FitLock.size l3)
            as Hpick.
          { intros c0 [p1 p2] c2. unfold pickClass. destruct (_ || _); [|by left].
            destruct (_ <=? _) eqn:Hle; simpl; [by left|]. intros [= <-].
            zbool. by right. }
          intros c2 Hc2. unfold sel in Hc2.
          apply Hpick in Hc2 as [Hc2|?]; [|done].
          apply Hpick in Hc2 as [Hc2|?]; [|done].
          apply Hpick in Hc2 as [Hc2|?]; [|done]. discriminate. }
        unfold l4. destruct sel as [[c1|] [c2|]]; simpl; try (split; [lia|by intros []]).
        split; [|by intros []]. specialize (Hres c2 eq_refl). lia. }
      destruct (FitLock.plistindex l4) as [c4|]; [|discriminate].
      bind_inv Ebody as Eslot. destruct p as [[pi4 syncpool] s6]. simpl in Ebody.
      bind_inv Ebody as Ecopy. rename b into s7.
      bind_inv Ebody as Eset. injection Ebody as <- <- <- <- <-.
      split; [lia|].
      assert (pagewise lockKept s3 s6 ∧ ∃ g3, page c4 pi4 s3 = Some g3 ∧ LockPage.locks g3 = 0)
        as (Hf36 & g3 & Hg3 & Hl3).
      { destruct (negb (PageInfo.freeIndex (plist c4 s3) =? -1)).
        - bind_inv Eslot as Elock. destruct p as [index s6']. injection Eslot as <- <- <-.
          by eapply lockPage_frame.
        - bind_inv Eslot as Esync. bind_inv Eslot as Edirty. injection Eslot as <- <- <-.
          apply syncLockedPage_softEq in Esync. apply modPage_Some in Edirty as (gd & Hgd & ->).
          rewrite Hun4 in *.
          destruct (Hu3 c4) as [Hm1|(g3 & Hg3 & Hl3)].
          { rewrite Hm1 in Hgd. by apply getPage_not_end in Hgd. }
          split; [|eauto].
          eapply frame_trans; [by apply frame_softEq|].
          eapply frame_set_page; [done|]. by split. }
      assert (pagewise lockKept s6 s7) as Hf67.
      { destruct syncpool; [|injection Ecopy as <-; apply frame_refl].
        apply frame_softEq. by eapply copyRawData_softEq. }
      apply modPage_Some in Eset as (g7 & Hg7 & ->).
      eapply frame_trans; [exact Hf03|]. eapply frame_trans; [exact Hf36|].
      eapply frame_trans; [exact Hf67|].
      eapply frame_set_page; [done|]. split; [done|]. intros Hne. exfalso. apply Hne.
      destruct (Hf36 _ _ _ Hg3) as (g6 & Hg6 & Hl6 & _).
      destruct (Hf67 _ _ _ Hg6) as (g7' & Hg7' & Hl7 & _).
      rewrite Hg7 in Hg7'. injection Hg7' as <-. congruence.
    - (* an existing lock *)
      destruct (FitLock.plistindex l3) as [c3|]; [|discriminate].
      bind_inv Ebody as Epage. injection Ebody as <- <- <- <- <-.
      split; [lia|done]. }
  split; [done|].
  destruct (Hf04 c k g Hg) as (g4 & Hg4 & _ & Hk4).
  destruct Hk4 as [Hst4 Hsz4]; [lia|].
  rewrite (page_set_page _ _ _ _ _ _ _ Hgf). case_decide as Hd.
  - destruct Hd as [<- <-]. rewrite Hgf in Hg4. injection Hg4 as <-.
    eexists. split; [done|]. by destruct (LockPage.dirty _).
  - eauto.
Qed.

End Frame.

(** ** Failing calls *)

Section FailingFit.
Context (cfg : Config).





End FailingFit.

Section FailingDataLock.
Context (cfg : Config).













End FailingDataLock.

(** * The registers of the free list across reads and a failing [allocRaw] *)

Section ListFields.
Context (cfg : Config).

Lemma listFields_refl s : listFields s s.
Proof. by repeat split. Qed.

Lemma listFields_trans s1 s2 s3 : listFields s1 s2 → listFields s2 s3 → listFields s1 s3.
Proof. intros (?&?&?&?) (?&?&?&?). repeat split; congruence. Qed.

Lemma listFields_set_page c i g s : listFields s (set_page c i g s).
Proof. by destruct c. Qed.

Lemma listFields_set_iolog v s : listFields s (set_iolog v s).
Proof. done. Qed.

Lemma listFields_set_store v s : listFields s (set_store v s).
Proof. done. Qed.

Lemma listFields_doRead s dest a n s' : doRead s dest a n = Some s' → listFields s s'.
Proof.
  intros H. apply doRead_Some in H as (c & i & off & g & l & _ & _ & _ & _ & ->).
  eapply listFields_trans; [apply (listFields_set_iolog (IORead a n :: iolog s))|].
  apply listFields_set_page.
Qed.

Lemma listFields_syncBigPage s i s' : syncBigPage s i = Some s' → listFields s s'.
Proof.
  intros H. apply syncBigPage_Some in H as (g & _ & [[_ ->]|(_ & st & n & ->)]).
  - apply listFields_refl.
  - eapply listFields_trans; [|apply listFields_set_page]. done.
Qed.

Lemma findFreePage_none_chain q p size a :
  findFreePage q p size a = Some (-1) → ∃ F, chain q (PageInfo.freeIndex q) F.
Proof.
  unfold findFreePage. generalize (PageInfo.freeIndex q). generalize (chainFuel q).
  intros fuel. induction fuel as [|fuel IH]; intros i Hi; [discriminate|].
  simpl in Hi. destruct (i =? -1) eqn:Ei.
  - zbool. subst. exists []. constructor.
  - bind_inv Hi. destruct (fitsFree _ _ _ _).
    + injection Hi as ->. by apply getPage_not_end in E.
    + destruct (IH _ Hi) as [l Hl]. exists (i :: l). by econstructor.
Qed.

Lemma pullRawData_listFields s p size readonly forcestart a s' :
  pullRawData cfg s p size readonly forcestart = Some (a, s') → listFields s s'.
Proof.
  intros H. unfold pullRawData in H.
  bind_inv H as Efind. rename z into full. bind_inv H as Escan.
  destruct p0 as [[pi st] s1]. simpl in H.
  bind_inv H as Eswap. rename b into s2. bind_inv H as Edirty. rename b into s3.
  bind_inv H as Eg. injection H as <- <-.
  assert (listFields s s2) as Hbody.
  { destruct (negb (full =? -1)) eqn:Hfull.
    - injection Escan as <- <- <-. simpl in Eswap. injection Eswap as <-.
      apply listFields_refl.
    - zbool. subst full. destruct (findFreePage_none_chain _ _ _ _ Efind) as [F HF].
      eapply (pullBody_closure cfg listFields F) with (full := -1); eauto.
      + apply listFields_refl.
      + apply listFields_trans.
      + intros. by eapply listFields_syncBigPage.
      + intros. apply listFields_set_page.
      + intros. apply listFields_set_page.
      + intros. done.
      + intros s0 j g0 p0 n s0' _ _ _ Hrd.
        eapply listFields_trans; [|by eapply listFields_doRead]. apply listFields_set_page.
      + exact Escan. }
  destruct readonly; simpl in Edirty.
  - by injection Edirty as <-.
  - apply modPage_Some in Edirty as (gp & _ & ->).
    eapply listFields_trans; [done|apply listFields_set_page].
Qed.

Lemma pushRawData_listFields s p d size s' :
  pushRawData cfg s p d size = Some s' → listFields s s'.
Proof.
  intros H. unfold pushRawData in H. bind_inv H as Epull. destruct p0 as [a s1]. simpl in H.
  apply pullRawData_listFields in Epull.
  apply memcpy_Some in H as (c & i & off & g & l & d' & _ & _ & _ & _ & ->).
  eapply listFields_trans; [done|apply listFields_set_page].
Qed.

Lemma read_scan_listFields fuel s c i p size r s' :
  read_scan cfg fuel s c i p size = Some (r, s') → listFields s s'.
Proof.
  revert s i. induction fuel as [|fuel IH]; intros s i H; [discriminate|].
  simpl in H. destruct (i =? -1); [injection H as <- <-; apply listFields_refl|].
  bind_inv H as Eg. destruct (_ && _); [injection H as <- <-; apply listFields_refl|].
  bind_inv H as Epush. rename b into s1. bind_inv H as Eg1.
  eapply listFields_trans; [|by eapply IH].
  destruct (_ || _); [by eapply pushRawData_listFields|].
  injection Epush as <-. apply listFields_refl.
Qed.

Lemma read_class_listFields s c p size r s' :
  read_class cfg s c p size = Some (r, s') → listFields s s'.
Proof. apply read_scan_listFields. Qed.

Lemma read_listFields s p size a s' :
  read cfg s p size = Some (a, s') → listFields s s'.
Proof.
  intros H. unfold read in H.
  bind_inv H as E1. destruct p0 as [r1 s1]. cbv beta iota in H.
  apply read_class_listFields in E1.
  destruct r1; [injection H as <- <-; done|].
  bind_inv H as E2. destruct p0 as [r2 s2]. cbv beta iota in H.
  apply read_class_listFields in E2.
  destruct r2; [injection H as <- <-; by eapply listFields_trans|].
  bind_inv H as E3. destruct p0 as [r3 s3]. cbv beta iota in H.
  apply read_class_listFields in E3.
  destruct r3; [injection H as <- <-|apply pullRawData_listFields in H];
    repeat (eapply listFields_trans; [eassumption|]); try apply listFields_refl; done.
Qed.





End ListFields.

(** * What a failing call leaves behind *)


(** * [allocRaw]: carving an allocation from the tail of a larger block *)

Section Split.
Context (cfg : Config).





End Split.

(** * A [read] that mirrors a locked page *)

Section Mirror.
Context (cfg : Config).

Lemma writeCount_set_page c i g s : writeCount (set_page c i g s) = writeCount s.
Proof. by destruct c. Qed.

Lemma dirtyKept_refl s : dirtyKept s s.
Proof. split; [done|]. intros j g Hg Hd Hs. left. eauto. Qed.

Lemma dirtyKept_trans s1 s2 s3 : dirtyKept s1 s2 → dirtyKept s2 s3 → dirtyKept s1 s3.
Proof.
  intros [Hc1 Hk1] [Hc2 Hk2]. split; [lia|]. intros j g Hg Hd Hs.
  destruct (Hk1 j g Hg Hd Hs) as [(g' & Hg' & Hd' & Hs')|?]; [|right; lia].
  destruct (Hk2 j g' Hg' Hd' Hs') as [?|?]; [by left|right; lia].
Qed.

Lemma dirtyKept_written s s' : (writeCount s < writeCount s')%nat → dirtyKept s s'.
Proof. intros H. split; [lia|]. intros. by right. Qed.

Lemma dirtyKept_same s s' :
  writeCount s' = writeCount s → (∀ k, page Big k s' = page Big k s) → dirtyKept s s'.
Proof.
  intros Hc Hp. split; [lia|]. intros j g Hg Hd Hs. left. exists g. by rewrite Hp.
Qed.

Lemma dirtyKept_set_page c i g g' s :
  page c i s = Some g →
  (LockPage.dirty g = true → LockPage.start g ≠ 0 →
   LockPage.dirty g' = true ∧ LockPage.start g' ≠ 0) →
  dirtyKept s (set_page c i g' s).
Proof.
  intros Hg Hkeep. split; [by rewrite writeCount_set_page|].
  intros j gj Hgj Hd Hs. left. rewrite (page_set_page _ _ _ _ _ _ _ Hg).
  case_decide as Hdec; [|eauto]. destruct Hdec as [-> ->].
  rewrite Hg in Hgj. injection Hgj as <-. exists g'. split; [done|]. by apply Hkeep.
Qed.

Lemma dirtyKept_doRead s dest a n s' : doRead s dest a n = Some s' → dirtyKept s s'.
Proof.
  intros H. apply doRead_Some in H as (c & i & off & g & l & _ & Hg & _ & _ & ->).
  eapply dirtyKept_trans; [apply (dirtyKept_same s (set_iolog (IORead a n :: iolog s) s))|].
  - done.
  - intros. apply page_set_iolog.
  - eapply dirtyKept_set_page; [by rewrite page_set_iolog|]. done.
Qed.

Lemma dirtyKept_syncBigPage s i s' : syncBigPage s i = Some s' → dirtyKept s s'.
Proof.
  intros H. apply syncBigPage_Some in H as (g & _ & [[_ ->]|(_ & st & n & ->)]).
  - apply dirtyKept_refl.
  - apply dirtyKept_written. rewrite writeCount_set_page. unfold writeCount. simpl. lia.
Qed.

Lemma dirtyKept_memcpy s dest src n s' : memcpy s dest src n = Some s' → dirtyKept s s'.
Proof.
  intros H. apply memcpy_Some in H as (c & i & off & g & l & d & _ & Hg & _ & _ & ->).
  by eapply dirtyKept_set_page.
Qed.

Lemma pullRawData_dirtyKept s p size readonly forcestart a s' :
  pullRawData cfg s p size readonly forcestart = Some (a, s') → dirtyKept s s'.
Proof.
  intros H. unfold pullRawData in H.
  bind_inv H as Efind. rename z into full. bind_inv H as Escan.
  destruct p0 as [[pi st] s1]. simpl in H.
  bind_inv H as Eswap. rename b into s2. bind_inv H as Edirty. rename b into s3.
  bind_inv H as Eg. injection H as <- <-.
  assert (dirtyKept s s2) as Hbody.
  { destruct (negb (full =? -1)) eqn:Hfull.
    - injection Escan as <- <- <-. simpl in Eswap. injection Eswap as <-.
      apply dirtyKept_refl.
    - zbool. subst full. destruct (findFreePage_none_chain _ _ _ _ Efind) as [F HF].
      eapply (pullBody_closure cfg dirtyKept F) with (full := -1); eauto.
      + apply dirtyKept_refl.
      + apply dirtyKept_trans.
      + intros. by eapply dirtyKept_syncBigPage.
      + intros s0 i g0 _ Hg0 Hclean. eapply dirtyKept_set_page; [done|]. congruence.
      + intros s0 i g0 _ Hg0 _. by eapply dirtyKept_set_page.
      + intros. by apply dirtyKept_same.
      + intros s0 j g0 p0 n s0' _ Hg0 Hfree Hrd.
        eapply dirtyKept_trans; [|by eapply dirtyKept_doRead].
        eapply dirtyKept_set_page; [done|]. intros Hd Hs. destruct Hfree; congruence.
      + exact Escan. }
  destruct readonly; simpl in Edirty.
  - by injection Edirty as <-.
  - apply modPage_Some in Edirty as (gp & Hgp & ->).
    eapply dirtyKept_trans; [done|]. by eapply dirtyKept_set_page.
Qed.

(** [pushRawData] leaves the page it copied to mapped and dirty. *)
Lemma pushRawData_pending F s p d size s' :
  chain (bigPages s) (PageInfo.freeIndex (bigPages s)) F →
  p ≠ 0 →
  pushRawData cfg s p d size = Some s' →
  dirtyKept s s' ∧ footprint F s s' ∧ links s s' ∧ pendingWrite F s'.
Proof.
  intros HF Hp H. unfold pushRawData in H. bind_inv H as Epull.
  destruct p0 as [pool s1]. simpl in H.
  pose proof (pullRawData_dirtyKept _ _ _ _ _ _ _ Epull) as Hk1.
  destruct (pullRawData_footprint cfg F _ _ _ _ _ _ _ HF Epull)
    as (Hf1 & Hl1 & j & g' & -> & Hj & Hg' & Hdirty & Hmap).
  pose proof (dirtyKept_memcpy _ _ _ _ _ H) as Hk2.
  pose proof (memcpy_links _ _ _ _ _ H) as Hl2.
  apply memcpy_Some in H as (c & i & off & g & l & d' & Hdest & Hg & _ & _ & ->).
  injection Hdest as <- <- _. rewrite Hg' in Hg. injection Hg as <-.
  split; [by eapply dirtyKept_trans|]. split.
  { eapply footprint_trans; [done|]. by apply (footprint_set_page F j g'). }
  split; [by eapply links_trans|].
  exists j, (LockPage.set_pool l g'). split; [done|].
  split; [by eapply page_set_page_eq|]. split; [by apply Hdirty|]. simpl.
  destruct Hmap as [[-> _]|Hfit]; [done|].
  unfold fitsFree in Hfit. apply andb_true_iff in Hfit as [Hfit _]. by zbool.
Qed.


Lemma pending_step F s0 s1 s2 :
  (writeCount s0 ≤ writeCount s1)%nat →
  pendingWrite F s1 ∨ (writeCount s0 < writeCount s1)%nat →
  dirtyKept s1 s2 →
  pendingWrite F s2 ∨ (writeCount s0 < writeCount s2)%nat.
Proof.
  intros Hc [(j & g & Hj & Hg & Hd & Hs)|Hw] [Hc2 Hk]; [|right; lia].
  destruct (Hk j g Hg Hd Hs) as [(g' & Hg' & Hd' & Hs')|?]; [left|right; lia].
  by exists j, g'.
Qed.

(** The walk of [read] along a locked chain none of whose pages holds the
    whole range: the walk does not return, and every page that overlaps the
    range is mirrored. *)
Lemma read_scan_mirror fuel s c i L p size r s' F :
  chain (bigPages s) (PageInfo.freeIndex (bigPages s)) F →
  chain (plist c s) i L →
  (∀ x, x ∈ L → c ≠ Big ∨ x ∉ F) →
  (∀ x g, x ∈ L → page c x s = Some g →
          holdsRange g p size = false ∧ LockPage.start g ≠ 0) →
  read_scan cfg fuel s c i p size = Some (r, s') →
  r = None ∧ dirtyKept s s' ∧ footprint F s s' ∧ links s s' ∧
  ((∃ x g, x ∈ L ∧ page c x s = Some g ∧ touchesRange g p size = true) →
   pendingWrite F s' ∨ (writeCount s < writeCount s')%nat).
Proof.
  revert s i L. induction fuel as [|fuel IH]; intros s i L HF HL Hout Hpages H;
    [discriminate|].
  simpl in H. destruct (i =? -1) eqn:Ei.
  { zbool. subst i. injection H as <- <-. split; [done|].
    split; [apply dirtyKept_refl|]. split; [apply footprint_refl|].
    split; [apply links_refl|]. intros (x & g & Hx & _).
    inversion HL as [|? g0 l0 Hg0 _]; subst; [by apply elem_of_nil in Hx|].
    by apply getPage_not_end in Hg0. }
  zbool. bind_inv H as Eg. rename t into g.
  destruct L as [|x L2]; [inversion HL; by subst|].
  apply chain_cons_inv in HL as (-> & g0 & Hg0 & HL2).
  unfold page in Eg. rewrite Eg in Hg0. injection Hg0 as <-.
  change (getPage (plist c s) x = Some g) with (page c x s = Some g) in Eg.
  assert (x ∈ x :: L2) as Hhere by (by left).
  destruct (Hpages x g Hhere Eg) as [Hhold Hstart].
  change (beginOverlaps g p && (p - LockPage.start g + size <=? LockPage.size g))
    with (holdsRange g p size) in H.
  change (beginOverlaps g p || endOverlaps g p (p + size))
    with (touchesRange g p size) in H.
  rewrite Hhold in H. bind_inv H as Epush. rename b into s1. bind_inv H as Eg1.
  rename t into g1.
  assert (dirtyKept s s1 ∧ footprint F s s1 ∧ links s s1 ∧
          (touchesRange g p size = true → pendingWrite F s1)) as (Hk1 & Hf1 & Hl1 & Hpend).
  { destruct (touchesRange g p size).
    - destruct (pushRawData_pending F _ _ _ _ _ HF Hstart Epush) as (?&?&?&?). done.
    - injection Epush as <-. split; [apply dirtyKept_refl|].
      split; [apply footprint_refl|]. split; [apply links_refl|done]. }
  destruct (links_page c x s s1 g Hl1 Eg) as (g1' & Hg1' & Hn1).
  rewrite Eg1 in Hg1'. injection Hg1' as <-. rewrite Hn1 in H.
  assert (∀ k, k ∈ L2 → page c k s1 = page c k s) as Hsame.
  { intros k Hk. apply Hf1. apply Hout. by right. }
  pose proof Hl1 as (Hheads & _ & _). destruct (Hheads Big) as (_ & Hfi & _).
  eapply IH in H as (-> & Hk2 & Hf2 & Hl2 & Hlater).
  - split; [done|]. split; [by eapply dirtyKept_trans|].
    split; [by eapply footprint_trans|]. split; [by eapply links_trans|].
    intros (k & gk & Hk & Hgk & Htouch).
    apply elem_of_cons in Hk as [->|Hk].
    + rewrite Eg in Hgk. injection Hgk as <-.
      eapply pending_step; [|left; by apply Hpend|exact Hk2]. apply Hk1.
    + destruct Hlater as [?|?].
      * exists k, gk. split; [done|]. split; [by rewrite Hsame|done].
      * by left.
      * right. destruct Hk1. lia.
  - change (bigPages s1) with (plist Big s1). rewrite Hfi.
    by apply (chain_links Big s s1).
  - by eapply chain_links.
  - intros k Hk. apply Hout. by right.
  - intros k gk Hk Hgk. rewrite Hsame in Hgk by done. apply (Hpages k gk); [by right|done].
Qed.


Lemma read_class_mirror s0 s c L p size r s' F :
  links s0 s → footprint F s0 s →
  chain (bigPages s0) (PageInfo.freeIndex (bigPages s0)) F →
  chain (plist c s0) (PageInfo.lockedIndex (plist c s0)) L →
  (∀ x, x ∈ L → c ≠ Big ∨ x ∉ F) →
  (∀ x g, x ∈ L → page c x s0 = Some g →
          holdsRange g p size = false ∧ LockPage.start g ≠ 0) →
  read_class cfg s c p size = Some (r, s') →
  r = None ∧ dirtyKept s s' ∧ footprint F s0 s' ∧ links s0 s' ∧
  ((∃ x g, x ∈ L ∧ page c x s0 = Some g ∧ touchesRange g p size = true) →
   pendingWrite F s' ∨ (writeCount s < writeCount s')%nat).
Proof.
  intros Hl Hf HF HL Hout Hpages H. unfold read_class in H.
  pose proof Hl as (Hheads & _ & _).
  destruct (Hheads Big) as (_ & Hfi & _). destruct (Hheads c) as (_ & _ & Hli).
  assert (∀ k, k ∈ L → page c k s = page c k s0) as Hsame.
  { intros k Hk. apply Hf. by apply Hout. }
  eapply (read_scan_mirror _ _ _ _ L _ _ _ _ F) in H as (-> & Hk & Hf' & Hl' & Hlater).
  - split; [done|]. split; [done|]. split; [by eapply footprint_trans|].
    split; [by eapply links_trans|]. intros (k & gk & Hkin & Hgk & Htouch).
    apply Hlater. exists k, gk. split; [done|]. split; [by rewrite Hsame|done].
  - change (bigPages s) with (plist Big s). rewrite Hfi. by apply (chain_links Big s0 s).
  - rewrite Hli. by eapply chain_links.
  - done.
  - intros k gk Hkin Hgk. rewrite Hsame in Hgk by done. by apply (Hpages k gk).
Qed.

Lemma lockedPagesb_spec P s c L x :
  lockedPagesb P s = true → lockedChain (plist c s) = Some L → x ∈ L →
  ∃ g, page c x s = Some g ∧ P g = true.
Proof.
  intros H HL Hx. unfold lockedPagesb in H.
  assert (c ∈ [Small; Medium; Big]) as Hc.
  { destruct c; [by left|right; by left|right; right; by left]. }
  pose proof (forallb_elem _ _ _ H Hc) as Hcl. simpl in Hcl. rewrite HL in Hcl.
  pose proof (forallb_elem _ _ _ Hcl Hx) as Hpx. simpl in Hpx.
  destruct (page c x s) as [g|]; [eauto|discriminate].
Qed.

(** [flush] writes every mapped dirty page of the free chain of big pages. *)
Lemma flush_loop_writes fuel s i L s' :
  chain (bigPages s) i L →
  flush_loop fuel s i false = Some s' →
  (writeCount s ≤ writeCount s')%nat ∧
  ((∃ j g, j ∈ L ∧ page Big j s = Some g ∧ LockPage.dirty g = true ∧
           LockPage.start g ≠ 0) →
   (writeCount s < writeCount s')%nat).
Proof.
  revert s i L. induction fuel as [|fuel IH]; intros s i L HL H; [discriminate|].
  simpl in H. destruct (i =? -1) eqn:Ei.
  { zbool. subst i. injection H as <-. split; [done|]. intros (j & g & Hj & _).
    inversion HL as [|? g0 l0 Hg0 _]; subst; [by apply elem_of_nil in Hj|].
    by apply getPage_not_end in Hg0. }
  zbool. bind_inv H as Eg. rename t into g.
  destruct L as [|x L2]; [inversion HL; by subst|].
  pose proof (chain_NoDup _ _ _ HL) as Hnd. apply NoDup_cons in Hnd as [Hnotin _].
  apply chain_cons_inv in HL as (-> & g0 & Hg0 & HL2).
  change (page Big x s = Some g0) in Hg0. rewrite Eg in Hg0. injection Hg0 as <-.
  bind_inv H as Esync. rename b into s1. bind_inv H as Eg1. rename t into g1.
  assert (links s s1 ∧ footprint [x] s s1 ∧ (writeCount s ≤ writeCount s1)%nat ∧
          (LockPage.dirty g = true → LockPage.start g ≠ 0 →
           (writeCount s < writeCount s1)%nat)) as (Hl1 & Hf1 & Hc1 & Hw1).
  { destruct (negb (LockPage.start g =? 0)) eqn:Hs.
    - bind_inv Esync as Es. injection Esync as <-.
      split; [by eapply syncBigPage_links|].
      split; [eapply footprint_syncBigPage; [|done]; by left|].
      apply syncBigPage_Some in Es as (g' & Hg' & [[Hd ->]|(Hd & st & n & ->)]).
      + rewrite Eg in Hg'. injection Hg' as <-. split; [done|]. congruence.
      + rewrite writeCount_set_page. unfold writeCount. simpl. split; intros; lia.
    - zbool. injection Esync as <-. split; [apply links_refl|].
      split; [apply footprint_refl|]. split; [done|]. congruence. }
  destruct (links_page Big x s s1 g Hl1 Eg) as (g1' & Hg1' & Hn1).
  rewrite Eg1 in Hg1'. injection Hg1' as <-. rewrite Hn1 in H.
  apply (IH s1 _ L2) in H as [Hc2 Hw2]; [|by apply (chain_links Big s s1)].
  split; [lia|]. intros (j & gj & Hj & Hgj & Hd & Hs).
  apply elem_of_cons in Hj as [->|Hj].
  - rewrite Eg in Hgj. injection Hgj as <-. specialize (Hw1 Hd Hs). lia.
  - assert (writeCount s1 < writeCount s')%nat; [|lia].
    apply Hw2. exists j, gj. split; [done|]. split; [|done].
    destruct Hf1 as [Hf1 _]. rewrite Hf1; [done|]. right. intros Hin.
    apply elem_of_cons in Hin as [->|Hin]; [done|]. by apply elem_of_nil in Hin.
Qed.


(** C10, amended.  On well linked chains, take a [read(p, size)] whose range
    no locked page holds entirely (so the walk along the locked chains does
    not return), with locked pages mapped away from address 0, and that
    overlaps the locked page [k].  The page is mirrored with [readonly =
    false]; when [read] returns, either a mapped page of the free chain of
    big pages is dirty, or a write to the store has happened during the
    [read].  In both cases the store has been written once a following
    [flush] returns, although the caller wrote no data. *)
Theorem C10_mirroring_read_writes_back s p size a s' F c L k g :
  wfChains s →
  freeChain (bigPages s) = Some F →
  lockedPagesb (λ g, negb (holdsRange g p size) && negb (LockPage.start g =? 0)) s = true →
  lockedChain (plist c s) = Some L → k ∈ L → page c k s = Some g →
  touchesRange g p size = true →
  read cfg s p size = Some (a, s') →
  freeChain (bigPages s') = Some F ∧
  (pendingWrite F s' ∨ (writeCount s < writeCount s')%nat) ∧
  ∀ s'', flush s' = Some s'' → (writeCount s < writeCount s'')%nat.
Proof.
  intros (Hws & Hwm & Hwb) HF0 Hlocked HL Hk Hg Htouch H.
  pose proof (freeChain_chain _ _ HF0) as HF.
  assert (∀ c', ∃ L',
            lockedChain (plist c' s) = Some L' ∧
            chain (plist c' s) (PageInfo.lockedIndex (plist c' s)) L' ∧
            (∀ x, x ∈ L' → c' ≠ Big ∨ x ∉ F) ∧
            (∀ x g, x ∈ L' → page c' x s = Some g →
                    holdsRange g p size = false ∧ LockPage.start g ≠ 0)) as Hcls.
  { intros c'. assert (wfClassb (plist c' s) = true) as Hwc by (by destruct c').
    destruct (wfClassb_spec _ Hwc) as (F' & L' & HF' & HL' & _ & HcL & Hdisj & _).
    exists L'. split; [done|]. split; [done|]. split.
    - intros x Hx. destruct (decide (c' = Big)) as [->|]; [right|by left].
      change (freeChain (bigPages s) = Some F') in HF'. rewrite HF0 in HF'.
      injection HF' as <-. intros HxF. by apply (Hdisj x).
    - intros x g0 Hx Hg0.
      destruct (lockedPagesb_spec _ _ _ _ _ Hlocked HL' Hx) as (g1 & Hg1 & HP).
      rewrite Hg0 in Hg1. injection Hg1 as <-.
      apply andb_true_iff in HP as [Hh Hs]. zbool. done. }
  assert (∀ c' s1 r s2,
            links s s1 → footprint F s s1 →
            read_class cfg s1 c' p size = Some (r, s2) →
            r = None ∧ dirtyKept s1 s2 ∧ footprint F s s2 ∧ links s s2 ∧
            (c' = c → pendingWrite F s2 ∨ (writeCount s1 < writeCount s2)%nat)) as Hclass.
  { intros c' s1 r s2 Hl1 Hf1 Hrd.
    destruct (Hcls c') as (L' & HL' & HcL' & Hout & Hpages).
    destruct (read_class_mirror _ _ _ _ _ _ _ _ _ Hl1 Hf1 HF HcL' Hout Hpages Hrd)
      as (-> & Hk2 & Hf2 & Hl2 & Hlater).
    split; [done|]. split; [done|]. split; [done|]. split; [done|].
    intros ->. apply Hlater. rewrite HL in HL'. injection HL' as <-. by exists k, g. }
  unfold read in H.
  bind_inv H as E1. destruct p0 as [r1 s1]. cbv beta iota in H.
  apply Hclass in E1 as (-> & Hk1 & Hf1 & Hl1 & Hp1); [|apply links_refl|apply footprint_refl].
  bind_inv H as E2. destruct p0 as [r2 s2]. cbv beta iota in H.
  apply Hclass in E2 as (-> & Hk2 & Hf2 & Hl2 & Hp2); [|done|done].
  bind_inv H as E3. destruct p0 as [r3 s3]. cbv beta iota in H.
  apply Hclass in E3 as (-> & Hk3 & Hf3 & Hl3 & Hp3); [|done|done].
  pose proof (pullRawData_dirtyKept _ _ _ _ _ _ _ H) as Hk4.
  assert (chain (bigPages s3) (PageInfo.freeIndex (bigPages s3)) F) as HF3.
  { pose proof Hl3 as (Hheads & _ & _). destruct (Hheads Big) as (_ & Hfi & _).
    change (bigPages s3) with (plist Big s3). rewrite Hfi.
    by apply (chain_links Big s s3). }
  destruct (pullRawData_footprint cfg F _ _ _ _ _ _ _ HF3 H) as (_ & Hl4 & _).
  assert (links s s') as Hl by (by eapply links_trans).
  assert (chain (bigPages s') (PageInfo.freeIndex (bigPages s')) F) as HF'.
  { pose proof Hl as (Hheads & _ & _). destruct (Hheads Big) as (_ & Hfi & _).
    change (bigPages s') with (plist Big s'). rewrite Hfi.
    by apply (chain_links Big s s'). }
  assert (pendingWrite F s' ∨ (writeCount s < writeCount s')%nat) as Hres.
  { pose proof Hk1 as [Hc1 _]. pose proof Hk2 as [Hc2 _]. pose proof Hk3 as [Hc3 _].
    destruct c.
    - specialize (Hp1 eq_refl).
      eapply pending_step; [|eapply pending_step; [|eapply pending_step;
        [|exact Hp1|exact Hk2]|exact Hk3]|exact Hk4]; lia.
    - specialize (Hp2 eq_refl).
      eapply pending_step; [|eapply pending_step; [| |exact Hk3]|exact Hk4]; [lia|lia|].
      destruct Hp2 as [?|?]; [by left|right; lia].
    - specialize (Hp3 eq_refl).
      eapply pending_step; [| |exact Hk4]; [lia|].
      destruct Hp3 as [?|?]; [by left|right; lia]. }
  split; [by apply chain_freeChain|]. split; [done|].
  intros s'' Hflush. unfold flush in Hflush.
  destruct (flush_loop_writes _ _ _ _ _ HF' Hflush) as [Hc5 Hw5].
  destruct Hres as [(j & gj & Hj & Hgj & Hd & Hs)|?]; [|lia].
  assert (writeCount s' < writeCount s'')%nat by (apply Hw5; by exists j, gj).
  destruct Hk1, Hk2, Hk3, Hk4. lia.
Qed.

End Mirror.

(** * [start]: the chains of a fresh allocator *)

Section Start.
Context (cfg : Config).

Lemma plist_start c s :
  plist c (start cfg s) = startClass (PClass_eqb c Big) (plist c s).
Proof. by destruct c. Qed.

Lemma getPage_startClass b q i :
  getPage (startClass b q) i =
  (λ g, startPage b q (Z.to_nat i) g) <$> getPage q i.
Proof.
  unfold getPage. simpl. destruct (0 <=? i); [|done]. apply list_lookup_imap.
Qed.

Lemma startClass_chain b q (k : nat) i :
  0 ≤ i → i + Z.of_nat k = PageInfo.count q → (0 < k)%nat →
  chain (startClass b q) i (seqZ i (Z.of_nat k)).
Proof.
  revert i. induction k as [|k IH]; intros i Hi Hn Hk; [lia|].
  unfold PageInfo.count in Hn.
  destruct (getPage q i) as [g|] eqn:Hg.
  2:{ unfold getPage in Hg. destruct (0 <=? i) eqn:E; [|zbool; lia].
      apply lookup_ge_None in Hg. lia. }
  rewrite seqZ_cons by lia.
  eapply chain_cons; [by rewrite getPage_startClass, Hg|]. simpl.
  rewrite Z2Nat.id by lia. unfold PageInfo.count.
  replace (Z.pred (Z.of_nat (S k))) with (Z.of_nat k) by lia.
  destruct (i =? Z.of_nat (length (PageInfo.pages q)) - 1) eqn:E; zbool.
  - assert (k = 0)%nat as -> by lia. constructor.
  - apply IH; [lia|unfold PageInfo.count; lia|lia].
Qed.


Lemma forallb_intro {A} (f : A → bool) l : (∀ x, x ∈ l → f x = true) → forallb f l = true.
Proof.
  induction l as [|y l IH]; intros H; [done|]. simpl.
  rewrite (H y) by (by left). apply IH. intros x Hx. apply H. by right.
Qed.

Lemma start_chains_wf s :
  (∀ c, 1 ≤ PageInfo.count (plist c s) ≤ 127) →
  wfChains (start cfg s) ∧
  ∀ c, freeChain (plist c (start cfg s)) = Some (seqZ 0 (PageInfo.count (plist c s))) ∧
       lockedChain (plist c (start cfg s)) = Some [] ∧
       ∀ i g, page c i (start cfg s) = Some g →
         LockPage.start g = 0 ∧ LockPage.locks g = 0 ∧ LockPage.dirty g = false ∧
         LockPage.cleanSkips g = 0 ∧
         (c = Big → LockPage.size g = PageInfo.size (bigPages s)).
Proof.
  intros Hn.
  assert (∀ c i g, page c i (start cfg s) = Some g →
            LockPage.start g = 0 ∧ LockPage.locks g = 0 ∧ LockPage.dirty g = false ∧
            LockPage.cleanSkips g = 0 ∧
            (c = Big → LockPage.size g = PageInfo.size (bigPages s))) as Hpages.
  { intros c i g Hg. unfold page in Hg. rewrite plist_start, getPage_startClass in Hg.
    destruct (getPage (plist c s) i) as [g0|]; [|discriminate]. injection Hg as <-.
    repeat split. by intros ->. }
  assert (∀ c, freeChain (plist c (start cfg s))
               = Some (seqZ 0 (PageInfo.count (plist c s)))) as Hfree.
  { intros c. apply chain_freeChain. rewrite plist_start.
    change (PageInfo.freeIndex (startClass (PClass_eqb c Big) (plist c s))) with 0.
    specialize (Hn c).
    rewrite <- (Z2Nat.id (PageInfo.count (plist c s))) by lia.
    apply startClass_chain; lia. }
  assert (∀ c, lockedChain (plist c (start cfg s)) = Some []) as Hlocked.
  { intros c. rewrite plist_start. done. }
  split; [|intros c; split; [apply Hfree|split; [apply Hlocked|apply Hpages]]].
  assert (∀ c, wfClassb (plist c (start cfg s)) = true) as Hwf.
  { intros c. unfold wfClassb. rewrite Hfree, Hlocked. apply andb_true_iff. split.
    - apply forallb_intro. intros x _. apply negb_true_iff, bool_decide_eq_false.
      apply not_elem_of_nil.
    - apply forallb_intro. intros x Hx.
      pose proof (freeChain_chain _ _ (Hfree c)) as Hc.
      destruct (chain_elem _ _ _ _ Hc Hx) as (g & _ & Hg & _). rewrite Hg.
      apply Z.eqb_eq. by apply (Hpages c x g). }
  split; [apply (Hwf Small)|]. split; [apply (Hwf Medium)|apply (Hwf Big)].
Qed.

End Start.

(** * The page statistics *)

Section Counts.

(** The pages of [l] that pass [test]. *)
Lemma countPages_chain q i l test fuel ret :
  chain q i l → (length l < fuel)%nat →
  0 ≤ ret → ret + Z.of_nat (length l) ≤ 255 →
  countPages fuel q i test ret =
  Some (ret + Z.of_nat (length (List.filter
          (λ j, match getPage q j with Some g => test g | None => false end) l))).
Proof.
  intros Hc. revert fuel ret. induction Hc as [|i g l Hg Hc IH]; intros fuel ret Hf H0 H255.
  - destruct fuel; [simpl in Hf; lia|]. simpl. f_equal. lia.
  - destruct fuel; [simpl in Hf; lia|]. simpl in *.
    assert (i ≠ -1) as Hi by (intros ->; by apply getPage_not_end in Hg).
    apply Z.eqb_neq in Hi. rewrite Hi, Hg. simpl.
    destruct (test g).
    + rewrite Z.mod_small by lia. rewrite IH by lia. simpl. f_equal. lia.
    + rewrite IH by lia. done.
Qed.

Lemma filter_length_le {A} (f : A → bool) l : (length (List.filter f l) ≤ length l)%nat.
Proof. induction l as [|x l IH]; simpl; [done|]. destruct (f x); simpl; lia. Qed.

Lemma NoDup_range_length (l : list Z) (n : nat) :
  NoDup l → (∀ k, k ∈ l → 0 ≤ k < Z.of_nat n) → (length l ≤ n)%nat.
Proof.
  intros Hnd Hr.
  assert (Z.to_nat <$> l ⊆+ seq 0 n) as Hsub.
  { apply NoDup_submseteq.
    - apply NoDup_fmap_2_strong; [|done].
      intros x y Hx Hy Heq. apply Hr in Hx. apply Hr in Hy. lia.
    - intros x Hx. apply list_elem_of_fmap in Hx as (k & -> & Hk).
      apply Hr in Hk. apply elem_of_seq. lia. }
  apply submseteq_length in Hsub. rewrite length_fmap, length_seq in Hsub. done.
Qed.

(** Two chains without a common page fit in the table together. *)
Lemma chains_length q i F j L :
  chain q i F → chain q j L → (∀ x, x ∈ F → x ∉ L) →
  (length F + length L ≤ length (PageInfo.pages q))%nat.
Proof.
  intros HF HL Hd. rewrite <- length_app. apply NoDup_range_length.
  - apply NoDup_app. split; [exact (chain_NoDup _ _ _ HF)|].
    split; [exact Hd|exact (chain_NoDup _ _ _ HL)].
  - intros k Hk. apply elem_of_app in Hk as [Hk|Hk];
      [exact (chain_range _ _ _ _ HF Hk)|exact (chain_range _ _ _ _ HL Hk)].
Qed.


Lemma filter_all {A} (f : A → bool) l : (∀ x, x ∈ l → f x = true) → List.filter f l = l.
Proof.
  induction l as [|y l IH]; intros H; [done|]. simpl.
  rewrite (H y) by (by left). f_equal. apply IH. intros x Hx. apply H. by right.
Qed.

Lemma getUnlockedPages_chains q F L :
  wfClassb q = true → PageInfo.count q ≤ 255 →
  freeChain q = Some F → lockedChain q = Some L →
  let unlocked := List.filter (λ j, match getPage q j with
                                    | Some g => LockPage.locks g =? 0
                                    | None => false
                                    end) L in
  getUnlockedPages q = Some (Z.of_nat (length F) + Z.of_nat (length unlocked)) ∧
  Z.of_nat (length F) + Z.of_nat (length unlocked) ≤ PageInfo.count q.
Proof.
  intros Hwf Hcount HF HL unlocked.
  destruct (wfClassb_spec _ Hwf) as (F' & L' & HF' & HL' & HcF & HcL & Hdisj & _).
  rewrite HF in HF'. injection HF' as <-. rewrite HL in HL'. injection HL' as <-.
  pose proof (chains_length _ _ _ _ _ HcF HcL Hdisj) as Hlen.
  pose proof (filter_length_le (λ j, match getPage q j with
                                     | Some g => LockPage.locks g =? 0
                                     | None => false
                                     end) L) as Hfl.
  fold unlocked in Hfl. unfold PageInfo.count in *.
  split; [|lia]. unfold getUnlockedPages.
  rewrite (countPages_chain _ _ F) by
    (try done; try (by eapply chain_fuel); lia).
  rewrite filter_all.
  2:{ intros x Hx. destruct (chain_elem _ _ _ _ HcF Hx) as (g & _ & Hg & _). by rewrite Hg. }
  cbn -[countPages chainFuel]. rewrite (countPages_chain _ _ L) by
    (try done; try (by eapply chain_fuel); lia).
  done.
Qed.

Lemma getFreeBigPages_chain s F :
  PageInfo.count (bigPages s) ≤ 255 →
  freeChain (bigPages s) = Some F →
  getFreeBigPages s =
  Some (Z.of_nat (length (List.filter (λ j, match page Big j s with
                                            | Some g => LockPage.start g =? 0
                                            | None => false
                                            end) F))).
Proof.
  intros Hcount HF. apply freeChain_chain in HF.
  pose proof (chain_length _ _ _ HF) as Hlen. unfold PageInfo.count in Hcount.
  unfold getFreeBigPages.
  rewrite (countPages_chain _ _ F) by (try done; try (by eapply chain_fuel); lia).
  done.
Qed.

(** X1.  On a well linked class of at most 255 pages, [getUnlockedPages]
    returns the length of the free chain plus the number of pages of the
    locked chain whose lock count is 0; the 8-bit counter does not wrap,
    the result is at most the number of pages. *)
Theorem getUnlockedPages_counts q F L :
  wfClassb q = true → PageInfo.count q ≤ 255 →
  freeChain q = Some F → lockedChain q = Some L →
  let unlocked := List.filter (λ j, match getPage q j with
                                    | Some g => LockPage.locks g =? 0
                                    | None => false
                                    end) L in
  getUnlockedPages q = Some (Z.of_nat (length F) + Z.of_nat (length unlocked)) ∧
  Z.of_nat (length F) + Z.of_nat (length unlocked) ≤ PageInfo.count q.
Proof. apply getUnlockedPages_chains. Qed.

End Counts.

(** * [flush] and [clearPages] *)

Section Flush.

Lemma filter_ext_elem {A} (f g : A → bool) l :
  (∀ x, x ∈ l → f x = g x) → List.filter f l = List.filter g l.
Proof.
  induction l as [|y l IH]; intros H; [done|]. simpl.
  rewrite (H y) by (by left). rewrite IH; [done|]. intros x Hx. apply H. by right.
Qed.

(** One round of the loop of [flush] and [clearPages]. *)
Lemma flush_step s x g (clear : bool) s1 :
  page Big x s = Some g →
  (if negb (LockPage.start g =? 0) then
     s0 ← syncBigPage s x;
     if clear then modPage Big x (LockPage.set_start 0) s0 else Some s0
   else Some s) = Some s1 →
  links s s1 ∧
  page Big x s1 = Some (flushedPage clear g) ∧
  (∀ c k, c ≠ Big ∨ k ≠ x → page c k s1 = page c k s) ∧
  writeCount s1 = (writeCount s + (if pendingb s x then 1 else 0))%nat.
Proof.
  intros Hg H. unfold pendingb, flushedPage. rewrite Hg.
  pose proof (getPage_range _ _ _ Hg) as Hx.
  destruct (LockPage.start g =? 0) eqn:Hs; simpl in H |- *.
  { injection H as <-. split; [apply links_refl|]. split; [done|]. split; [done|lia]. }
  bind_inv H as Esync. rename b into s0.
  assert (links s s0 ∧
          page Big x s0 = Some (if LockPage.dirty g
                                then LockPage.set_cleanSkips 0 (LockPage.set_dirty false g)
                                else g) ∧
          (∀ c k, c ≠ Big ∨ k ≠ x → page c k s0 = page c k s) ∧
          writeCount s0 = (writeCount s + (if LockPage.dirty g then 1 else 0))%nat)
    as (Hl0 & Hg0 & Ho0 & Hc0).
  { split; [by eapply syncBigPage_links|].
    apply syncBigPage_Some in Esync as (g' & Hg' & [[Hd ->]|(Hd & st & n & ->)]);
      rewrite Hg in Hg'; injection Hg' as <-; rewrite Hd.
    - split; [done|]. split; [done|lia].
    - split; [apply page_set_page_eq with (g0 := g);
              by rewrite page_set_iolog, page_set_store|].
      split.
      + intros c k Hk. rewrite page_set_page_ne, page_set_iolog, page_set_store;
          [done|lia|]. destruct Hk as [?|?]; [left; congruence|by right].
      + rewrite writeCount_set_page. unfold writeCount. simpl. lia. }
  destruct clear.
  - apply modPage_Some in H as (g1 & Hg1 & ->). rewrite Hg0 in Hg1. injection Hg1 as <-.
    split; [eapply links_trans; [done|]; by eapply links_set_page|].
    split; [by eapply page_set_page_eq|]. split.
    + intros c k Hk. rewrite page_set_page_ne; [by apply Ho0|lia|].
      destruct Hk as [?|?]; [left; congruence|by right].
    + by rewrite writeCount_set_page.
  - injection H as <-. done.
Qed.

Lemma flushedPage_next clear g : LockPage.next (flushedPage clear g) = LockPage.next g.
Proof.
  unfold flushedPage. destruct (LockPage.start g =? 0); [done|].
  by destruct clear, (LockPage.dirty g).
Qed.

Lemma flush_loop_effect fuel s i L clear s' :
  chain (bigPages s) i L →
  flush_loop fuel s i clear = Some s' →
  links s s' ∧
  (∀ c k, c ≠ Big ∨ k ∉ L → page c k s' = page c k s) ∧
  (∀ k g, k ∈ L → page Big k s = Some g → page Big k s' = Some (flushedPage clear g)) ∧
  writeCount s' = (writeCount s + length (List.filter (pendingb s) L))%nat.
Proof.
  revert s i L. induction fuel as [|fuel IH]; intros s i L HL H; [discriminate|].
  simpl in H. destruct (i =? -1) eqn:Ei.
  { zbool. subst i. injection H as <-.
    inversion HL as [|? g0 l0 Hg0 _]; subst; [|by apply getPage_not_end in Hg0].
    split; [apply links_refl|]. split; [done|]. split; [|simpl; lia].
    intros k g Hk. by apply elem_of_nil in Hk. }
  zbool. bind_inv H as Eg. rename t into g.
  destruct L as [|x L2]; [inversion HL; by subst|].
  pose proof (chain_NoDup _ _ _ HL) as Hnd. apply NoDup_cons in Hnd as [Hnotin _].
  apply chain_cons_inv in HL as (-> & g0 & Hg0 & HL2).
  change (page Big x s = Some g0) in Hg0. rewrite Eg in Hg0. injection Hg0 as <-.
  bind_inv H as Estep. rename b into s1. bind_inv H as Eg1. rename t into g1.
  destruct (flush_step _ _ _ _ _ Eg Estep) as (Hl1 & Hg1 & Ho1 & Hc1).
  rewrite Eg1 in Hg1. injection Hg1 as ->. rewrite flushedPage_next in H.
  apply (IH s1 _ L2) in H as (Hl2 & Ho2 & Hp2 & Hc2); [|by apply (chain_links Big s s1)].
  assert (∀ k, k ∈ L2 → page Big k s1 = page Big k s) as Hsame.
  { intros k Hk. apply Ho1. right. intros ->. done. }
  split; [by eapply links_trans|]. split; [|split].
  - intros c k Hk. rewrite Ho2.
    + apply Ho1. destruct Hk as [?|Hk]; [by left|right]. intros ->. apply Hk. by left.
    + destruct Hk as [?|Hk]; [by left|right]. intros Hin. apply Hk. by right.
  - intros k gk Hk Hgk. apply elem_of_cons in Hk as [->|Hk].
    + rewrite Eg in Hgk. injection Hgk as <-. rewrite Ho2; [done|by right].
    + apply Hp2; [done|]. by rewrite Hsame.
  - rewrite Hc2, Hc1. simpl.
    rewrite (filter_ext_elem (pendingb s1) (pendingb s) L2).
    2:{ intros k Hk. unfold pendingb. by rewrite Hsame. }
    destruct (pendingb s x); simpl; lia.
Qed.


Lemma flush_loop_clean fuel s i L :
  chain (bigPages s) i L → (length L < fuel)%nat →
  (∀ k, k ∈ L → pendingb s k = false) →
  flush_loop fuel s i false = Some s.
Proof.
  intros HL. revert fuel. induction HL as [|i g L Hg HL IH]; intros fuel Hf Hclean.
  - destruct fuel; [simpl in Hf; lia|]. done.
  - destruct fuel; [simpl in Hf; lia|]. simpl in *.
    assert (i ≠ -1) as Hi by (intros ->; by apply getPage_not_end in Hg).
    apply Z.eqb_neq in Hi. rewrite Hi.
    change (getPage (bigPages s) i = Some g) with (page Big i s = Some g) in Hg.
    rewrite Hg. simpl.
    assert (pendingb s i = false) as Hp by (apply Hclean; by left).
    unfold pendingb in Hp. rewrite Hg in Hp.
    destruct (negb (LockPage.start g =? 0)); simpl in Hp |- *.
    + unfold syncBigPage. rewrite Hg. simpl. rewrite Hp. simpl. rewrite Hg. simpl.
      apply IH; [lia|]. intros k Hk. apply Hclean. by right.
    + rewrite Hg. simpl. apply IH; [lia|]. intros k Hk. apply Hclean. by right.
Qed.

Lemma flushedPage_pending clear g :
  negb (LockPage.start (flushedPage clear g) =? 0) && LockPage.dirty (flushedPage clear g)
  = false.
Proof.
  unfold flushedPage. destruct (LockPage.start g =? 0) eqn:Hs; [by rewrite Hs|].
  destruct clear, (LockPage.dirty g) eqn:Hd; simpl; rewrite ?Hs, ?Hd; done.
Qed.

(** X2.  [flush] changes nothing but the pages of the free chain of big
    pages, the store and the log of the driver: every mapped dirty page of
    the chain is written once and becomes clean ([cleanSkips] 0), every other
    page is as before.  A second [flush] right after is defined and changes
    nothing. *)
Theorem flush_effect s s' F :
  freeChain (bigPages s) = Some F → flush s = Some s' →
  (∀ c k, c ≠ Big ∨ k ∉ F → page c k s' = page c k s) ∧
  (∀ k g, k ∈ F → page Big k s = Some g → page Big k s' = Some (flushedPage false g)) ∧
  writeCount s' = (writeCount s + length (List.filter (pendingb s) F))%nat ∧
  flush s' = Some s'.
Proof.
  intros HF H. apply freeChain_chain in HF. unfold flush in H.
  destruct (flush_loop_effect _ _ _ _ _ _ HF H) as (Hl & Ho & Hp & Hc).
  split; [done|]. split; [done|]. split; [done|].
  pose proof Hl as (Hheads & _ & _). destruct (Hheads Big) as (_ & Hfi & _).
  assert (chain (bigPages s') (PageInfo.freeIndex (bigPages s')) F) as HF'.
  { change (bigPages s') with (plist Big s'). rewrite Hfi. by apply (chain_links Big s s'). }
  unfold flush. apply (flush_loop_clean _ _ _ F); [done|by eapply chain_fuel|].
  intros k Hk. destruct (chain_elem _ _ _ _ HF Hk) as (g & _ & Hg & _).
  unfold pendingb. rewrite (Hp k g Hk Hg). apply flushedPage_pending.
Qed.


End Flush.

(** * The statistics of a fresh allocator *)

Section StartCounts.
Context (cfg : Config).

(** X4.  After [start()] on tables of 1 to 127 pages per class, every class
    is well linked: the free chain runs through all pages in index order, the
    locked chain is empty, and every page is unmapped, unlocked and clean
    (big pages with the full page size).  [getUnlockedPages] returns the
    number of pages of the class and [getFreeBigPages] the number of big
    pages. *)
Theorem start_fresh_chains s :
  (∀ c, 1 ≤ PageInfo.count (plist c s) ≤ 127) →
  wfChains (start cfg s) ∧
  (∀ c, freeChain (plist c (start cfg s)) = Some (seqZ 0 (PageInfo.count (plist c s))) ∧
        lockedChain (plist c (start cfg s)) = Some [] ∧
        getUnlockedPages (plist c (start cfg s)) = Some (PageInfo.count (plist c s)) ∧
        ∀ i g, page c i (start cfg s) = Some g →
          LockPage.start g = 0 ∧ LockPage.locks g = 0 ∧ LockPage.dirty g = false ∧
          LockPage.cleanSkips g = 0 ∧
          (c = Big → LockPage.size g = PageInfo.size (bigPages s))) ∧
  getFreeBigPages (start cfg s) = Some (PageInfo.count (bigPages s)).
Proof.
  intros Hn. destruct (start_chains_wf cfg s Hn) as [Hwf Hcls].
  assert (∀ c, PageInfo.count (plist c (start cfg s)) = PageInfo.count (plist c s)) as Hcount.
  { intros c. rewrite plist_start. unfold PageInfo.count, startClass. simpl.
    by rewrite length_imap. }
  assert (∀ c, Z.of_nat (length (seqZ 0 (PageInfo.count (plist c s))))
               = PageInfo.count (plist c s)) as Hlen.
  { intros c. specialize (Hn c). rewrite length_seqZ. lia. }
  split; [done|]. split.
  - intros c. destruct (Hcls c) as (HF & HL & Hpages).
    split; [done|]. split; [done|]. split; [|done].
    assert (wfClassb (plist c (start cfg s)) = true) as Hwc.
    { destruct Hwf as (? & ? & ?). by destruct c. }
    assert (PageInfo.count (plist c (start cfg s)) ≤ 255) as Hb.
    { rewrite Hcount. specialize (Hn c). lia. }
    destruct (getUnlockedPages_chains _ _ _ Hwc Hb HF HL) as [-> _].
    simpl. rewrite Hlen. f_equal. lia.
  - destruct (Hcls Big) as (HF & _ & Hpages).
    assert (PageInfo.count (bigPages (start cfg s)) ≤ 255) as Hb.
    { pose proof (Hcount Big) as Hcb. pose proof (Hn Big) as Hnb.
      change (plist Big (start cfg s)) with (bigPages (start cfg s)) in Hcb.
      change (plist Big s) with (bigPages s) in Hcb, Hnb. lia. }
    rewrite (getFreeBigPages_chain _ _ Hb HF).
    rewrite filter_all; [by rewrite (Hlen Big)|].
    intros k Hk. pose proof (freeChain_chain _ _ HF) as Hc.
    destruct (chain_elem _ _ _ _ Hc Hk) as (g & _ & Hg & _).
    change (page Big k (start cfg s) = Some g) in Hg. rewrite Hg.
    apply Z.eqb_eq. by apply (Hpages k g).
Qed.

End StartCounts.

(** * Byte ranges: [slice] and [blit] *)

Section Bytes.

Lemma blit_Some l off d l' :
  blit l off d = Some l' →
  0 ≤ off ∧ off + Z.of_nat (length d) ≤ Z.of_nat (length l) ∧
  l' = take (Z.to_nat off) l ++ d ++ drop (Z.to_nat off + length d) l.
Proof.
  unfold blit. destruct (_ && _) eqn:E; [|discriminate].
  intros Heq. injection Heq as <-. zbool. repeat split; lia.
Qed.

Lemma blit_length l off d l' : blit l off d = Some l' → length l' = length l.
Proof.
  intros H. apply blit_Some in H as (H0 & H1 & ->).
  rewrite !length_app, length_take, length_drop. lia.
Qed.

(** The bytes of [blit]: those of [d] inside the range, those of [l] outside. *)
Lemma blit_lookup l off d l' (k : nat) :
  blit l off d = Some l' →
  l' !! k = if decide (Z.to_nat off ≤ k < Z.to_nat off + length d)%nat
            then d !! (k - Z.to_nat off)%nat else l !! k.
Proof.
  intros H. apply blit_Some in H as (H0 & H1 & ->).
  assert (length (take (Z.to_nat off) l) = Z.to_nat off) as Hlt
    by (rewrite length_take; lia).
  case_decide as Hk.
  - rewrite lookup_app_r by lia. rewrite Hlt. rewrite lookup_app_l by lia. done.
  - destruct (decide (k < Z.to_nat off)%nat).
    + rewrite lookup_app_l by lia. apply lookup_take_lt. lia.
    + rewrite lookup_app_r by lia. rewrite Hlt. rewrite lookup_app_r by lia.
      rewrite lookup_drop. f_equal. lia.
Qed.

Lemma slice_spec l off n d :
  slice l off n = Some d →
  0 ≤ off ∧ 0 ≤ n ∧ off + n ≤ Z.of_nat (length l) ∧
  d = take (Z.to_nat n) (drop (Z.to_nat off) l).
Proof.
  unfold slice. destruct (_ && _) eqn:E; [|discriminate].
  intros Heq. injection Heq as <-. zbool. repeat split; lia.
Qed.

Lemma slice_length l off n d : slice l off n = Some d → length d = Z.to_nat n.
Proof.
  intros H. apply slice_spec in H as (H0 & H1 & H2 & ->).
  rewrite length_take, length_drop. lia.
Qed.

Lemma slice_lookup l off n d (k : nat) :
  slice l off n = Some d → (k < Z.to_nat n)%nat → d !! k = l !! (Z.to_nat off + k)%nat.
Proof.
  intros H Hk. apply slice_spec in H as (H0 & H1 & H2 & ->).
  rewrite lookup_take_lt by lia. apply lookup_drop.
Qed.

(** What has been written is what is read back. *)
Lemma slice_blit l off d l' :
  blit l off d = Some l' → slice l' off (Z.of_nat (length d)) = Some d.
Proof.
  intros H. pose proof (blit_length _ _ _ _ H) as Hlen.
  apply blit_Some in H as (H0 & H1 & ->). unfold slice.
  rewrite Hlen.
  assert ((0 <=? off) && (0 <=? Z.of_nat (length d))
          && (off + Z.of_nat (length d) <=? Z.of_nat (length l)) = true) as ->.
  { repeat (apply andb_true_iff; split); apply Z.leb_le; lia. }
  f_equal. rewrite Nat2Z.id.
  assert (length (take (Z.to_nat off) l) = Z.to_nat off) as Hlt
    by (rewrite length_take; lia).
  rewrite drop_app_length'; [|done]. by rewrite take_app_length.
Qed.

(** A sub-range of a range. *)
Lemma slice_slice l off n d off' n' :
  slice l off n = Some d → 0 ≤ off' → 0 ≤ n' → off' + n' ≤ n →
  slice d off' n' = slice l (off + off') n'.
Proof.
  intros H Ho Hn Hle. pose proof (slice_length _ _ _ _ H) as Hlen.
  apply slice_spec in H as (H0 & H1 & H2 & ->). unfold slice. rewrite Hlen.
  assert ((0 <=? off') && (0 <=? n') && (off' + n' <=? Z.of_nat (Z.to_nat n)) = true) as ->.
  { repeat (apply andb_true_iff; split); apply Z.leb_le; lia. }
  assert ((0 <=? off + off') && (0 <=? n') && (off + off' + n' <=? Z.of_nat (length l))
          = true) as ->.
  { repeat (apply andb_true_iff; split); apply Z.leb_le; lia. }
  f_equal. apply list_eq. intros k.
  destruct (decide (k < Z.to_nat n')%nat).
  - rewrite !lookup_take_lt by lia. rewrite !lookup_drop.
    rewrite lookup_take_lt by lia. rewrite lookup_drop. f_equal. lia.
  - rewrite !lookup_take_ge by lia. done.
Qed.

Lemma slice_replicate (v : Z) (m : nat) off n :
  0 ≤ off → 0 ≤ n → off + n ≤ Z.of_nat m →
  slice (replicate m v) off n = Some (replicate (Z.to_nat n) v).
Proof.
  intros H0 H1 H2. unfold slice. rewrite length_replicate.
  assert ((0 <=? off) && (0 <=? n) && (off + n <=? Z.of_nat m) = true) as ->.
  { repeat (apply andb_true_iff; split); apply Z.leb_le; lia. }
  f_equal. rewrite drop_replicate, take_replicate. f_equal. lia.
Qed.

End Bytes.

(** * [writeZeros] *)

Section Zeros.

Lemma writeZeros_loop_spec fuel s start n i g :
  page Big 0 s = Some g →
  (∀ m, 0 ≤ m ≤ PageInfo.size (bigPages s) →
        slice (LockPage.pool g) 0 m = Some (replicate (Z.to_nat m) 0)) →
  0 < PageInfo.size (bigPages s) →
  0 ≤ start → 0 ≤ i → start + n ≤ Z.of_nat (length (store s)) →
  (Z.to_nat (n - i) < fuel)%nat →
  ∃ s', writeZeros_loop fuel s start n i = Some s' ∧
        length (store s') = length (store s) ∧
        (∀ k : nat, store s' !! k =
                    if decide (start + i ≤ Z.of_nat k < start + n) then Some 0
                    else store s !! k) ∧
        (∀ c k, page c k s' = page c k s) ∧
        (∀ c, PageInfo.freeIndex (plist c s') = PageInfo.freeIndex (plist c s) ∧
              PageInfo.lockedIndex (plist c s') = PageInfo.lockedIndex (plist c s)).
Proof.
  revert s i. induction fuel as [|fuel IH]; intros s i Hg Hzero Hsize Hstart Hi Hend Hfuel;
    [lia|].
  simpl. destruct (i <? n) eqn:Hlt; zbool.
  2:{ exists s. split; [done|]. split; [done|]. split; [|done].
      intros k. case_decide; [lia|done]. }
  set (chunk := Z.min (n - i) (PageInfo.size (bigPages s))).
  assert (0 < chunk ≤ PageInfo.size (bigPages s)) as Hchunk by (unfold chunk; lia).
  unfold doWrite. simpl. rewrite Hg. simpl. rewrite Hzero by lia. simpl.
  destruct (blit (store s) (start + i) (replicate (Z.to_nat chunk) 0)) as [st|] eqn:Hblit.
  2:{ unfold blit in Hblit. rewrite length_replicate in Hblit.
      destruct (_ && _) eqn:E in Hblit; [discriminate|].
      apply andb_false_iff in E as [E|E]; zbool; unfold chunk in *; lia. }
  simpl.
  set (s1 := set_iolog (IOWrite (start + i) chunk :: iolog s) (set_store st s)).
  pose proof (blit_length _ _ _ _ Hblit) as Hlen.
  destruct (IH s1 (i + PageInfo.size (bigPages s))) as (s' & Hrun & Hlen' & Hst' & Hpg' & Hhd');
    try done; try lia.
  { simpl. lia. }
  exists s'. split; [exact Hrun|]. split; [by rewrite Hlen'|]. split; [|split].
  - intros k. rewrite Hst'. simpl.
    rewrite (blit_lookup _ _ _ _ k Hblit). rewrite length_replicate.
    repeat case_decide; try lia; try done.
    apply lookup_replicate_2. unfold chunk in *. lia.
  - intros c k. rewrite Hpg'. by destruct c.
  - intros c. destruct (Hhd' c) as [-> ->]. by destruct c.
Qed.


(** X5.  [writeZeros(start, n)] with a positive big page size that fits the
    buffer of big page 0, on a range inside the store: the call is defined,
    every byte of the store in [start, start + n) is 0 afterwards and every
    other byte is as before.  No page but big page 0 changes, and of that
    page only the buffer, whose first [bigPages.size] bytes are zeroed
    whatever the page held. *)
Theorem writeZeros_store s start n g :
  page Big 0 s = Some g →
  0 < PageInfo.size (bigPages s) ≤ Z.of_nat (length (LockPage.pool g)) →
  0 ≤ start → 0 ≤ n → start + n ≤ Z.of_nat (length (store s)) →
  ∃ s' pool,
    writeZeros s start n = Some s' ∧
    length (store s') = length (store s) ∧
    (∀ k : nat, store s' !! k =
                if decide (start ≤ Z.of_nat k < start + n) then Some 0
                else store s !! k) ∧
    blit (LockPage.pool g) 0 (replicate (Z.to_nat (PageInfo.size (bigPages s))) 0)
      = Some pool ∧
    page Big 0 s' = Some (LockPage.set_pool pool g) ∧
    (∀ c k, c ≠ Big ∨ k ≠ 0 → page c k s' = page c k s) ∧
    (∀ c, PageInfo.freeIndex (plist c s') = PageInfo.freeIndex (plist c s) ∧
          PageInfo.lockedIndex (plist c s') = PageInfo.lockedIndex (plist c s)).
Proof.
  intros Hg Hsize Hstart Hn Hend. unfold writeZeros. rewrite Hg. simpl.
  destruct (blit (LockPage.pool g) 0
              (replicate (Z.to_nat (PageInfo.size (bigPages s))) 0)) as [pool|] eqn:Hblit.
  2:{ unfold blit in Hblit. rewrite length_replicate in Hblit.
      destruct (_ && _) eqn:E in Hblit; [discriminate|].
      apply andb_false_iff in E as [E|E]; zbool; lia. }
  simpl. set (s1 := set_page Big 0 (LockPage.set_pool pool g) s).
  assert (page Big 0 s1 = Some (LockPage.set_pool pool g)) as Hg1
    by (by eapply page_set_page_eq).
  assert (∀ m, 0 ≤ m ≤ PageInfo.size (bigPages s1) →
               slice (LockPage.pool (LockPage.set_pool pool g)) 0 m
               = Some (replicate (Z.to_nat m) 0)) as Hzero.
  { intros m Hm. simpl in Hm |- *.
    pose proof (slice_blit _ _ _ _ Hblit) as Hs. rewrite length_replicate in Hs.
    pose proof (slice_slice _ _ _ _ 0 m Hs) as Hss.
    change (0 + 0) with 0 in Hss.
    rewrite <- Hss by lia. apply slice_replicate; lia. }
  assert (PageInfo.size (bigPages s1) = PageInfo.size (bigPages s)) as Hsz1 by done.
  assert (store s1 = store s) as Hst1 by done.
  destruct (writeZeros_loop_spec (Z.to_nat n + 1) s1 start n 0 _ Hg1 Hzero)
    as (s' & Hrun & Hlen & Hst & Hpg & Hhd);
    [rewrite Hsz1; lia|done|done|rewrite Hst1; lia|lia|].
  rewrite Hst1 in Hlen, Hst.
  exists s', pool. split; [exact Hrun|]. split; [done|]. split.
  { intros k. rewrite Hst. repeat case_decide; try lia; done. }
  split; [done|]. split; [by rewrite Hpg|]. split.
  - intros c k Hk. rewrite Hpg. apply page_set_page_ne; [lia|].
      destruct Hk as [?|?]; [left; congruence|right; congruence].
  - intros c. destruct (Hhd c) as [-> ->].
    destruct (set_page_class Big 0 (LockPage.set_pool pool g) s c) as (_ & ? & ? & _).
    done.
Qed.

End Zeros.

(** * Write-back and swap-in of a big page *)

Section Sync.
Context (cfg : Config).

(** X6.  [syncBigPage] on a clean page does nothing.  On a dirty page it
    writes the first [n = min(poolSize - start, bigPages.size)] bytes of the
    buffer to the store at [start] with one call of the driver: afterwards
    the store holds the bytes of the buffer in [start, start + n), every
    other byte of the store is as before, and the page is clean with
    [cleanSkips == 0]; no other page changes. *)
Theorem syncBigPage_writes_back s i g s' :
  page Big i s = Some g → syncBigPage s i = Some s' →
  if LockPage.dirty g then
    let n := Z.min (poolSize s - LockPage.start g) (PageInfo.size (bigPages s)) in
    (∃ d, slice (LockPage.pool g) 0 n = Some d ∧
          slice (store s') (LockPage.start g) n = Some d) ∧
    (∀ k : nat, ¬ (LockPage.start g ≤ Z.of_nat k < LockPage.start g + n) →
                store s' !! k = store s !! k) ∧
    page Big i s' = Some (LockPage.set_cleanSkips 0 (LockPage.set_dirty false g)) ∧
    (∀ c k, c ≠ Big ∨ k ≠ i → page c k s' = page c k s) ∧
    iolog s' = IOWrite (LockPage.start g) n :: iolog s
  else s' = s.
Proof.
  intros Hg H. unfold syncBigPage in H. rewrite Hg in H. simpl in H.
  destruct (LockPage.dirty g); [|by injection H as <-].
  set (n := Z.min (poolSize s - LockPage.start g) (PageInfo.size (bigPages s))) in *.
  bind_inv H as Ewrite. rename b into s1. unfold doWrite in Ewrite.
  bind_inv Ewrite as Epeek. rename l into d. bind_inv Ewrite as Eblit. rename l into st.
  injection Ewrite as <-. simpl in Epeek. rewrite Hg in Epeek. simpl in Epeek.
  apply modPage_Some in H as (g1 & Hg1 & ->).
  rewrite page_set_iolog, page_set_store, Hg in Hg1. injection Hg1 as <-.
  pose proof (getPage_range _ _ _ Hg) as Hi.
  pose proof (slice_length _ _ _ _ Epeek) as Hlen.
  pose proof (slice_spec _ _ _ _ Epeek) as (_ & Hn & _ & _).
  destruct (set_page_fields Big i
              (LockPage.set_cleanSkips 0 (LockPage.set_dirty false g))
              (set_iolog (IOWrite (LockPage.start g) n :: iolog s) (set_store st s)))
    as (_ & _ & _ & _ & _ & Hstore & Hlog).
  rewrite Hstore, Hlog. simpl.
  split; [|split; [|split; [|split]]].
  - exists d. split; [done|]. pose proof (slice_blit _ _ _ _ Eblit) as Hs.
    rewrite Hlen, Z2Nat.id in Hs by lia. done.
  - intros k Hk. rewrite (blit_lookup _ _ _ _ k Eblit).
    pose proof (blit_Some _ _ _ _ Eblit) as (Hs0 & _ & _).
    case_decide; [lia|done].
  - apply page_set_page_eq with (g0 := g). by rewrite page_set_iolog, page_set_store.
  - intros c k Hk. rewrite page_set_page_ne, page_set_iolog, page_set_store; [done|lia|].
    destruct Hk as [?|?]; [left; congruence|by right].
  - done.
Qed.


Lemma store_set_page c i g s : store (set_page c i g s) = store s.
Proof. by destruct c. Qed.

Lemma iolog_set_page c i g s : iolog (set_page c i g s) = iolog s.
Proof. by destruct c. Qed.

(** X7.  Swap-in.  When no page of the free chain of big pages holds the
    range (a miss), [pullRawData] maps a page at [p] with one read of the
    driver of [min(poolSize - p, bigPages.size)] bytes at [p], and the bytes
    it hands out are the bytes the store holds at [p, p + size). *)
Theorem pullRawData_miss_reads_store s p size readonly forcestart a s' :
  findFreePage (bigPages s) p size forcestart = Some (-1) →
  0 ≤ size ≤ Z.min (poolSize s - p) (PageInfo.size (bigPages s)) →
  pullRawData cfg s p size readonly forcestart = Some (a, s') →
  ∃ j d, a = PoolPtr Big j 0 ∧
         peek s' a size = Some d ∧ slice (store s') p size = Some d ∧
         head (iolog s') =
           Some (IORead p (Z.min (poolSize s - p) (PageInfo.size (bigPages s)))).
Proof.
  intros Hmiss Hsize H. unfold pullRawData in H. rewrite Hmiss in H. simpl in H.
  bind_inv H as Escan. destruct p0 as [[pi st] sa]. simpl in H.
  bind_inv H as Eswap. rename b into s2. bind_inv H as Edirty. rename b into s3.
  bind_inv H as Eg. rename t into g3. injection H as <- <-.
  destruct (findFreePage_none_chain _ _ _ _ Hmiss) as [F HF].
  rewrite (pullScan_not_full cfg (chainFuel (bigPages s)) s p
             (PageInfo.freeIndex (bigPages s)) (-1) pi st sa Escan) in Eswap.
  simpl in Eswap.
  destruct (pullScan_closure cfg (λ _ _, True) F) with
    (fuel := chainFuel (bigPages s)) (s := s) (p := p)
    (i := PageInfo.freeIndex (bigPages s)) (pi := -1) (st := STATE_GOTNONE)
    (pi' := pi) (st' := st) (s' := sa) (l := F) as (_ & Hl & _); try done.
  unfold swapIn in Eswap.
  bind_inv Eswap as Egp. rename t into gp. bind_inv Eswap as Esync. rename b into s1.
  bind_inv Eswap as Ehint. rename b into s1'. bind_inv Eswap as Emap. rename b into s1''.
  assert (links sa s1) as Hl1.
  { destruct (negb (LockPage.start gp =? 0)); [by eapply syncBigPage_links|].
    injection Esync as <-. apply links_refl. }
  assert (links s1 s1') as Hl2.
  { destruct (stateEqb st STATE_GOTDIRTY).
    - bind_inv Ehint as Eg1. injection Ehint as <-. apply links_set_nextPageToSwap.
    - injection Ehint as <-. apply links_set_nextPageToSwap. }
  pose proof (modPage_links Big pi (LockPage.set_start p) s1' s1'' (λ g, eq_refl) Emap)
    as Hl3.
  apply modPage_Some in Emap as (gm & Hgm & ->).
  assert (links s (set_page Big pi (LockPage.set_start p gm) s1')) as Hls.
  { eapply links_trans; [done|]. eapply links_trans; [done|]. by eapply links_trans. }
  pose proof Hls as (Hheads & _ & Hps). destruct (Hheads Big) as (Hbs & _ & _).
  change (PageInfo.size (bigPages (set_page Big pi (LockPage.set_start p gm) s1'))
          = PageInfo.size (bigPages s)) in Hbs.
  rewrite Hps, Hbs in Eswap.
  set (rdsize := Z.min (poolSize s - p) (PageInfo.size (bigPages s))) in *.
  unfold doRead in Eswap. bind_inv Eswap as Eslice. rename l into d.
  destruct (set_page_fields Big pi (LockPage.set_start p gm) s1')
    as (_ & _ & _ & _ & _ & Hstore & _).
  rewrite Hstore in Eslice.
  simpl in Eswap. rewrite page_set_iolog in Eswap.
  rewrite (page_set_page_eq Big pi _ gm s1' Hgm) in Eswap. simpl in Eswap.
  bind_inv Eswap as Eblit. rename l into pool. injection Eswap as Hs2.
  symmetry in Hs2. subst s2.
  pose proof (getPage_range _ _ _ Hgm) as Hpr.
  set (g2 := LockPage.set_pool pool (LockPage.set_start p gm)) in *.
  set (sr := set_iolog (IORead p rdsize :: iolog (set_page Big pi (LockPage.set_start p gm) s1'))
               (set_page Big pi (LockPage.set_start p gm) s1')) in *.
  assert (page Big pi (set_page Big pi g2 sr) = Some g2) as Hg2.
  { apply page_set_page_eq with (g0 := LockPage.set_start p gm).
    unfold sr. rewrite page_set_iolog. by eapply page_set_page_eq. }
  assert (store (set_page Big pi g2 sr) = store s1' ∧
          iolog (set_page Big pi g2 sr) = IORead p rdsize :: iolog s1') as [Hst2 Hlog2].
  { rewrite store_set_page, iolog_set_page. unfold sr.
    change (store (set_iolog ?v ?x)) with (store x).
    change (iolog (set_iolog ?v ?x)) with v.
    by rewrite store_set_page, iolog_set_page. }
  assert (LockPage.start g3 = p ∧ LockPage.pool g3 = pool ∧
          store s3 = store s1' ∧ iolog s3 = IORead p rdsize :: iolog s1')
    as (Hs3 & Hp3 & Hst3 & Hlog3).
  { destruct readonly; simpl in Edirty.
    - injection Edirty as Heq. symmetry in Heq. subst s3.
      change (page Big pi (set_page Big pi g2 sr) = Some g3) in Eg.
      rewrite Hg2 in Eg. injection Eg as <-. done.
    - apply modPage_Some in Edirty as (gd & Hgd & Heq). subst s3.
      change (page Big pi (set_page Big pi g2 sr) = Some gd) in Hgd.
      rewrite Hg2 in Hgd. injection Hgd as <-.
      rewrite (page_set_page_eq Big pi _ g2 _ Hg2) in Eg. injection Eg as <-.
      by rewrite store_set_page, iolog_set_page. }
  rewrite Hs3, Z.sub_diag. exists pi, (take (Z.to_nat size) d).
  pose proof (slice_length _ _ _ _ Eslice) as Hlen.
  pose proof (slice_spec _ _ _ _ Eslice) as (Hp0 & Hrd0 & _ & _).
  assert (slice d 0 size = Some (take (Z.to_nat size) d)) as Hsd.
  { unfold slice. rewrite Hlen.
    assert ((0 <=? 0) && (0 <=? size) && (0 + size <=? Z.of_nat (Z.to_nat rdsize)) = true)
      as -> by (repeat (apply andb_true_iff; split); apply Z.leb_le; lia).
    by rewrite drop_0. }
  split; [done|]. split; [|split].
  - simpl. rewrite Eg. simpl. rewrite Hp3.
    pose proof (slice_blit _ _ _ _ Eblit) as Hsb. rewrite Hlen, Z2Nat.id in Hsb by lia.
    pose proof (slice_slice _ _ _ _ 0 size Hsb) as Hss. change (0 + 0) with 0 in Hss.
    rewrite <- Hss by lia. done.
  - rewrite Hst3. pose proof (slice_slice _ _ _ _ 0 size Eslice) as Hss.
    rewrite Z.add_0_r in Hss. rewrite <- Hss by lia. done.
  - by rewrite Hlog3.
Qed.

End Sync.

(** * [read] and [write] on a range that a lock holds *)

Section LockIO.
Context (cfg : Config).

Lemma soleToucher_spec s p size c k :
  soleToucher s p size c k = true → soleTouch s p size c k.
Proof.
  intros H c'. unfold soleToucher in H.
  assert (c' ∈ [Small; Medium; Big]) as Hc.
  { destruct c'; [by left|right; by left|right; right; by left]. }
  pose proof (forallb_elem _ _ _ H Hc) as Hcl. simpl in Hcl.
  destruct (lockedChain (plist c' s)) as [L'|] eqn:HL; [|discriminate].
  exists L'. split; [by apply lockedChain_chain|].
  intros x g Hx Hg Ht. pose proof (forallb_elem _ _ _ Hcl Hx) as Hpx. simpl in Hpx.
  rewrite Hg, Ht in Hpx. simpl in Hpx. zbool. done.
Qed.

Lemma touches_holds g p size : touchesRange g p size = false → holdsRange g p size = false.
Proof.
  unfold touchesRange, holdsRange. intros H. apply orb_false_iff in H as [-> _]. done.
Qed.

Lemma holds_touches g p size : holdsRange g p size = true → touchesRange g p size = true.
Proof.
  unfold touchesRange, holdsRange. intros H. apply andb_true_iff in H as [-> _]. done.
Qed.

(** The walk of [read] over pages that do not overlap the range. *)
Lemma read_scan_none fuel s c i L p size :
  chain (plist c s) i L → (length L < fuel)%nat →
  (∀ x g, x ∈ L → page c x s = Some g → touchesRange g p size = false) →
  read_scan cfg fuel s c i p size = Some (None, s).
Proof.
  intros HL. revert fuel. induction HL as [|i g L Hg HL IH]; intros fuel Hf Hno.
  - destruct fuel; [simpl in Hf; lia|]. done.
  - destruct fuel; [simpl in Hf; lia|]. simpl in *.
    assert (i ≠ -1) as Hi by (intros ->; by apply getPage_not_end in Hg).
    apply Z.eqb_neq in Hi. rewrite Hi.
    change (getPage (plist c s) i = Some g) with (page c i s = Some g) in Hg.
    rewrite Hg. simpl.
    assert (touchesRange g p size = false) as Ht by (apply (Hno i); [by left|done]).
    pose proof (touches_holds _ _ _ Ht) as Hh. unfold holdsRange in Hh.
    unfold touchesRange in Ht. rewrite Hh, Ht. simpl. rewrite Hg. simpl.
    apply IH; [lia|]. intros x gx Hx. apply Hno. by right.
Qed.

Lemma read_scan_hit fuel s c i L1 k L2 g p size :
  chain (plist c s) i (L1 ++ k :: L2) → (length (L1 ++ k :: L2) < fuel)%nat →
  (∀ x g, x ∈ L1 → page c x s = Some g → touchesRange g p size = false) →
  page c k s = Some g → holdsRange g p size = true →
  read_scan cfg fuel s c i p size = Some (Some (PoolPtr c k (p - LockPage.start g)), s).
Proof.
  revert fuel i. induction L1 as [|y L1 IH]; intros fuel i HL Hf Hno Hg Hh.
  - simpl in HL, Hf. apply chain_cons_inv in HL as (-> & _).
    destruct fuel; [lia|]. simpl.
    assert (k ≠ -1) as Hi by (intros ->; by apply getPage_not_end in Hg).
    apply Z.eqb_neq in Hi. rewrite Hi, Hg. simpl.
    unfold holdsRange in Hh. by rewrite Hh.
  - simpl in HL, Hf. apply chain_cons_inv in HL as (-> & gy & Hgy & HL).
    change (page c y s = Some gy) in Hgy.
    destruct fuel; [lia|]. simpl.
    assert (y ≠ -1) as Hi by (intros ->; by apply getPage_not_end in Hgy).
    apply Z.eqb_neq in Hi. rewrite Hi, Hgy. simpl.
    assert (touchesRange gy p size = false) as Ht by (apply (Hno y); [by left|done]).
    pose proof (touches_holds _ _ _ Ht) as Hhy. unfold holdsRange in Hhy.
    unfold touchesRange in Ht. rewrite Hhy, Ht. simpl. rewrite Hgy. simpl.
    apply IH; [done|lia| |done|done]. intros x gx Hx. apply Hno. by right.
Qed.


Lemma soleTouch_other s p size c k c' :
  soleTouch s p size c k → c' ≠ c →
  ∃ L', chain (plist c' s) (PageInfo.lockedIndex (plist c' s)) L' ∧
        ∀ x g, x ∈ L' → page c' x s = Some g → touchesRange g p size = false.
Proof.
  intros H Hne. destruct (H c') as (L' & HL' & Honly). exists L'. split; [done|].
  intros x g Hx Hg. destruct (touchesRange g p size) eqn:Ht; [|done].
  destruct (Honly x g Hx Hg Ht) as [? _]. done.
Qed.

Lemma soleTouch_split s p size c k L :
  soleTouch s p size c k →
  chain (plist c s) (PageInfo.lockedIndex (plist c s)) L → k ∈ L →
  ∃ L1 L2, L = L1 ++ k :: L2 ∧
           ∀ x g, x ∈ L1 → page c x s = Some g → touchesRange g p size = false.
Proof.
  intros H HL Hk. destruct (H c) as (L' & HL' & Honly).
  assert (L' = L) as -> by (by eapply chain_det).
  apply list_elem_of_split in Hk as (L1 & L2 & ->). exists L1, L2. split; [done|].
  intros x g Hx Hg. destruct (touchesRange g p size) eqn:Ht; [|done].
  destruct (Honly x g) as [_ ->]; [apply elem_of_app; by left|done|done|].
  pose proof (chain_NoDup _ _ _ HL) as Hnd. apply NoDup_app in Hnd as (_ & Hd & _).
  exfalso. apply (Hd k Hx). by left.
Qed.

Lemma read_class_none s c p size L :
  chain (plist c s) (PageInfo.lockedIndex (plist c s)) L →
  (∀ x g, x ∈ L → page c x s = Some g → touchesRange g p size = false) →
  read_class cfg s c p size = Some (None, s).
Proof.
  intros HL Hno. unfold read_class. eapply read_scan_none; [done| |done].
  by eapply chain_fuel.
Qed.

Lemma read_class_hit s c p size L k g :
  soleTouch s p size c k →
  chain (plist c s) (PageInfo.lockedIndex (plist c s)) L → k ∈ L →
  page c k s = Some g → holdsRange g p size = true →
  read_class cfg s c p size = Some (Some (PoolPtr c k (p - LockPage.start g)), s).
Proof.
  intros H HL Hk Hg Hh. destruct (soleTouch_split _ _ _ _ _ _ H HL Hk) as (L1 & L2 & -> & Hno).
  unfold read_class. eapply read_scan_hit; [done| |done|done|done].
  by eapply chain_fuel.
Qed.

Lemma read_hit s p size c k g L :
  soleTouch s p size c k →
  chain (plist c s) (PageInfo.lockedIndex (plist c s)) L → k ∈ L →
  page c k s = Some g → holdsRange g p size = true →
  read cfg s p size = Some (PoolPtr c k (p - LockPage.start g), s).
Proof.
  intros H HL Hk Hg Hh. unfold read.
  pose proof (read_class_hit _ _ _ _ _ _ _ H HL Hk Hg Hh) as Hhit.
  destruct c.
  - by rewrite Hhit.
  - destruct (soleTouch_other _ _ _ _ _ Small H) as (Ls & HLs & Hnos); [done|].
    rewrite (read_class_none _ _ _ _ _ HLs Hnos). simpl. by rewrite Hhit.
  - destruct (soleTouch_other _ _ _ _ _ Small H) as (Ls & HLs & Hnos); [done|].
    destruct (soleTouch_other _ _ _ _ _ Medium H) as (Lm & HLm & Hnom); [done|].
    rewrite (read_class_none _ _ _ _ _ HLs Hnos). simpl.
    rewrite (read_class_none _ _ _ _ _ HLm Hnom). simpl. by rewrite Hhit.
Qed.

(** X8.  When one page of the locked chains holds the whole range of a
    [read] and no other locked page overlaps the range, [read] returns the
    address of the range inside the buffer of that page and changes nothing:
    no page is swapped, the driver is not called. *)
Theorem read_inside_lock s p size c k g L :
  soleToucher s p size c k = true →
  lockedChain (plist c s) = Some L → k ∈ L →
  page c k s = Some g → holdsRange g p size = true →
  read cfg s p size = Some (PoolPtr c k (p - LockPage.start g), s).
Proof.
  intros H HL. apply soleToucher_spec in H. apply lockedChain_chain in HL.
  by apply read_hit.
Qed.


(** The walk of [write] over pages that do not overlap the range. *)
Lemma write_scan_none fuel s c i L p d size :
  chain (plist c s) i L → (length L < fuel)%nat →
  (∀ x g, x ∈ L → page c x s = Some g → touchesRange g p size = false) →
  write_scan fuel s c i p d size = Some (false, s).
Proof.
  intros HL. revert fuel. induction HL as [|i g L Hg HL IH]; intros fuel Hf Hno.
  - destruct fuel; [simpl in Hf; lia|]. done.
  - destruct fuel; [simpl in Hf; lia|]. simpl in *.
    assert (i ≠ -1) as Hi by (intros ->; by apply getPage_not_end in Hg).
    apply Z.eqb_neq in Hi. rewrite Hi.
    change (getPage (plist c s) i = Some g) with (page c i s = Some g) in Hg.
    rewrite Hg. simpl.
    assert (touchesRange g p size = false) as Ht by (apply (Hno i); [by left|done]).
    unfold touchesRange in Ht. rewrite Ht. apply orb_false_iff in Ht as [-> ->].
    rewrite andb_false_r. apply IH; [lia|]. intros x gx Hx. apply Hno. by right.
Qed.

Lemma write_scan_hit fuel s c i L1 k L2 g p d size :
  chain (plist c s) i (L1 ++ k :: L2) → (length (L1 ++ k :: L2) < fuel)%nat →
  (∀ x g, x ∈ L1 → page c x s = Some g → touchesRange g p size = false) →
  page c k s = Some g → holdsRange g p size = true →
  write_scan fuel s c i p d size =
  (s2 ← memcpy (if negb (LockPage.dirty g)
                then set_page c k (LockPage.set_dirty true g) s else s)
               (PoolPtr c k (p - LockPage.start g)) d size;
   Some (true, s2)).
Proof.
  revert fuel i. induction L1 as [|y L1 IH]; intros fuel i HL Hf Hno Hg Hh.
  - simpl in HL, Hf. apply chain_cons_inv in HL as (-> & _).
    destruct fuel; [lia|]. simpl.
    assert (k ≠ -1) as Hi by (intros ->; by apply getPage_not_end in Hg).
    apply Z.eqb_neq in Hi. rewrite Hi, Hg. simpl.
    unfold holdsRange in Hh. apply andb_true_iff in Hh as [Hb Hfit].
    rewrite Hb, Hfit. simpl. by rewrite andb_true_r.
  - simpl in HL, Hf. apply chain_cons_inv in HL as (-> & gy & Hgy & HL).
    change (page c y s = Some gy) in Hgy.
    destruct fuel; [lia|]. simpl.
    assert (y ≠ -1) as Hi by (intros ->; by apply getPage_not_end in Hgy).
    apply Z.eqb_neq in Hi. rewrite Hi, Hgy. simpl.
    assert (touchesRange gy p size = false) as Ht by (apply (Hno y); [by left|done]).
    unfold touchesRange in Ht. rewrite Ht. apply orb_false_iff in Ht as [-> ->].
    rewrite andb_false_r.
    apply IH; [done|lia| |done|done]. intros x gx Hx. apply Hno. by right.
Qed.

Lemma write_class_none s c p d size L :
  chain (plist c s) (PageInfo.lockedIndex (plist c s)) L →
  (∀ x g, x ∈ L → page c x s = Some g → touchesRange g p size = false) →
  write_class s c p d size = Some (false, s).
Proof.
  intros HL Hno. unfold write_class. eapply write_scan_none; [done| |done].
  by eapply chain_fuel.
Qed.

Lemma write_hit s p size c k g L d :
  soleTouch s p size c k →
  chain (plist c s) (PageInfo.lockedIndex (plist c s)) L → k ∈ L →
  page c k s = Some g → holdsRange g p size = true →
  write cfg s p d size =
  memcpy (if negb (LockPage.dirty g)
          then set_page c k (LockPage.set_dirty true g) s else s)
         (PoolPtr c k (p - LockPage.start g)) d size.
Proof.
  intros H HL Hk Hg Hh.
  destruct (soleTouch_split _ _ _ _ _ _ H HL Hk) as (L1 & L2 & -> & Hno).
  assert (write_class s c p d size =
          (s2 ← memcpy (if negb (LockPage.dirty g)
                        then set_page c k (LockPage.set_dirty true g) s else s)
                       (PoolPtr c k (p - LockPage.start g)) d size;
           Some (true, s2))) as Hhit.
  { unfold write_class. eapply write_scan_hit; [done| |done|done|done].
    by eapply chain_fuel. }
  unfold write.
  destruct c.
  - rewrite Hhit. by destruct (memcpy _ _ _ _).
  - destruct (soleTouch_other _ _ _ _ _ Small H) as (Ls & HLs & Hnos); [done|].
    rewrite (write_class_none _ _ _ _ _ _ HLs Hnos). simpl.
    rewrite Hhit. by destruct (memcpy _ _ _ _).
  - destruct (soleTouch_other _ _ _ _ _ Small H) as (Ls & HLs & Hnos); [done|].
    destruct (soleTouch_other _ _ _ _ _ Medium H) as (Lm & HLm & Hnom); [done|].
    rewrite (write_class_none _ _ _ _ _ _ HLs Hnos). simpl.
    rewrite (write_class_none _ _ _ _ _ _ HLm Hnom). simpl.
    rewrite Hhit. by destruct (memcpy _ _ _ _).
Qed.


Lemma set_dirty_same g : LockPage.dirty g = true → LockPage.set_dirty true g = g.
Proof. destruct g. simpl. by intros ->. Qed.

(** X9.  When one page of the locked chains holds the whole range of a
    [write] and no other locked page overlaps the range, the bytes go into
    the buffer of that page at offset [p - start] and the page is dirty; no
    other page changes and the driver is not called.  A [read] of the same
    range right after returns these bytes, again without any change. *)
Theorem write_read_inside_lock s p size c k g L data :
  soleToucher s p size c k = true →
  lockedChain (plist c s) = Some L → k ∈ L →
  page c k s = Some g → holdsRange g p size = true →
  0 ≤ size ≤ Z.of_nat (length data) →
  LockPage.size g ≤ Z.of_nat (length (LockPage.pool g)) →
  ∃ s' pool,
    write cfg s p (UserBuf data) size = Some s' ∧
    readBytes cfg s' p size = Some (take (Z.to_nat size) data, s') ∧
    blit (LockPage.pool g) (p - LockPage.start g) (take (Z.to_nat size) data) = Some pool ∧
    page c k s' = Some (LockPage.set_pool pool (LockPage.set_dirty true g)) ∧
    (∀ c' x, c' ≠ c ∨ x ≠ k → page c' x s' = page c' x s) ∧
    store s' = store s ∧ iolog s' = iolog s.
Proof.
  intros H HL Hk Hg Hh Hsize Hpool.
  apply soleToucher_spec in H. apply lockedChain_chain in HL.
  pose proof (getPage_range _ _ _ Hg) as Hkr.
  pose proof Hh as Hh'. unfold holdsRange, beginOverlaps in Hh'.
  apply andb_true_iff in Hh' as [Hb Hfit]. apply andb_true_iff in Hb as [Hb1 Hb2]. zbool.
  set (dd := take (Z.to_nat size) data).
  assert (length dd = Z.to_nat size) as Hdd by (unfold dd; rewrite length_take; lia).
  destruct (blit (LockPage.pool g) (p - LockPage.start g) dd) as [pool|] eqn:Hblit.
  2:{ unfold blit in Hblit. rewrite Hdd in Hblit.
      destruct (_ && _) eqn:E in Hblit; [discriminate|].
      apply andb_false_iff in E as [E|E]; zbool; lia. }
  set (s1 := if negb (LockPage.dirty g)
             then set_page c k (LockPage.set_dirty true g) s else s).
  assert (page c k s1 = Some (LockPage.set_dirty true g) ∧ links s s1 ∧
          (∀ c' x, c' ≠ c ∨ x ≠ k → page c' x s1 = page c' x s) ∧
          store s1 = store s ∧ iolog s1 = iolog s) as (Hg1 & Hl1 & Ho1 & Hst1 & Hlog1).
  { subst s1. destruct (LockPage.dirty g) eqn:Hd; simpl.
    - rewrite set_dirty_same by done. split; [done|]. split; [apply links_refl|done].
    - split; [by eapply page_set_page_eq|]. split; [by eapply links_set_page|].
      split; [|by destruct c].
      intros c' x Hx. apply page_set_page_ne; [lia|].
      destruct Hx as [?|?]; [left; congruence|by right]. }
  set (s' := set_page c k (LockPage.set_pool pool (LockPage.set_dirty true g)) s1).
  assert (write cfg s p (UserBuf data) size = Some s') as Hwrite.
  { rewrite (write_hit _ _ _ _ _ _ _ _ H HL Hk Hg Hh). fold s1.
    unfold memcpy. simpl. unfold slice. simpl.
    assert ((0 <=? size) && (0 + size <=? Z.of_nat (length data)) = true) as ->.
    { apply andb_true_iff. split; apply Z.leb_le; lia. }
    simpl. rewrite drop_0. fold dd. rewrite Hg1. simpl. rewrite Hblit. done. }
  assert (page c k s' = Some (LockPage.set_pool pool (LockPage.set_dirty true g))) as Hg'
    by (by eapply page_set_page_eq).
  assert (∀ c' x, c' ≠ c ∨ x ≠ k → page c' x s' = page c' x s) as Ho'.
  { intros c' x Hx. unfold s'. rewrite page_set_page_ne; [by apply Ho1|lia|].
    destruct Hx as [?|?]; [left; congruence|by right]. }
  assert (links s s') as Hl'.
  { eapply links_trans; [done|]. by eapply links_set_page. }
  assert (soleTouch s' p size c k) as H'.
  { intros c'. destruct (H c') as (L' & HL' & Honly). exists L'. split.
    - pose proof Hl' as (Hheads & _ & _). destruct (Hheads c') as (_ & _ & ->).
      by eapply chain_links.
    - intros x gx Hx Hgx Ht.
      destruct (decide (c' = c ∧ x = k)) as [?|Hne]; [done|].
      rewrite Ho' in Hgx; [by eapply Honly|].
      destruct (decide (c' = c)) as [->|]; [right|by left]. intros ->. by apply Hne. }
  assert (chain (plist c s') (PageInfo.lockedIndex (plist c s')) L) as HL'.
  { pose proof Hl' as (Hheads & _ & _). destruct (Hheads c) as (_ & _ & ->).
    by eapply chain_links. }
  exists s', pool. split; [done|]. split.
  { unfold readBytes.
    rewrite (read_hit _ _ _ _ _ _ _ H' HL' Hk Hg' Hh). simpl. rewrite Hg'. simpl.
    pose proof (slice_blit _ _ _ _ Hblit) as Hs. rewrite Hdd, Z2Nat.id in Hs by lia.
    by rewrite Hs. }
  split; [done|]. split; [done|]. split; [done|].
  destruct (set_page_fields c k (LockPage.set_pool pool (LockPage.set_dirty true g)) s1)
    as (_ & _ & _ & _ & _ & Hst & Hlog).
  unfold s'. rewrite Hst, Hlog. done.
Qed.

End LockIO.

(** * What the paging engine leaves alone *)

Section Frames.
Context (cfg : Config).

Lemma links_length c s s' :
  links s s' → length (PageInfo.pages (plist c s')) = length (PageInfo.pages (plist c s)).
Proof.
  intros Hl.
  assert (∀ a b, links a b →
            (length (PageInfo.pages (plist c b)) ≤ length (PageInfo.pages (plist c a)))%nat)
    as Hle.
  { intros a b (_ & Hn & _). apply Nat.nlt_ge. intros Hlt.
    specialize (Hn c (Z.of_nat (length (PageInfo.pages (plist c a))))).
    unfold page, getPage in Hn.
    destruct (0 <=? _) eqn:E in Hn; [|zbool; lia]. rewrite Nat2Z.id in Hn.
    rewrite (lookup_ge_None_2 (PageInfo.pages (plist c a))) in Hn by lia.
    destruct (lookup_lt_is_Some_2 (PageInfo.pages (plist c b))
                (length (PageInfo.pages (plist c a))) Hlt) as [y Hy].
    rewrite Hy in Hn. discriminate. }
  apply Nat.le_antisymm; apply Hle; [done|by apply links_sym].
Qed.

Lemma links_chainList c s s' fuel i :
  links s s' → chainList fuel (plist c s') i = chainList fuel (plist c s) i.
Proof.
  intros Hl. revert i. induction fuel as [|fuel IH]; intros i; [done|].
  simpl. destruct (i =? -1); [done|].
  pose proof Hl as (_ & Hnext & _). specialize (Hnext c i). unfold page in Hnext.
  destruct (getPage (plist c s') i) as [g'|], (getPage (plist c s) i) as [g|];
    simpl in *; try done.
  injection Hnext as ->. by rewrite IH.
Qed.

(** States with the same links have the same chains. *)
Lemma links_chains c s s' :
  links s s' →
  freeChain (plist c s') = freeChain (plist c s) ∧
  lockedChain (plist c s') = lockedChain (plist c s).
Proof.
  intros Hl. unfold freeChain, lockedChain, chainFuel.
  rewrite (links_length c s s' Hl).
  pose proof Hl as (Hheads & _ & _). destruct (Hheads c) as (_ & -> & ->).
  split; by apply links_chainList.
Qed.

(** X10.  [pullRawData] changes no page outside the free chain of big pages
    (locked buffers and all small and medium pages are as before), no lock
    count, no chain and no register of the free list.  The pointer it returns
    is at offset [p - start] of the buffer of a page of that chain, which is
    mapped at [p] or holds the range in the sense of [findFreePage], and is
    dirty unless the call is read-only. *)
Theorem pullRawData_frame s p size readonly forcestart a s' F :
  freeChain (bigPages s) = Some F →
  pullRawData cfg s p size readonly forcestart = Some (a, s') →
  (∀ c k, c ≠ Big ∨ k ∉ F → page c k s' = page c k s) ∧
  (∀ c k g, page c k s = Some g →
            ∃ g', page c k s' = Some g' ∧ LockPage.locks g' = LockPage.locks g ∧
                  LockPage.next g' = LockPage.next g) ∧
  (∀ c, freeChain (plist c s') = freeChain (plist c s) ∧
        lockedChain (plist c s') = lockedChain (plist c s)) ∧
  listFields s s' ∧
  ∃ j g', a = PoolPtr Big j (p - LockPage.start g') ∧ j ∈ F ∧
          page Big j s' = Some g' ∧
          (readonly = false → LockPage.dirty g' = true) ∧
          (LockPage.start g' = p ∨ fitsFree g' p size forcestart = true).
Proof.
  intros HF H. apply freeChain_chain in HF.
  destruct (pullRawData_footprint cfg F _ _ _ _ _ _ _ HF H)
    as ([Hout Hlocks] & Hl & j & g' & -> & Hj & Hg' & Hd & Hmap).
  split; [done|]. split.
  { intros c k g Hg. destruct (Hlocks c k g Hg) as (g1 & Hg1 & Hl1).
    destruct (links_page c k s s' g Hl Hg) as (g2 & Hg2 & Hn2).
    rewrite Hg1 in Hg2. injection Hg2 as <-. eauto. }
  split; [intros c; by apply links_chains|].
  split; [by eapply pullRawData_listFields|].
  exists j, g'. split; [done|]. split; [done|]. split; [done|]. split; [done|].
  destruct Hmap as [[? _]|?]; [by left|by right].
Qed.


(** X11.  [freeLockedPage(pinfo, index)] on a page of the locked chain: the
    page leaves the locked chain, whose other pages keep their order, and
    becomes the head of the free chain with lock count 0; the result is the
    page that followed it in the locked chain ([-1] at the end).  The chains
    of the other classes are as before, and every other page keeps [start],
    [size] and [locks]. *)
Theorem freeLockedPage_moves_page s c i ret s' L1 L2 Fr :
  lockedChain (plist c s) = Some (L1 ++ i :: L2) →
  freeChain (plist c s) = Some Fr →
  (∀ x, x ∈ Fr → x ∉ L1 ++ i :: L2) →
  freeLockedPage s c i = Some (ret, s') →
  lockedChain (plist c s') = Some (L1 ++ L2) ∧
  freeChain (plist c s') = Some (i :: Fr) ∧
  ret = default (-1) (head L2) ∧
  (∀ c' l, c' ≠ c →
     (freeChain (plist c' s) = Some l → freeChain (plist c' s') = Some l) ∧
     (lockedChain (plist c' s) = Some l → lockedChain (plist c' s') = Some l)) ∧
  (∀ c' k g, ¬ (c' = c ∧ k = i) → page c' k s = Some g →
     ∃ g', page c' k s' = Some g' ∧ LockPage.start g' = LockPage.start g ∧
           LockPage.size g' = LockPage.size g ∧ LockPage.locks g' = LockPage.locks g) ∧
  (∀ g, page c i s = Some g → ∃ g', page c i s' = Some g' ∧ LockPage.locks g' = 0).
Proof.
  intros HL HF Hdisj H. apply lockedChain_chain in HL. apply freeChain_chain in HF.
  destruct (freeLockedPage_effect _ _ _ _ _ _ _ _ HL HF Hdisj H)
    as (HL' & HF' & Hret & Hoth & _ & _ & Hkept & Hzero).
  split; [by apply chain_lockedChain|]. split; [by apply chain_freeChain|]. split.
  { destruct L2 as [|x L2]; simpl.
    - inversion Hret; by subst.
    - by apply chain_cons_inv in Hret as (-> & _). }
  split.
  { intros c' l Hc'. destruct (Hoth c' Hc') as (Hch & Hfi & Hli). split; intros Hl.
    - apply chain_freeChain. rewrite Hfi. apply Hch. by apply freeChain_chain.
    - apply chain_lockedChain. rewrite Hli. apply Hch. by apply lockedChain_chain. }
  split; [|done].
  intros c' k g Hne Hg. destruct (Hkept c' k g Hg) as (g' & Hg' & Hk).
  exists g'. split; [done|]. by apply Hk.
Qed.


Lemma pushRawData_footprint F s p d size s' :
  chain (bigPages s) (PageInfo.freeIndex (bigPages s)) F →
  pushRawData cfg s p d size = Some s' →
  footprint F s s' ∧ links s s'.
Proof.
  intros HF H. unfold pushRawData in H. bind_inv H as Epull.
  destruct p0 as [pool s1]. simpl in H.
  destruct (pullRawData_footprint cfg F _ _ _ _ _ _ _ HF Epull)
    as (Hf1 & Hl1 & j & g' & -> & Hj & Hg' & _).
  pose proof (memcpy_links _ _ _ _ _ H) as Hl2.
  apply memcpy_Some in H as (c & i & off & g & l & d' & Hdest & Hg & _ & _ & ->).
  injection Hdest as <- <- _. rewrite Hg' in Hg. injection Hg as <-.
  split; [|by eapply links_trans].
  eapply footprint_trans; [done|]. by apply (footprint_set_page F j g').
Qed.

Lemma bigFree_links F s s' :
  links s s' → chain (bigPages s) (PageInfo.freeIndex (bigPages s)) F →
  chain (bigPages s') (PageInfo.freeIndex (bigPages s')) F.
Proof.
  intros Hl HF. pose proof Hl as (Hheads & _ & _). destruct (Hheads Big) as (_ & Hfi & _).
  change (bigPages s') with (plist Big s'). rewrite Hfi. by apply (chain_links Big s s').
Qed.

Lemma read_scan_footprint fuel s c i p size r s' F :
  chain (bigPages s) (PageInfo.freeIndex (bigPages s)) F →
  read_scan cfg fuel s c i p size = Some (r, s') →
  footprint F s s' ∧ links s s' ∧
  ∀ a, r = Some a → ∃ k off g, a = PoolPtr c k off ∧ page c k s' = Some g.
Proof.
  revert s i. induction fuel as [|fuel IH]; intros s i HF H; [discriminate|].
  simpl in H. destruct (i =? -1).
  { injection H as <- <-. split; [apply footprint_refl|]. split; [apply links_refl|done]. }
  bind_inv H as Eg. rename t into g. destruct (_ && _).
  { injection H as <- <-. split; [apply footprint_refl|]. split; [apply links_refl|].
    intros a Ha. injection Ha as <-. eauto. }
  bind_inv H as Epush. rename b into s1. bind_inv H as Eg1.
  assert (footprint F s s1 ∧ links s s1) as [Hf1 Hl1].
  { destruct (_ || _); [by eapply pushRawData_footprint|].
    injection Epush as <-. split; [apply footprint_refl|apply links_refl]. }
  apply IH in H as (Hf2 & Hl2 & Hr); [|by eapply bigFree_links].
  split; [by eapply footprint_trans|]. split; [by eapply links_trans|done].
Qed.

Lemma read_class_footprint s c p size r s' F :
  chain (bigPages s) (PageInfo.freeIndex (bigPages s)) F →
  read_class cfg s c p size = Some (r, s') →
  footprint F s s' ∧ links s s' ∧
  ∀ a, r = Some a → ∃ k off g, a = PoolPtr c k off ∧ page c k s' = Some g.
Proof. apply read_scan_footprint. Qed.

(** X12.  [read] changes no page outside the free chain of big pages: the
    buffers of locked pages and all small and medium pages are byte for byte
    as before.  It changes no lock count, no chain and no register of the
    free list, and it returns a pointer into the buffer of a page. *)
Theorem read_frame s p size a s' F :
  freeChain (bigPages s) = Some F →
  read cfg s p size = Some (a, s') →
  (∀ c k, c ≠ Big ∨ k ∉ F → page c k s' = page c k s) ∧
  (∀ c k g, page c k s = Some g →
            ∃ g', page c k s' = Some g' ∧ LockPage.locks g' = LockPage.locks g ∧
                  LockPage.next g' = LockPage.next g) ∧
  (∀ c, freeChain (plist c s') = freeChain (plist c s) ∧
        lockedChain (plist c s') = lockedChain (plist c s)) ∧
  listFields s s' ∧
  ∃ c k off g, a = PoolPtr c k off ∧ page c k s' = Some g.
Proof.
  intros HF H. apply freeChain_chain in HF.
  pose proof (read_listFields _ _ _ _ _ _ H) as Hfields.
  assert (footprint F s s' ∧ links s s' ∧
          ∃ c k off g, a = PoolPtr c k off ∧ page c k s' = Some g) as (Hf & Hl & Ha).
  { unfold read in H.
    bind_inv H as E1. destruct p0 as [r1 s1]. cbv beta iota in H.
    apply (read_class_footprint _ _ _ _ _ _ F) in E1 as (Hf1 & Hl1 & Hr1); [|done].
    destruct r1 as [a1|].
    { injection H as <- <-. split; [done|]. split; [done|].
      destruct (Hr1 a1 eq_refl) as (k & off & g & -> & Hg). eauto 6. }
    bind_inv H as E2. destruct p0 as [r2 s2]. cbv beta iota in H.
    apply (read_class_footprint _ _ _ _ _ _ F) in E2 as (Hf2 & Hl2 & Hr2);
      [|by eapply bigFree_links].
    pose proof (footprint_trans _ _ _ _ Hf1 Hf2) as Hf12.
    pose proof (links_trans _ _ _ Hl1 Hl2) as Hl12.
    destruct r2 as [a2|].
    { injection H as <- <-. split; [done|]. split; [done|].
      destruct (Hr2 a2 eq_refl) as (k & off & g & -> & Hg). eauto 6. }
    bind_inv H as E3. destruct p0 as [r3 s3]. cbv beta iota in H.
    apply (read_class_footprint _ _ _ _ _ _ F) in E3 as (Hf3 & Hl3 & Hr3);
      [|by eapply bigFree_links].
    pose proof (footprint_trans _ _ _ _ Hf12 Hf3) as Hf123.
    pose proof (links_trans _ _ _ Hl12 Hl3) as Hl123.
    destruct r3 as [a3|].
    { injection H as <- <-. split; [done|]. split; [done|].
      destruct (Hr3 a3 eq_refl) as (k & off & g & -> & Hg). eauto 6. }
    destruct (pullRawData_footprint cfg F _ _ _ _ _ _ _ (bigFree_links _ _ _ Hl123 HF) H)
      as (Hf4 & Hl4 & j & g' & -> & Hj & Hg' & _).
    split; [by eapply footprint_trans|]. split; [by eapply links_trans|]. eauto 6. }
  destruct Hf as [Hout Hlocks].
  split; [done|]. split.
  { intros c k g Hg. destruct (Hlocks c k g Hg) as (g1 & Hg1 & Hl1).
    destruct (links_page c k s s' g Hl Hg) as (g2 & Hg2 & Hn2).
    rewrite Hg1 in Hg2. injection Hg2 as <-. eauto. }
  split; [intros c; by apply links_chains|]. done.
Qed.


Lemma write_scan_softEq fuel s c i p d size r s' :
  write_scan fuel s c i p d size = Some (r, s') → softEq s s'.
Proof.
  revert s i. induction fuel as [|fuel IH]; intros s i H; [discriminate|].
  simpl in H. destruct (i =? -1); [injection H as <- <-; apply softEq_refl|].
  bind_inv H as Eg. rename t into g.
  set (s1 := if negb (LockPage.dirty g) && (beginOverlaps g p || endOverlaps g p (p + size))
             then set_page c i (LockPage.set_dirty true g) s else s) in H.
  assert (softEq s s1) as Hs1.
  { subst s1. destruct (_ && _); [|apply softEq_refl]. by eapply softEq_set_page. }
  destruct (beginOverlaps g p).
  - destruct (_ <=? _).
    + bind_inv H as Ecpy. injection H as <- <-.
      eapply softEq_trans; [done|]. by eapply memcpy_softEq.
    + bind_inv H as Ecpy. bind_inv H as Eg2. apply IH in H.
      eapply softEq_trans; [done|]. eapply softEq_trans; [by eapply memcpy_softEq|done].
  - destruct (endOverlaps g p (p + size)).
    + bind_inv H as Ecpy. bind_inv H as Eg2. apply IH in H.
      eapply softEq_trans; [done|]. eapply softEq_trans; [by eapply memcpy_softEq|done].
    + apply IH in H. by eapply softEq_trans.
Qed.

Lemma write_class_softEq s c p d size r s' :
  write_class s c p d size = Some (r, s') → softEq s s'.
Proof. apply write_scan_softEq. Qed.

Lemma softEq_listFields s s' : softEq s s' → listFields s s'.
Proof. intros (_ & _ & _ & ? & ? & ? & ?). by repeat split. Qed.

(** X13.  [write] leaves the books of every page outside the free chain of
    big pages alone: a locked page and every small or medium page keeps
    [start], [size], [locks], [cleanSkips] and [next] (only buffers and dirty
    flags change).  It changes no lock count, no chain and no register of the
    free list. *)
Theorem write_frame s p d size s' F :
  freeChain (bigPages s) = Some F →
  write cfg s p d size = Some s' →
  (∀ c k, c ≠ Big ∨ k ∉ F → (meta <$> page c k s') = (meta <$> page c k s)) ∧
  (∀ c k g, page c k s = Some g →
            ∃ g', page c k s' = Some g' ∧ LockPage.locks g' = LockPage.locks g ∧
                  LockPage.next g' = LockPage.next g) ∧
  (∀ c, freeChain (plist c s') = freeChain (plist c s) ∧
        lockedChain (plist c s') = lockedChain (plist c s)) ∧
  listFields s s'.
Proof.
  intros HF H. apply freeChain_chain in HF.
  assert (∃ s3, softEq s s3 ∧ (s' = s3 ∨ pushRawData cfg s3 p d size = Some s'))
    as (s3 & Hs3 & Hlast).
  { unfold write in H.
    bind_inv H as E1. destruct p0 as [r1 s1]. cbv beta iota in H.
    apply write_class_softEq in E1.
    destruct r1; [injection H as <-; eauto|].
    bind_inv H as E2. destruct p0 as [r2 s2]. cbv beta iota in H.
    apply write_class_softEq in E2. pose proof (softEq_trans _ _ _ E1 E2) as E12.
    destruct r2; [injection H as <-; eauto|].
    bind_inv H as E3. destruct p0 as [r3 s3]. cbv beta iota in H.
    apply write_class_softEq in E3. pose proof (softEq_trans _ _ _ E12 E3) as E123.
    destruct r3; [injection H as <-; eauto|]. eauto. }
  assert (footprint F s3 s' ∧ links s3 s' ∧ listFields s3 s') as (Hf & Hl & Hfields).
  { destruct Hlast as [->|Hpush].
    - split; [apply footprint_refl|]. split; [apply links_refl|apply listFields_refl].
    - destruct (pushRawData_footprint F _ _ _ _ _
                  (bigFree_links _ _ _ (softEq_links _ _ Hs3) HF) Hpush) as [? ?].
      split; [done|]. split; [done|]. by eapply pushRawData_listFields. }
  destruct Hf as [Hout Hlocks]. pose proof Hs3 as (_ & Hmeta & _).
  assert (links s s') as Hls by (eapply links_trans; [by apply softEq_links|done]).
  split; [|split; [|split]].
  - intros c k Hk. by rewrite Hout, Hmeta.
  - intros c k g Hg. destruct (softEq_page c k s s3 g Hs3 Hg) as (g3 & Hg3 & Hm3).
    destruct (Hlocks c k g3 Hg3) as (g' & Hg' & Hl').
    destruct (links_page c k s s' g Hls Hg) as (g2 & Hg2 & Hn2).
    rewrite Hg' in Hg2. injection Hg2 as <-. exists g'. split; [done|].
    unfold meta in Hm3. injection Hm3 as _ _ Hlk _ _. split; [congruence|done].
  - intros c. by apply links_chains.
  - eapply listFields_trans; [by apply softEq_listFields|done].
Qed.

End Frames.

(** * [findLockedPage]: the lock that owns an address *)

Section Lookup.

Lemma findLockedPage_loop_spec q i L fuel p :
  chain q i L → (length L < fuel)%nat →
  ∃ r, findLockedPage_loop fuel q i p = Some r ∧
       ((r = -1 ∧ ∀ x g, x ∈ L → getPage q x = Some g → ownsAddr g p = false) ∨
        (∃ L1 L2 g, L = L1 ++ r :: L2 ∧ getPage q r = Some g ∧ ownsAddr g p = true ∧
                    ∀ x g, x ∈ L1 → getPage q x = Some g → ownsAddr g p = false)).
Proof.
  intros HL. revert fuel. induction HL as [|i g L Hg HL IH]; intros fuel Hf.
  - destruct fuel; [simpl in Hf; lia|]. exists (-1). split; [done|]. left.
    split; [done|]. intros x gx Hx. by apply elem_of_nil in Hx.
  - destruct fuel; [simpl in Hf; lia|]. simpl in *.
    assert (i ≠ -1) as Hi by (intros ->; by apply getPage_not_end in Hg).
    apply Z.eqb_neq in Hi. rewrite Hi, Hg. simpl.
    destruct (ownsAddr g p) eqn:Ho.
    + exists i. split; [done|]. right. exists [], L, g. split; [done|].
      split; [done|]. split; [done|]. intros x gx Hx. by apply elem_of_nil in Hx.
    + destruct (IH fuel) as (r & Hr & Hcase); [lia|]. exists r. split; [done|].
      destruct Hcase as [[-> Hno]|(L1 & L2 & gr & -> & Hgr & Hor & Hno)].
      * left. split; [done|]. intros x gx Hx Hgx.
        apply elem_of_cons in Hx as [->|Hx]; [|by eapply Hno].
        rewrite Hg in Hgx. by injection Hgx as <-.
      * right. exists (i :: L1), L2, gr. split; [done|]. split; [done|]. split; [done|].
        intros x gx Hx Hgx. apply elem_of_cons in Hx as [->|Hx]; [|by eapply Hno].
        rewrite Hg in Hgx. by injection Hgx as <-.
Qed.

Lemma findLockedPage_chain q L p :
  chain q (PageInfo.lockedIndex q) L →
  ∃ r, findLockedPage q p = Some r ∧
       ((r = -1 ∧ ∀ x g, x ∈ L → getPage q x = Some g → ownsAddr g p = false) ∨
        (∃ L1 L2 g, L = L1 ++ r :: L2 ∧ getPage q r = Some g ∧ ownsAddr g p = true ∧
                    ∀ x g, x ∈ L1 → getPage q x = Some g → ownsAddr g p = false)).
Proof.
  intros HL. apply findLockedPage_loop_spec; [done|]. by eapply chain_fuel.
Qed.

(** X14.  On locked chains that end, [findLockedPage(p)] is defined.  It
    returns no page exactly when no page of the three locked chains owns the
    address [p]; otherwise it returns the first page that owns [p], in the
    order small, medium, big and then along the chain. *)
Theorem findLockedPageAny_first_owner s p (Lof : PClass → list Z) :
  (∀ c, lockedChain (plist c s) = Some (Lof c)) →
  ∃ r, findLockedPageAny s p = Some r ∧
       match r with
       | None => ∀ c x g, x ∈ Lof c → page c x s = Some g → ownsAddr g p = false
       | Some (c, i) =>
           ∃ L1 L2 g, Lof c = L1 ++ i :: L2 ∧ page c i s = Some g ∧ ownsAddr g p = true ∧
             (∀ x g, x ∈ L1 → page c x s = Some g → ownsAddr g p = false) ∧
             (∀ c' x g, pindex c' < pindex c → x ∈ Lof c' → page c' x s = Some g →
                        ownsAddr g p = false)
       end.
Proof.
  intros HL.
  assert (∀ c, chain (plist c s) (PageInfo.lockedIndex (plist c s)) (Lof c)) as Hc
    by (intros c; apply lockedChain_chain, HL).
  destruct (findLockedPage_chain _ _ p (Hc Small)) as (rs & Hrs & Hs).
  destruct (findLockedPage_chain _ _ p (Hc Medium)) as (rm & Hrm & Hm).
  destruct (findLockedPage_chain _ _ p (Hc Big)) as (rb & Hrb & Hb).
  simpl in Hrs, Hrm, Hrb. unfold findLockedPageAny. rewrite Hrs. simpl.
  destruct Hs as [[-> Hnos]|(L1 & L2 & g & HLs & Hg & Ho & Hno)].
  2:{ assert (rs ≠ -1) as Hne by (intros ->; by apply getPage_not_end in Hg).
      apply Z.eqb_neq in Hne. rewrite Hne. simpl. eexists. split; [done|].
      exists L1, L2, g. split; [done|]. split; [done|]. split; [done|]. split; [done|].
      intros c' x gx Hlt. destruct c'; simpl in Hlt; lia. }
  simpl. rewrite Hrm. simpl.
  destruct Hm as [[-> Hnom]|(L1 & L2 & g & HLm & Hg & Ho & Hno)].
  2:{ assert (rm ≠ -1) as Hne by (intros ->; by apply getPage_not_end in Hg).
      apply Z.eqb_neq in Hne. rewrite Hne. simpl. eexists. split; [done|].
      exists L1, L2, g. split; [done|]. split; [done|]. split; [done|]. split; [done|].
      intros c' x gx Hlt. destruct c'; simpl in Hlt; try lia. apply Hnos. }
  simpl. rewrite Hrb. simpl.
  destruct Hb as [[-> Hnob]|(L1 & L2 & g & HLb & Hg & Ho & Hno)].
  2:{ assert (rb ≠ -1) as Hne by (intros ->; by apply getPage_not_end in Hg).
      apply Z.eqb_neq in Hne. rewrite Hne. simpl. eexists. split; [done|].
      exists L1, L2, g. split; [done|]. split; [done|]. split; [done|]. split; [done|].
      intros c' x gx Hlt. destruct c'; simpl in Hlt; try lia; [apply Hnos|apply Hnom]. }
  simpl. eexists. split; [done|]. intros c. destruct c; [apply Hnos|apply Hnom|apply Hnob].
Qed.

End Lookup.

(** * The pool break: [poolFreePos] under [allocRaw] and [freeRaw] *)

Section Pool.
Context (cfg : Config).









End Pool.

(** * [write] then [read] on paged memory *)

Section RoundTrip.
Context (cfg : Config).

(** [findFreePage] only looks at [next], [start] and [size]. *)
Lemma findFreePage_loop_ext q q' fuel i p size a :
  (∀ k, match getPage q k, getPage q' k with
        | Some g, Some g' => LockPage.next g' = LockPage.next g ∧
                             LockPage.start g' = LockPage.start g ∧
                             LockPage.size g' = LockPage.size g
        | None, None => True
        | _, _ => False
        end) →
  findFreePage_loop fuel q' i p size a = findFreePage_loop fuel q i p size a.
Proof.
  intros Hext. revert i. induction fuel as [|fuel IH]; intros i; [done|].
  simpl. destruct (i =? -1); [done|]. specialize (Hext i).
  destruct (getPage q i) as [g|], (getPage q' i) as [g'|]; simpl; try done.
  destruct Hext as (Hn & Hs & Hz). unfold fitsFree. rewrite Hs, Hz, Hn.
  destruct (_ && _); [done|apply IH].
Qed.

Lemma findFreePage_set_page j g g' s p size a :
  page Big j s = Some g →
  LockPage.next g' = LockPage.next g → LockPage.start g' = LockPage.start g →
  LockPage.size g' = LockPage.size g →
  findFreePage (bigPages (set_page Big j g' s)) p size a = findFreePage (bigPages s) p size a.
Proof.
  intros Hg Hn Hs Hz. unfold findFreePage, chainFuel.
  destruct (set_page_class Big j g' s Big) as (_ & Hfi & _ & Hlen).
  change (bigPages (set_page Big j g' s)) with (plist Big (set_page Big j g' s)).
  change (bigPages s) with (plist Big s).
  rewrite Hfi, Hlen. apply findFreePage_loop_ext. intros k.
  change (match page Big k s, page Big k (set_page Big j g' s) with
          | Some g, Some g' => LockPage.next g' = LockPage.next g ∧
                               LockPage.start g' = LockPage.start g ∧
                               LockPage.size g' = LockPage.size g
          | None, None => True
          | _, _ => False
          end).
  rewrite (page_set_page _ _ _ _ _ _ _ Hg). case_decide as Hd.
  - destruct Hd as [_ <-]. by rewrite Hg.
  - by destruct (page Big k s).
Qed.

Lemma windowKept_refl g : windowKept g g.
Proof. split; [done|by left]. Qed.

Lemma windowKept_trans g1 g2 g3 : windowKept g1 g2 → windowKept g2 g3 → windowKept g1 g3.
Proof.
  intros [Hz1 Hs1] [Hz2 Hs2]. split; [congruence|].
  destruct Hs2 as [Hs2|?]; [|by right]. rewrite Hs2. done.
Qed.

Lemma syncBigPage_pagewise (R : LockPage.t → LockPage.t → Prop) s i s' :
  (∀ g, R g g) →
  (∀ g, R g (LockPage.set_cleanSkips 0 (LockPage.set_dirty false g))) →
  syncBigPage s i = Some s' → pagewise R s s'.
Proof.
  intros Hrefl Hclean H.
  apply syncBigPage_Some in H as (g & Hg & [[_ ->]|(_ & st & n & ->)]).
  - by apply pagewise_refl.
  - intros c k gk Hgk. erewrite page_set_page; [|by rewrite page_set_iolog, page_set_store].
    rewrite page_set_iolog, page_set_store. case_decide as Hd; [|eauto].
    destruct Hd as [<- <-]. rewrite Hg in Hgk. injection Hgk as <-. eauto.
Qed.


Lemma fitsFree_window g g' p size a :
  LockPage.start g' = LockPage.start g → LockPage.size g' = LockPage.size g →
  fitsFree g' p size a = fitsFree g p size a.
Proof. intros Hs Hz. unfold fitsFree. by rewrite Hs, Hz. Qed.

(** After [pullRawData] without [forcestart], [findFreePage] finds the page
    that was handed out. *)
Lemma pullRawData_found s p size readonly a s1 F :
  chain (bigPages s) (PageInfo.freeIndex (bigPages s)) F →
  0 < p → 0 ≤ size →
  (∀ k g, k ∈ F → page Big k s = Some g → size ≤ LockPage.size g) →
  pullRawData cfg s p size readonly false = Some (a, s1) →
  ∃ j g1, a = PoolPtr Big j (p - LockPage.start g1) ∧ j ∈ F ∧
          page Big j s1 = Some g1 ∧
          findFreePage (bigPages s1) p size false = Some j.
Proof.
  intros HF Hp Hsize Hsz H. unfold pullRawData in H.
  bind_inv H as Efind. rename z into full. bind_inv H as Escan.
  destruct p0 as [[pi st] sa]. simpl in H.
  bind_inv H as Eswap. rename b into s2. bind_inv H as Edirty. rename b into s3.
  bind_inv H as Eg. rename t into g3. injection H as <- <-.
  assert (findFreePage (bigPages s3) p size false
          = findFreePage (bigPages s2) p size false) as Hlast.
  { destruct readonly; simpl in Edirty.
    - by injection Edirty as <-.
    - apply modPage_Some in Edirty as (g2 & Hg2 & ->).
      by apply findFreePage_set_page with (g := g2). }
  exists pi, g3. split; [done|]. rewrite Hlast.
  destruct (findFreePage_chain _ F p size false HF) as (r & Hr & Hcase).
  rewrite Efind in Hr. injection Hr as <-.
  destruct (negb (full =? -1)) eqn:Hfull.
  { injection Escan as <- <- <-. simpl in Eswap. injection Eswap as <-.
    destruct Hcase as [[-> _]|[Hin _]]; [discriminate|]. done. }
  zbool. subst full.
  destruct Hcase as [[_ Hno]|[_ (g & Hg & _)]]; [|by apply getPage_not_end in Hg].
  rewrite (pullScan_not_full cfg (chainFuel (bigPages s)) s p
             (PageInfo.freeIndex (bigPages s)) (-1) pi st sa Escan) in Eswap.
  simpl in Eswap.
  destruct (pullScan_closure cfg (pagewise windowKept) F) with
    (fuel := chainFuel (bigPages s)) (s := s) (p := p)
    (i := PageInfo.freeIndex (bigPages s)) (pi := -1) (st := STATE_GOTNONE)
    (pi' := pi) (st' := st) (s' := sa) (l := F) as (HT & Hl & Hpi); try done.
  { intros. apply pagewise_refl, windowKept_refl. }
  { intros s0 s4 s5. apply pagewise_trans, windowKept_trans. }
  { intros s0 i s0' _ Hsync.
    eapply syncBigPage_pagewise; [apply windowKept_refl| |done].
    intros g. split; [done|by left]. }
  { intros s0 i g _ Hg _. eapply pagewise_set_page; [apply windowKept_refl|done|].
    split; [done|by right]. }
  { intros s0 i g _ Hg _. eapply pagewise_set_page; [apply windowKept_refl|done|].
    split; [done|by left]. }
  destruct Hpi as [->|Hpi].
  { unfold swapIn in Eswap. discriminate. }
  assert (pi ∈ [pi]) as Hself by (by left).
  destruct (swapIn_closure (footprint [pi]) [pi]) with
    (s := sa) (p := p) (j := pi) (st := st) (s' := s2) as ([Hout _] & Hl2 & g2 & Hg2 & Hs2 & _);
    try done.
  { apply footprint_refl. }
  { apply footprint_trans. }
  { intros. by eapply footprint_syncBigPage. }
  { intros. apply footprint_same. intros. apply page_set_nextPageToSwap. }
  { intros s0 j g0 p0 n s0' Hj Hg0 _ Hrd.
    eapply footprint_trans; [|by eapply footprint_doRead].
    by apply (footprint_set_page [pi] j g0). }
  destruct (swapIn_closure (pagewise (λ g g', LockPage.size g' = LockPage.size g)) [pi]) with
    (s := sa) (p := p) (j := pi) (st := st) (s' := s2) as (Hsizes & _ & _); try done.
  { intros. by apply pagewise_refl. }
  { intros s0 s4 s5. apply pagewise_trans. intros. congruence. }
  { intros s0 i s0' _ Hsync. eapply syncBigPage_pagewise; [done| |done]. done. }
  { intros. by apply pagewise_set_nextPageToSwap. }
  { intros s0 j g0 p0 n s0' _ Hg0 _ Hrd.
    eapply pagewise_trans; [intros; congruence| |].
    - apply (pagewise_set_page (λ g g', LockPage.size g' = LockPage.size g)
               (λ g, eq_refl) Big j g0 (LockPage.set_start p0 g0) s0 Hg0 eq_refl).
    - eapply doRead_pagewise; [done| |exact Hrd]. done. }
  assert (links s s2) as Hls by (by eapply links_trans).
  pose proof (chain_elem _ _ _ _ HF Hpi) as (g0 & _ & Hg0 & _).
  change (page Big pi s = Some g0) in Hg0.
  assert (fitsFree g2 p size false = true) as Hfit2.
  { destruct (HT Big pi g0 Hg0) as (ga & Hga & [Hza _]).
    destruct (Hsizes Big pi ga Hga) as (g2' & Hg2' & Hz2).
    rewrite Hg2 in Hg2'. injection Hg2' as <-.
    specialize (Hsz pi g0 Hpi Hg0).
    unfold fitsFree. rewrite Hs2. simpl.
    apply andb_true_iff. split; [apply negb_true_iff, Z.eqb_neq; lia|].
    apply andb_true_iff. split; apply Z.leb_le; lia. }
  assert (chain (bigPages s2) (PageInfo.freeIndex (bigPages s2)) F) as HF2.
  { pose proof Hls as (Hheads & _ & _). destruct (Hheads Big) as (_ & Hfi & _).
    change (bigPages s2) with (plist Big s2). rewrite Hfi. by apply (chain_links Big s s2). }
  destruct (findFreePage_chain _ F p size false HF2) as (r2 & Hr2 & Hcase2).
  rewrite Hr2.
  destruct Hcase2 as [[_ Hno2]|[Hin2 (gr & Hgr & Hfr)]].
  { change (page Big pi s2 = Some g2) with (getPage (bigPages s2) pi = Some g2) in Hg2.
    rewrite (Hno2 pi g2 Hpi Hg2) in Hfit2. discriminate. }
  split; [done|]. split; [done|]. f_equal.
  destruct (decide (r2 = pi)) as [|Hne]; [done|]. exfalso.
  change (page Big r2 s2 = Some gr) in Hgr.
  rewrite Hout in Hgr.
  2:{ right. intros Hin. apply elem_of_cons in Hin as [?|Hin]; [done|].
      by apply elem_of_nil in Hin. }
  pose proof (chain_elem _ _ _ _ HF Hin2) as (gs & _ & Hgs & _).
  destruct (HT Big r2 gs Hgs) as (ga & Hga & [Hza Hsa]).
  rewrite Hgr in Hga. injection Hga as <-.
  destruct Hsa as [Hsa|Hsa].
  - rewrite (fitsFree_window gs gr) in Hfr by done. rewrite (Hno r2 gs Hin2 Hgs) in Hfr.
    discriminate.
  - unfold fitsFree in Hfr. rewrite Hsa in Hfr. discriminate.
Qed.


Lemma bigFreePagesb_spec P s :
  bigFreePagesb P s = true →
  ∃ F, freeChain (bigPages s) = Some F ∧
       ∀ k g, k ∈ F → page Big k s = Some g → P g = true.
Proof.
  unfold bigFreePagesb. destruct (freeChain (bigPages s)) as [F|]; [|discriminate].
  intros H. exists F. split; [done|]. intros k g Hk Hg.
  pose proof (forallb_elem _ _ _ H Hk) as Hp. simpl in Hp. by rewrite Hg in Hp.
Qed.

(** X16.  Read your writes on paged memory.  On well linked chains, for a
    range at an address above 0 that no locked page overlaps and that is not
    longer than the free big pages, [write(p, d, size)] followed at once by
    [read(p, size)] hands out the bytes written: the [read] is defined, finds
    the page the [write] used and changes nothing. *)
Theorem write_read_paged s p size data s' :
  wfChains s →
  lockedPagesb (λ g, negb (touchesRange g p size)) s = true →
  bigFreePagesb (λ g, size <=? LockPage.size g) s = true →
  0 < p → 0 ≤ size ≤ Z.of_nat (length data) →
  write cfg s p (UserBuf data) size = Some s' →
  readBytes cfg s' p size = Some (take (Z.to_nat size) data, s').
Proof.
  intros Hwf Hlocked Hfree Hp Hsize H.
  destruct (bigFreePagesb_spec _ _ Hfree) as (F & HF0 & Hsz).
  pose proof (freeChain_chain _ _ HF0) as HF.
  assert (∀ c, ∃ L, chain (plist c s) (PageInfo.lockedIndex (plist c s)) L ∧
                    (∀ x, x ∈ L → c ≠ Big ∨ x ∉ F) ∧
                    ∀ x g, x ∈ L → page c x s = Some g → touchesRange g p size = false)
    as Hcls.
  { intros c. assert (wfClassb (plist c s) = true) as Hwc.
    { destruct Hwf as (? & ? & ?). by destruct c. }
    destruct (wfClassb_spec _ Hwc) as (F' & L & HF' & HL & _ & HcL & Hdisj & _).
    exists L. split; [done|]. split.
    - intros x Hx. destruct (decide (c = Big)) as [->|]; [right|by left].
      change (freeChain (bigPages s) = Some F') in HF'. rewrite HF0 in HF'.
      injection HF' as <-. intros HxF. by apply (Hdisj x).
    - intros x g Hx Hg.
      destruct (lockedPagesb_spec _ _ _ _ _ Hlocked HL Hx) as (g1 & Hg1 & HP).
      rewrite Hg in Hg1. injection Hg1 as <-. by apply negb_true_iff in HP. }
  (* the write goes to paged memory *)
  unfold write in H.
  destruct (Hcls Small) as (Ls & HLs & _ & Hnos).
  destruct (Hcls Medium) as (Lm & HLm & _ & Hnom).
  destruct (Hcls Big) as (Lb & HLb & _ & Hnob).
  rewrite (write_class_none _ _ _ _ _ _ HLs Hnos) in H. cbv beta iota in H. simpl in H.
  rewrite (write_class_none _ _ _ _ _ _ HLm Hnom) in H. simpl in H.
  rewrite (write_class_none _ _ _ _ _ _ HLb Hnob) in H. simpl in H.
  unfold pushRawData in H. bind_inv H as Epull. destruct p0 as [pool s1]. simpl in H.
  destruct (pullRawData_footprint cfg F _ _ _ _ _ _ _ HF Epull) as ([Hout1 _] & Hl1 & _).
  destruct (pullRawData_found _ _ _ _ _ _ _ HF Hp (proj1 Hsize)
              ltac:(intros k g Hk Hg; apply Z.leb_le; by eapply Hsz) Epull)
    as (j & g1 & -> & Hj & Hg1 & Hfind).
  unfold memcpy in H. bind_inv H as Epeek. rename l into d.
  simpl in Epeek. pose proof (slice_length _ _ _ _ Epeek) as Hlen.
  apply slice_spec in Epeek as (_ & _ & _ & Hd). rewrite drop_0 in Hd.
  simpl in H. rewrite Hg1 in H. simpl in H. bind_inv H as Eblit. injection H as <-.
  set (g' := LockPage.set_pool l g1).
  set (s' := set_page Big j g' s1).
  pose proof (getPage_range _ _ _ Hg1) as Hjr.
  assert (page Big j s' = Some g') as Hg' by (by eapply page_set_page_eq).
  assert (links s s') as Hl'.
  { eapply links_trans; [done|]. by eapply links_set_page. }
  assert (∀ c x, c ≠ Big ∨ x ∉ F → page c x s' = page c x s) as Hout'.
  { intros c x Hx. unfold s'. rewrite page_set_page_ne; [by apply Hout1|lia|].
    destruct Hx as [?|Hx]; [left; congruence|right]. intros ->. done. }
  assert (∀ c, ∃ L, chain (plist c s') (PageInfo.lockedIndex (plist c s')) L ∧
                    ∀ x g, x ∈ L → page c x s' = Some g → touchesRange g p size = false)
    as Hcls'.
  { intros c. destruct (Hcls c) as (L & HL & Hdisj & Hno). exists L. split.
    - pose proof Hl' as (Hheads & _ & _). destruct (Hheads c) as (_ & _ & ->).
      by eapply chain_links.
    - intros x g Hx Hg. rewrite Hout' in Hg by (by apply Hdisj). by eapply Hno. }
  (* the read finds the page *)
  unfold readBytes, read.
  destruct (Hcls' Small) as (Ls' & HLs' & Hnos').
  destruct (Hcls' Medium) as (Lm' & HLm' & Hnom').
  destruct (Hcls' Big) as (Lb' & HLb' & Hnob').
  rewrite (read_class_none _ _ _ _ _ _ HLs' Hnos'). simpl.
  rewrite (read_class_none _ _ _ _ _ _ HLm' Hnom'). simpl.
  rewrite (read_class_none _ _ _ _ _ _ HLb' Hnob'). simpl.
  unfold pullRawData.
  assert (findFreePage (bigPages s') p size false = Some j) as ->.
  { unfold s'. rewrite (findFreePage_set_page j g1 g') by done. done. }
  simpl. assert ((j =? -1) = false) as -> by (apply Z.eqb_neq; lia).
  simpl. rewrite Hg'. simpl.
  pose proof (slice_blit _ _ _ _ Eblit) as Hs. rewrite Hlen, Z2Nat.id in Hs by lia.
  rewrite Hg'. simpl. rewrite Hs. simpl. by rewrite Hd.
Qed.

End RoundTrip.

(** * Locking a page of the small and medium classes *)

Section LockMove.
Context (cfg : Config).

Lemma lockPage_head_state s c ptr size i Fr g :
  c ≠ Big →
  chain (plist c s) (PageInfo.freeIndex (plist c s)) (i :: Fr) →
  page c i s = Some g →
  lockPage cfg s c ptr size =
    Some (i, set_plist c
               (PageInfo.mk
                  (<[Z.to_nat i := LockPage.set_next (PageInfo.lockedIndex (plist c s)) g]>
                     (PageInfo.pages (plist c s)))
                  (PageInfo.size (plist c s)) (LockPage.next g) i) s).
Proof.
  intros Hc HF Hg. apply chain_cons_inv in HF as (Hfi & _).
  unfold page in Hg. unfold lockPage.
  destruct c; [| |done]; simpl in *; rewrite Hfi, Z.eqb_refl, Hg; simpl;
    unfold modPage, page; simpl; unfold getPage in *; simpl; rewrite Hg; simpl;
    by destruct s.
Qed.

(** X17.  [lockPage] on the small or the medium class takes the head of the
    free chain: it returns that page, the rest of the free chain stays in
    order, the page becomes the head of the locked chain, and nothing else
    of the allocator changes (no other page, no backing store access).  A
    [freeLockedPage] of the page right after gives back both chains as they
    were. *)
Theorem lockPage_moves_head s c ptr size i Fr L :
  c ≠ Big →
  freeChain (plist c s) = Some (i :: Fr) →
  lockedChain (plist c s) = Some L →
  (∀ x, x ∈ i :: Fr → x ∉ L) →
  ∃ s', lockPage cfg s c ptr size = Some (i, s') ∧
        freeChain (plist c s') = Some Fr ∧
        lockedChain (plist c s') = Some (i :: L) ∧
        (∀ c' k, ¬ (c' = c ∧ k = i) → page c' k s' = page c' k s) ∧
        (∀ g, page c i s = Some g →
              page c i s' =
                Some (LockPage.set_next (PageInfo.lockedIndex (plist c s)) g)) ∧
        store s' = store s ∧ iolog s' = iolog s ∧
        (∀ ret s'', freeLockedPage s' c i = Some (ret, s'') →
           freeChain (plist c s'') = Some (i :: Fr) ∧
           lockedChain (plist c s'') = Some L).
Proof.
  intros Hc HF HL Hdisj.
  apply freeChain_chain in HF. apply lockedChain_chain in HL.
  pose proof (chain_NoDup _ _ _ HF) as Hnd. apply NoDup_cons in Hnd as (HiF & _).
  pose proof HF as HF0. apply chain_cons_inv in HF0 as (Hfi & g & Hg & Htail).
  eexists. split; [by apply (lockPage_head_state s c ptr size i Fr g)|].
  set (g' := LockPage.set_next (PageInfo.lockedIndex (plist c s)) g).
  set (q' := PageInfo.mk (<[Z.to_nat i := g']> (PageInfo.pages (plist c s)))
               (PageInfo.size (plist c s)) (LockPage.next g) i).
  pose proof (getPage_Some _ _ _ Hg) as [Hi0 Hlk].
  assert (getPage q' i = Some g') as Hgi.
  { unfold getPage, q'. simpl. rewrite (proj2 (Z.leb_le _ _) Hi0).
    apply list_lookup_insert_eq. by eapply lookup_lt_Some. }
  assert (∀ k, k ≠ i → getPage q' k = getPage (plist c s) k) as Hgk.
  { intros k Hk. unfold getPage, q'. simpl. destruct (0 <=? k) eqn:E; [|done]. zbool.
    apply list_lookup_insert_ne. lia. }
  assert (chain q' (LockPage.next g) Fr) as HF'.
  { eapply chain_ext; [done|]. intros k gk Hk Hgk'. exists gk. split; [|done].
    rewrite Hgk; [done|]. by intros ->. }
  assert (chain q' i (i :: L)) as HL'.
  { econstructor; [done|]. simpl. eapply chain_ext; [done|].
    intros k gk Hk Hgk'. exists gk. split; [|done]. rewrite Hgk; [done|].
    intros ->. apply (Hdisj i); [by left|done]. }
  rewrite plist_set_plist.
  split; [by apply chain_freeChain|]. split; [by apply chain_lockedChain|].
  split.
  { intros c' k Hne. unfold page. destruct (decide (c = c')) as [<-|Hcc].
    - rewrite plist_set_plist. apply Hgk. intros ->. by apply Hne.
    - by rewrite plist_set_plist_ne. }
  split.
  { intros g0 Hg0. unfold page in *. rewrite plist_set_plist.
    rewrite Hg in Hg0. injection Hg0 as <-. exact Hgi. }
  split; [by destruct c|]. split; [by destruct c|].
  intros ret s'' Hfree.
  assert (∀ x, x ∈ Fr → x ∉ [] ++ i :: L) as Hdisj'.
  { intros x Hx Hin. apply elem_of_cons in Hin as [->|Hin]; [done|].
    apply (Hdisj x); [by right|done]. }
  assert (chain (plist c (set_plist c q' s))
            (PageInfo.lockedIndex (plist c (set_plist c q' s))) ([] ++ i :: L)) as HLq.
  { by rewrite plist_set_plist. }
  assert (chain (plist c (set_plist c q' s))
            (PageInfo.freeIndex (plist c (set_plist c q' s))) Fr) as HFq.
  { by rewrite plist_set_plist. }
  destruct (freeLockedPage_effect (set_plist c q' s) c i ret s'' [] L Fr HLq HFq Hdisj' Hfree)
    as (HL2 & HF2 & _).
  split; [by apply chain_freeChain|by apply chain_lockedChain].
Qed.

End LockMove.

(** * [copyRawData] only fills buffers *)

Section Copy.

Lemma poolOnly_refl s : poolOnly s s.
Proof.
  split; [done|]. split; [done|]. intros c k g Hg.
  exists (LockPage.pool g). rewrite Hg. by destruct g.
Qed.

Lemma poolOnly_trans s1 s2 s3 : poolOnly s1 s2 → poolOnly s2 s3 → poolOnly s1 s3.
Proof.
  intros (Hs1 & Hl1 & Hp1) (Hs2 & Hl2 & Hp2).
  split; [congruence|]. split; [congruence|]. intros c k g Hg.
  destruct (Hp1 c k g Hg) as (pool1 & Hg1). destruct (Hp2 c k _ Hg1) as (pool2 & Hg2).
  exists pool2. rewrite Hg2. by destruct g.
Qed.

Lemma poke_poolOnly s a d s' : poke s a d = Some s' → poolOnly s s'.
Proof.
  intros H. apply poke_Some in H as (c & i & off & g & l & -> & Hg & _ & ->).
  split; [by destruct c|]. split; [by destruct c|]. intros c' k g' Hg'.
  rewrite (page_set_page c i _ g s c' k Hg). case_decide as Hd.
  - destruct Hd as [<- <-]. exists l. congruence.
  - exists (LockPage.pool g'). rewrite Hg'. by destruct g'.
Qed.

Lemma memcpy_poolOnly s dest src n s' : memcpy s dest src n = Some s' → poolOnly s s'.
Proof. unfold memcpy. intros H. bind_inv H. by eapply poke_poolOnly. Qed.

Lemma copyRawData_loop_poolOnly fuel s i dest p size s' dest' p' size' :
  copyRawData_loop fuel s i dest p size = Some (s', dest', p', size') → poolOnly s s'.
Proof.
  revert s i dest p size. induction fuel as [|fuel IH]; intros s i dest p size H;
    [discriminate|].
  simpl in H. destruct (_ || _); [injection H as <- _ _ _; apply poolOnly_refl|].
  bind_inv H. destruct (_ =? 0); [by eapply IH|].
  destruct (_ && _).
  { bind_inv H. eapply poolOnly_trans; [by eapply memcpy_poolOnly|by eapply IH]. }
  destruct (_ && _).
  { bind_inv H. eapply poolOnly_trans; [by eapply memcpy_poolOnly|by eapply IH]. }
  by eapply IH.
Qed.

(** X18.  [copyRawData] never writes: the backing store is as before, the
    driver is called at most once, for a read, every page keeps its range,
    lock count, dirty flag and link (only buffers are filled), and the
    chain heads and the pool bookkeeping are as before. *)
Theorem copyRawData_reads_only s dest p size s' :
  copyRawData s dest p size = Some s' →
  store s' = store s ∧
  (iolog s' = iolog s ∨ ∃ a n, iolog s' = IORead a n :: iolog s) ∧
  (∀ c k g, page c k s = Some g →
            ∃ pool, page c k s' = Some (LockPage.set_pool pool g)) ∧
  (∀ c, PageInfo.freeIndex (plist c s') = PageInfo.freeIndex (plist c s) ∧
        PageInfo.lockedIndex (plist c s') = PageInfo.lockedIndex (plist c s)) ∧
  poolFreePos s' = poolFreePos s ∧ freePointer s' = freePointer s.
Proof.
  intros H. pose proof (copyRawData_softEq _ _ _ _ _ H) as (Hheads & _ & _ & _ & Hfp & Hpf & _).
  unfold copyRawData in H. bind_inv H. destruct p0 as [[[s1 dest1] p1] size1].
  simpl in H. apply copyRawData_loop_poolOnly in E as (Hst & Hlog & Hpg).
  assert (store s' = store s ∧
          (iolog s' = iolog s ∨ ∃ a n, iolog s' = IORead a n :: iolog s) ∧
          (∀ c k g, page c k s = Some g →
                    ∃ pool, page c k s' = Some (LockPage.set_pool pool g)))
    as (Hs & Hl & Hp).
  { destruct (0 <? size1); [|by injection H as <-; auto].
    unfold doRead in H. bind_inv H. apply poke_poolOnly in H as (Hst2 & Hlog2 & Hpg2).
    split; [by rewrite Hst2|]. split.
    - right. exists p1, size1. rewrite Hlog2. simpl. by rewrite Hlog.
    - intros c k g Hg. destruct (Hpg c k g Hg) as (pool1 & Hg1).
      destruct (Hpg2 c k (LockPage.set_pool pool1 g)) as (pool2 & Hg2).
      { by rewrite page_set_iolog. }
      exists pool2. rewrite Hg2. by destruct g. }
  repeat split; try done; by destruct (Hheads c) as (? & ? & ?).
Qed.

End Copy.

(** * [makeFittingLock] on an address that a lock owns *)

Section Fitting.
Context (cfg : Config).






End Fitting.

(** * The code on concrete call sequences *)

(** C1 (read-after-write coherence), evaluated on the code.  A big lock of
    full page size is released while another free big page maps an
    overlapping range.  [write(200, e, 10)] then lands in the released page;
    the [read] at 40 writes back both pages, the stale one last, and the
    following [read(200, 10)] hands out the old bytes of the store instead of
    [e]. *)
Theorem C1_write_lost_after_eviction :
  ∃ d, writeEvictRead (replicate 10 9) = Some d ∧ d = replicate 10 0 ∧ d ≠ replicate 10 9.
Proof.
  eexists. split; [vm_compute; reflexivity|]. split; [reflexivity | discriminate].
Qed.

(** C3 (unmapped pages are clean and unlocked), evaluated on the code.  After
    [makeDataLock(100, 100, false)] and [releaseLock(100)] the big page that
    held the lock is back in the free chain with [start == 0] and
    [dirty == true]: [freeLockedPage] resets [start] and [size] of a shrunk
    big page and leaves the dirty flag set. *)
Theorem C3_released_page_unmapped_and_dirty :
  ∃ s g, lockRelease = Some s ∧ page Big 3 s = Some g ∧
         LockPage.start g = 0 ∧ LockPage.dirty g = true ∧ LockPage.locks g = 0.
Proof.
  do 2 eexists. split; [vm_compute; reflexivity|].
  split; [vm_compute; reflexivity|]. done.
Qed.

(** C6 (coalescing), evaluated on the code.  With one block on the free list
    (two nodes with the head), [a = allocRaw(10); b = allocRaw(10);
    freeRaw(a); freeRaw(b)] leaves four nodes: the three adjacent free blocks
    at 12, 28 and 44 stay separate, because [freeRaw] compares the byte
    address [hdrptr] plus a size in header units with the address of the
    neighbour. *)
Theorem C6_adjacent_blocks_not_coalesced :
  ∃ s s', oneBlock = Some s ∧ allocAllocFreeFree s 10 = Some s' ∧
          freeListCount cfg0 s = Some 2%nat ∧ freeListCount cfg0 s' = Some 4%nat.
Proof.
  do 2 eexists. split; [vm_compute; reflexivity|].
  split; [vm_compute; reflexivity|].
  split; vm_compute; reflexivity.
Qed.



(** C10, refuted as stated.  [read(96, 8)] overlaps the small lock at
    [100, 108) without fitting inside it.  The big page that took the mirror
    copy is written back and remapped by the final [pullRawData] of the same
    [read]: when [read] returns no big page is dirty, and [flush] writes
    nothing. *)
Lemma C10_counterexample :
  ∃ s a s1 s2 g,
    smallLock = Some s ∧ page Small 0 s = Some g ∧
    lockedChain (smallPages s) = Some [0] ∧
    endOverlaps g 96 (96 + 8) = true ∧
    read cfg0 s 96 8 = Some (a, s1) ∧
    forallb (λ g, negb (LockPage.dirty g)) (PageInfo.pages (bigPages s1)) = true ∧
    writeCount s1 = S (writeCount s) ∧
    flush s1 = Some s2 ∧ writeCount s2 = writeCount s1.
Proof.
  do 5 eexists. split; [vm_compute; reflexivity|].
  split; [vm_compute; reflexivity|].
  split; [vm_compute; reflexivity|].
  split; [vm_compute; reflexivity|].
  split; [vm_compute; reflexivity|].
  split; [vm_compute; reflexivity|].
  split; [vm_compute; reflexivity|].
  split; vm_compute; reflexivity.
Qed.

(** * The general theorems at concrete inputs *)

Lemma C8_witness :
  ∃ g, freeChain (bigPages fourCleanState) = Some [0; 1; 2; 3] ∧
       2 ∈ [0; 1; 2; 3] ∧ page Big 2 fourCleanState = Some g ∧
       fitsFree g 510 20 false = true ∧
       ∃ j gj s',
         pullRawData cfg0 fourCleanState 510 20 false false
           = Some (PoolPtr Big j (510 - LockPage.start gj), s') ∧
         j ∈ [0; 1; 2; 3] ∧ page Big j fourCleanState = Some gj ∧
         fitsFree gj 510 20 false = true ∧
         iolog s' = iolog fourCleanState ∧ store s' = store fourCleanState ∧
         ∀ c k, (LockPage.start <$> page c k s') = (LockPage.start <$> page c k fourCleanState) ∧
                (LockPage.size <$> page c k s') = (LockPage.size <$> page c k fourCleanState).
Proof.
  eexists.
  split; [vm_compute; reflexivity|].
  split; [apply (bool_decide_unpack _); vm_compute; exact I|].
  split; [vm_compute; reflexivity|].
  split; [vm_compute; reflexivity|].
  eapply (C8_full_hit_no_io cfg0 fourCleanState 510 20 false false [0; 1; 2; 3] 2).
  - vm_compute; reflexivity.
  - apply (bool_decide_unpack _); vm_compute; exact I.
  - vm_compute; reflexivity.
  - vm_compute; reflexivity.
Defined.


Lemma C9_witness :
  ∃ g s',
    wfChains bigLockState ∧
    lockedChain (plist Big bigLockState) = Some [3] ∧
    freeChain (plist Big bigLockState) = Some [0; 1; 2] ∧
    findLockedPageAny bigLockState 100 = Some (Some (Big, 3)) ∧
    page Big 3 bigLockState = Some g ∧ 1 ≤ LockPage.locks g ∧
    releaseLock bigLockState 100 = Some s' ∧
    3 ∈ [3] ∧
    ∃ g', page Big 3 s' = Some g' ∧ LockPage.locks g' = LockPage.locks g - 1 ∧
          if bool_decide (LockPage.locks g = 1 ∧ Big = Big)
          then (∃ L1 L2, [3] = L1 ++ 3 :: L2 ∧
                         lockedChain (plist Big s') = Some (L1 ++ L2)) ∧
               freeChain (plist Big s') = Some [3; 0; 1; 2]
          else lockedChain (plist Big s') = Some [3] ∧
               freeChain (plist Big s') = Some [0; 1; 2].
Proof.
  do 2 eexists.
  split; [repeat split; vm_compute; reflexivity|].
  split; [vm_compute; reflexivity|].
  split; [vm_compute; reflexivity|].
  split; [vm_compute; reflexivity|].
  split; [vm_compute; reflexivity|].
  split; [vm_compute; discriminate|].
  split; [vm_compute; reflexivity|].
  eapply (C9_releaseLock_effect bigLockState 100 Big 3).
  - repeat split; vm_compute; reflexivity.
  - vm_compute; reflexivity.
  - vm_compute; reflexivity.
  - vm_compute; reflexivity.
  - vm_compute; reflexivity.
  - vm_compute; discriminate.
  - vm_compute; reflexivity.
Defined.

Lemma C4_witness :
  ∃ a size' s' g,
    wfChains bigLockState ∧
    makeFittingLock cfg0 bigLockState 50 100 true = Some (a, size', s') ∧
    page Big 3 bigLockState = Some g ∧ 0 < LockPage.locks g ∧
    size' ≤ 100 ∧
    ∃ g', page Big 3 s' = Some g' ∧
          LockPage.start g' = LockPage.start g ∧ LockPage.size g' = LockPage.size g.
Proof.
  do 4 eexists.
  split; [repeat split; vm_compute; reflexivity|].
  split; [vm_compute; reflexivity|].
  split; [vm_compute; reflexivity|].
  split; [vm_compute; reflexivity|].
  eapply (C4_fitting_lock_keeps_locked_pages cfg0 bigLockState 50 100 true).
  - repeat split; vm_compute; reflexivity.
  - vm_compute; reflexivity.
  - vm_compute; reflexivity.
  - vm_compute; reflexivity.
Defined.



Lemma C10_witness :
  ∃ g a s',
    wfChains smallLockState ∧
    freeChain (bigPages smallLockState) = Some [0; 1; 2; 3] ∧
    lockedChain (plist Small smallLockState) = Some [0] ∧
    page Small 0 smallLockState = Some g ∧ touchesRange g 96 8 = true ∧
    read cfg0 smallLockState 96 8 = Some (a, s') ∧
    freeChain (bigPages s') = Some [0; 1; 2; 3] ∧
    (pendingWrite [0; 1; 2; 3] s' ∨ (writeCount smallLockState < writeCount s')%nat) ∧
    ∀ s'', flush s' = Some s'' → (writeCount smallLockState < writeCount s'')%nat.
Proof.
  do 3 eexists.
  split; [repeat split; vm_compute; reflexivity|].
  split; [vm_compute; reflexivity|].
  split; [vm_compute; reflexivity|].
  split; [vm_compute; reflexivity|].
  split; [vm_compute; reflexivity|].
  split; [vm_compute; reflexivity|].
  eapply (C10_mirroring_read_writes_back cfg0 smallLockState 96 8 _ _ [0; 1; 2; 3] Small [0] 0).
  - repeat split; vm_compute; reflexivity.
  - vm_compute; reflexivity.
  - vm_compute; reflexivity.
  - vm_compute; reflexivity.
  - apply (bool_decide_unpack _); vm_compute; exact I.
  - vm_compute; reflexivity.
  - vm_compute; reflexivity.
  - vm_compute; reflexivity.
Defined.

(** * The further properties at concrete inputs *)

Lemma start_fresh_chains_witness :
  (∀ c, 1 ≤ PageInfo.count (plist c (newAlloc 4 4 4 4096)) ≤ 127) ∧
  wfChains (start cfg0 (newAlloc 4 4 4 4096)) ∧
  (∀ c,
     freeChain (plist c (start cfg0 (newAlloc 4 4 4 4096)))
       = Some (seqZ 0 (PageInfo.count (plist c (newAlloc 4 4 4 4096)))) ∧
     lockedChain (plist c (start cfg0 (newAlloc 4 4 4 4096))) = Some [] ∧
     getUnlockedPages (plist c (start cfg0 (newAlloc 4 4 4 4096)))
       = Some (PageInfo.count (plist c (newAlloc 4 4 4 4096))) ∧
     ∀ i g, page c i (start cfg0 (newAlloc 4 4 4 4096)) = Some g →
            LockPage.start g = 0 ∧ LockPage.locks g = 0 ∧
            LockPage.dirty g = false ∧ LockPage.cleanSkips g = 0 ∧
            (c = Big → LockPage.size g = PageInfo.size (bigPages (newAlloc 4 4 4 4096)))) ∧
  getFreeBigPages (start cfg0 (newAlloc 4 4 4 4096))
    = Some (PageInfo.count (bigPages (newAlloc 4 4 4 4096))).
Proof.
  split; [intros c; destruct c; vm_compute; split; discriminate|].
  apply (start_fresh_chains cfg0 (newAlloc 4 4 4 4096)).
  intros c; destruct c; vm_compute; split; discriminate.
Defined.

Lemma getUnlockedPages_counts_witness :
  wfClassb (plist Small smallLockState) = true ∧
  PageInfo.count (plist Small smallLockState) ≤ 255 ∧
  freeChain (plist Small smallLockState) = Some [1; 2; 3] ∧
  lockedChain (plist Small smallLockState) = Some [0] ∧
  (let unlocked :=
     List.filter (λ j, match getPage (plist Small smallLockState) j with
                       | Some g => LockPage.locks g =? 0
                       | None => false
                       end) [0] in
   getUnlockedPages (plist Small smallLockState)
     = Some (Z.of_nat (length [1; 2; 3]) + Z.of_nat (length unlocked)) ∧
   Z.of_nat (length [1; 2; 3]) + Z.of_nat (length unlocked)
     ≤ PageInfo.count (plist Small smallLockState)).
Proof.
  split; [vm_compute; reflexivity|].
  split; [vm_compute; discriminate|].
  split; [vm_compute; reflexivity|].
  split; [vm_compute; reflexivity|].
  apply (getUnlockedPages_counts (plist Small smallLockState) [1; 2; 3] [0]).
  - vm_compute; reflexivity.
  - vm_compute; discriminate.
  - vm_compute; reflexivity.
  - vm_compute; reflexivity.
Defined.

Lemma flush_effect_witness :
  ∃ s',
    freeChain (bigPages dirtyPageState) = Some [0; 1; 2; 3] ∧
    flush dirtyPageState = Some s' ∧
    (∀ c k, c ≠ Big ∨ k ∉ [0; 1; 2; 3] → page c k s' = page c k dirtyPageState) ∧
    (∀ k g, k ∈ [0; 1; 2; 3] → page Big k dirtyPageState = Some g →
            page Big k s' = Some (flushedPage false g)) ∧
    writeCount s' =
      Nat.add (writeCount dirtyPageState)
              (length (List.filter (pendingb dirtyPageState) [0; 1; 2; 3])) ∧
    flush s' = Some s'.
Proof.
  eexists.
  split; [vm_compute; reflexivity|].
  split; [vm_compute; reflexivity|].
  apply (flush_effect dirtyPageState _ [0; 1; 2; 3]).
  - vm_compute; reflexivity.
  - vm_compute; reflexivity.
Defined.


Lemma writeZeros_store_witness :
  ∃ g,
    page Big 0 alloc0 = Some g ∧
    0 < PageInfo.size (bigPages alloc0) ≤ Z.of_nat (length (LockPage.pool g)) ∧
    0 ≤ 100 ∧ 0 ≤ 600 ∧ 100 + 600 ≤ Z.of_nat (length (store alloc0)) ∧
    ∃ s' pool,
      writeZeros alloc0 100 600 = Some s' ∧
      length (store s') = length (store alloc0) ∧
      (∀ k : nat,
         store s' !! k =
           (if decide (100 ≤ Z.of_nat k < 100 + 600) is left _
            then Some 0 else store alloc0 !! k)) ∧
      blit (LockPage.pool g) 0
           (replicate (Z.to_nat (PageInfo.size (bigPages alloc0))) 0) = Some pool ∧
      page Big 0 s' = Some (LockPage.set_pool pool g) ∧
      (∀ c k, c ≠ Big ∨ k ≠ 0 → page c k s' = page c k alloc0) ∧
      ∀ c, PageInfo.freeIndex (plist c s') = PageInfo.freeIndex (plist c alloc0) ∧
           PageInfo.lockedIndex (plist c s') = PageInfo.lockedIndex (plist c alloc0).
Proof.
  eexists.
  split; [vm_compute; reflexivity|].
  split; [split; vm_compute; [reflexivity|discriminate]|].
  split; [vm_compute; discriminate|].
  split; [vm_compute; discriminate|].
  split; [vm_compute; discriminate|].
  apply (writeZeros_store alloc0 100 600).
  - vm_compute; reflexivity.
  - split; vm_compute; [reflexivity|discriminate].
  - vm_compute; discriminate.
  - vm_compute; discriminate.
  - vm_compute; discriminate.
Defined.

Lemma syncBigPage_writes_back_witness :
  ∃ g s',
    page Big 3 dirtyPageState = Some g ∧
    syncBigPage dirtyPageState 3 = Some s' ∧
    if LockPage.dirty g
    then
      let n := Z.min (poolSize dirtyPageState - LockPage.start g)
                     (PageInfo.size (bigPages dirtyPageState)) in
      (∃ d, slice (LockPage.pool g) 0 n = Some d ∧
            slice (store s') (LockPage.start g) n = Some d) ∧
      (∀ k : nat, ¬ LockPage.start g ≤ Z.of_nat k < LockPage.start g + n →
                  store s' !! k = store dirtyPageState !! k) ∧
      page Big 3 s' = Some (LockPage.set_cleanSkips 0 (LockPage.set_dirty false g)) ∧
      (∀ c k, c ≠ Big ∨ k ≠ 3 → page c k s' = page c k dirtyPageState) ∧
      iolog s' = IOWrite (LockPage.start g) n :: iolog dirtyPageState
    else s' = dirtyPageState.
Proof.
  do 2 eexists.
  split; [vm_compute; reflexivity|].
  split; [vm_compute; reflexivity|].
  apply (syncBigPage_writes_back dirtyPageState 3).
  - vm_compute; reflexivity.
  - vm_compute; reflexivity.
Defined.

Lemma read_inside_lock_witness :
  ∃ g,
    soleToucher smallLockState 102 4 Small 0 = true ∧
    lockedChain (plist Small smallLockState) = Some [0] ∧
    0 ∈ [0] ∧
    page Small 0 smallLockState = Some g ∧
    holdsRange g 102 4 = true ∧
    read cfg0 smallLockState 102 4
      = Some (PoolPtr Small 0 (102 - LockPage.start g), smallLockState).
Proof.
  eexists.
  split; [vm_compute; reflexivity|].
  split; [vm_compute; reflexivity|].
  split; [apply (bool_decide_unpack _); vm_compute; exact I|].
  split; [vm_compute; reflexivity|].
  split; [vm_compute; reflexivity|].
  apply (read_inside_lock cfg0 smallLockState 102 4 Small 0 _ [0]).
  - vm_compute; reflexivity.
  - vm_compute; reflexivity.
  - apply (bool_decide_unpack _); vm_compute; exact I.
  - vm_compute; reflexivity.
  - vm_compute; reflexivity.
Defined.

Lemma write_read_inside_lock_witness :
  ∃ g,
    soleToucher smallLockState 102 4 Small 0 = true ∧
    lockedChain (plist Small smallLockState) = Some [0] ∧
    0 ∈ [0] ∧
    page Small 0 smallLockState = Some g ∧
    holdsRange g 102 4 = true ∧
    0 ≤ 4 ≤ Z.of_nat (length [1; 2; 3; 4; 5]) ∧
    LockPage.size g ≤ Z.of_nat (length (LockPage.pool g)) ∧
    ∃ s' pool,
      write cfg0 smallLockState 102 (UserBuf [1; 2; 3; 4; 5]) 4 = Some s' ∧
      readBytes cfg0 s' 102 4 = Some (take (Z.to_nat 4) [1; 2; 3; 4; 5], s') ∧
      blit (LockPage.pool g) (102 - LockPage.start g)
           (take (Z.to_nat 4) [1; 2; 3; 4; 5]) = Some pool ∧
      page Small 0 s' = Some (LockPage.set_pool pool (LockPage.set_dirty true g)) ∧
      (∀ c' x, c' ≠ Small ∨ x ≠ 0 → page c' x s' = page c' x smallLockState) ∧
      store s' = store smallLockState ∧ iolog s' = iolog smallLockState.
Proof.
  eexists.
  split; [vm_compute; reflexivity|].
  split; [vm_compute; reflexivity|].
  split; [apply (bool_decide_unpack _); vm_compute; exact I|].
  split; [vm_compute; reflexivity|].
  split; [vm_compute; reflexivity|].
  split; [vm_compute; split; discriminate|].
  split; [vm_compute; discriminate|].
  apply (write_read_inside_lock cfg0 smallLockState 102 4 Small 0 _ [0] [1; 2; 3; 4; 5]).
  - vm_compute; reflexivity.
  - vm_compute; reflexivity.
  - apply (bool_decide_unpack _); vm_compute; exact I.
  - vm_compute; reflexivity.
  - vm_compute; reflexivity.
  - vm_compute; split; discriminate.
  - vm_compute; discriminate.
Defined.

Lemma pullRawData_frame_witness :
  ∃ a s',
    freeChain (bigPages fourCleanState) = Some [0; 1; 2; 3] ∧
    pullRawData cfg0 fourCleanState 2000 10 true false = Some (a, s') ∧
    (∀ c k, c ≠ Big ∨ k ∉ [0; 1; 2; 3] → page c k s' = page c k fourCleanState) ∧
    (∀ c k g, page c k fourCleanState = Some g →
              ∃ g', page c k s' = Some g' ∧
                    LockPage.locks g' = LockPage.locks g ∧
                    LockPage.next g' = LockPage.next g) ∧
    (∀ c, freeChain (plist c s') = freeChain (plist c fourCleanState) ∧
          lockedChain (plist c s') = lockedChain (plist c fourCleanState)) ∧
    listFields fourCleanState s' ∧
    ∃ j g', a = PoolPtr Big j (2000 - LockPage.start g') ∧
            j ∈ [0; 1; 2; 3] ∧ page Big j s' = Some g' ∧
            (true = false → LockPage.dirty g' = true) ∧
            (LockPage.start g' = 2000 ∨ fitsFree g' 2000 10 false = true).
Proof.
  do 2 eexists.
  split; [vm_compute; reflexivity|].
  split; [vm_compute; reflexivity|].
  apply (pullRawData_frame cfg0 fourCleanState 2000 10 true false _ _ [0; 1; 2; 3]).
  - vm_compute; reflexivity.
  - vm_compute; reflexivity.
Defined.

Lemma freeLockedPage_moves_page_witness :
  ∃ ret s',
    lockedChain (plist Big bigLockState) = Some ([] ++ 3 :: []) ∧
    freeChain (plist Big bigLockState) = Some [0; 1; 2] ∧
    (∀ x, x ∈ [0; 1; 2] → x ∉ [] ++ 3 :: []) ∧
    freeLockedPage bigLockState Big 3 = Some (ret, s') ∧
    lockedChain (plist Big s') = Some ([] ++ []) ∧
    freeChain (plist Big s') = Some (3 :: [0; 1; 2]) ∧
    ret = default (-1) (head []) ∧
    (∀ c' l, c' ≠ Big →
       (freeChain (plist c' bigLockState) = Some l → freeChain (plist c' s') = Some l) ∧
       (lockedChain (plist c' bigLockState) = Some l →
        lockedChain (plist c' s') = Some l)) ∧
    (∀ c' k g, ¬ (c' = Big ∧ k = 3) → page c' k bigLockState = Some g →
       ∃ g', page c' k s' = Some g' ∧ LockPage.start g' = LockPage.start g ∧
             LockPage.size g' = LockPage.size g ∧ LockPage.locks g' = LockPage.locks g) ∧
    (∀ g, page Big 3 bigLockState = Some g →
          ∃ g', page Big 3 s' = Some g' ∧ LockPage.locks g' = 0).
Proof.
  assert (∀ x : Z, x ∈ [0; 1; 2] → x ∉ [] ++ 3 :: []) as Hdisj.
  { intros x Hx Hin. simpl in Hin. rewrite !elem_of_cons, elem_of_nil in Hx.
    rewrite !elem_of_cons, elem_of_nil in Hin. lia. }
  do 2 eexists.
  split; [vm_compute; reflexivity|].
  split; [vm_compute; reflexivity|].
  split; [exact Hdisj|].
  split; [vm_compute; reflexivity|].
  apply (freeLockedPage_moves_page bigLockState Big 3 _ _ [] [] [0; 1; 2]).
  - vm_compute; reflexivity.
  - vm_compute; reflexivity.
  - exact Hdisj.
  - vm_compute; reflexivity.
Defined.

Lemma findLockedPageAny_first_owner_witness :
  (∀ c, lockedChain (plist c smallLockState)
        = Some ((λ c, match c with Small => [0] | _ => [] end) c)) ∧
  ∃ r, findLockedPageAny smallLockState 100 = Some r ∧
       match r with
       | Some (c, i) =>
           ∃ L1 L2 g,
             (λ c, match c with Small => [0] | _ => [] end) c = L1 ++ i :: L2 ∧
             page c i smallLockState = Some g ∧ ownsAddr g 100 = true ∧
             (∀ x g0, x ∈ L1 → page c x smallLockState = Some g0 →
                      ownsAddr g0 100 = false) ∧
             ∀ c' x g0, pindex c' < pindex c →
                        x ∈ (λ c, match c with Small => [0] | _ => [] end) c' →
                        page c' x smallLockState = Some g0 → ownsAddr g0 100 = false
       | None =>
           ∀ c x g, x ∈ (λ c, match c with Small => [0] | _ => [] end) c →
                    page c x smallLockState = Some g → ownsAddr g 100 = false
       end.
Proof.
  split; [intros c; destruct c; vm_compute; reflexivity|].
  apply (findLockedPageAny_first_owner smallLockState 100
           (λ c, match c with Small => [0] | _ => [] end)).
  intros c; destruct c; vm_compute; reflexivity.
Defined.

Lemma read_frame_witness :
  ∃ a s',
    freeChain (bigPages fourCleanState) = Some [0; 1; 2; 3] ∧
    read cfg0 fourCleanState 2000 10 = Some (a, s') ∧
    (∀ c k, c ≠ Big ∨ k ∉ [0; 1; 2; 3] → page c k s' = page c k fourCleanState) ∧
    (∀ c k g, page c k fourCleanState = Some g →
              ∃ g', page c k s' = Some g' ∧
                    LockPage.locks g' = LockPage.locks g ∧
                    LockPage.next g' = LockPage.next g) ∧
    (∀ c, freeChain (plist c s') = freeChain (plist c fourCleanState) ∧
          lockedChain (plist c s') = lockedChain (plist c fourCleanState)) ∧
    listFields fourCleanState s' ∧
    ∃ c k off g, a = PoolPtr c k off ∧ page c k s' = Some g.
Proof.
  do 2 eexists.
  split; [vm_compute; reflexivity|].
  split; [vm_compute; reflexivity|].
  apply (read_frame cfg0 fourCleanState 2000 10 _ _ [0; 1; 2; 3]).
  - vm_compute; reflexivity.
  - vm_compute; reflexivity.
Defined.

Lemma write_frame_witness :
  ∃ s',
    freeChain (bigPages fourCleanState) = Some [0; 1; 2; 3] ∧
    write cfg0 fourCleanState 2000 (UserBuf [1; 2; 3]) 3 = Some s' ∧
    (∀ c k, c ≠ Big ∨ k ∉ [0; 1; 2; 3] →
            (meta <$> page c k s') = (meta <$> page c k fourCleanState)) ∧
    (∀ c k g, page c k fourCleanState = Some g →
              ∃ g', page c k s' = Some g' ∧
                    LockPage.locks g' = LockPage.locks g ∧
                    LockPage.next g' = LockPage.next g) ∧
    (∀ c, freeChain (plist c s') = freeChain (plist c fourCleanState) ∧
          lockedChain (plist c s') = lockedChain (plist c fourCleanState)) ∧
    listFields fourCleanState s'.
Proof.
  eexists.
  split; [vm_compute; reflexivity|].
  split; [vm_compute; reflexivity|].
  apply (write_frame cfg0 fourCleanState 2000 (UserBuf [1; 2; 3]) 3 _ [0; 1; 2; 3]).
  - vm_compute; reflexivity.
  - vm_compute; reflexivity.
Defined.


Lemma write_read_paged_witness :
  ∃ s',
    wfChains alloc0 ∧
    lockedPagesb (λ g, negb (touchesRange g 200 10)) alloc0 = true ∧
    bigFreePagesb (λ g, 10 <=? LockPage.size g) alloc0 = true ∧
    0 < 200 ∧
    0 ≤ 10 ≤ Z.of_nat (length (replicate 10 7)) ∧
    write cfg0 alloc0 200 (UserBuf (replicate 10 7)) 10 = Some s' ∧
    readBytes cfg0 s' 200 10 = Some (take (Z.to_nat 10) (replicate 10 7), s').
Proof.
  eexists.
  split; [repeat split; vm_compute; reflexivity|].
  split; [vm_compute; reflexivity|].
  split; [vm_compute; reflexivity|].
  split; [vm_compute; reflexivity|].
  split; [vm_compute; split; discriminate|].
  split; [vm_compute; reflexivity|].
  apply (write_read_paged cfg0 alloc0 200 10 (replicate 10 7)).
  - repeat split; vm_compute; reflexivity.
  - vm_compute; reflexivity.
  - vm_compute; reflexivity.
  - vm_compute; reflexivity.
  - vm_compute; split; discriminate.
  - vm_compute; reflexivity.
Defined.

Lemma pullRawData_miss_reads_store_witness :
  ∃ a s',
    findFreePage (bigPages alloc0) 300 10 false = Some (-1) ∧
    0 ≤ 10 ≤ Z.min (poolSize alloc0 - 300) (PageInfo.size (bigPages alloc0)) ∧
    pullRawData cfg0 alloc0 300 10 true false = Some (a, s') ∧
    ∃ j d, a = PoolPtr Big j 0 ∧
           peek s' a 10 = Some d ∧ slice (store s') 300 10 = Some d ∧
           head (iolog s') =
             Some (IORead 300 (Z.min (poolSize alloc0 - 300)
                                     (PageInfo.size (bigPages alloc0)))).
Proof.
  do 2 eexists.
  split; [vm_compute; reflexivity|].
  split; [vm_compute; split; discriminate|].
  split; [vm_compute; reflexivity|].
  apply (pullRawData_miss_reads_store cfg0 alloc0 300 10 true false).
  - vm_compute; reflexivity.
  - vm_compute; split; discriminate.
  - vm_compute; reflexivity.
Defined.

Lemma lockPage_moves_head_witness :
  Small ≠ Big ∧
  freeChain (plist Small alloc0) = Some (0 :: [1; 2; 3]) ∧
  lockedChain (plist Small alloc0) = Some [] ∧
  (∀ x, x ∈ 0 :: [1; 2; 3] → x ∉ []) ∧
  ∃ s', lockPage cfg0 alloc0 Small 100 8 = Some (0, s') ∧
        freeChain (plist Small s') = Some [1; 2; 3] ∧
        lockedChain (plist Small s') = Some (0 :: []) ∧
        (∀ c' k, ¬ (c' = Small ∧ k = 0) → page c' k s' = page c' k alloc0) ∧
        (∀ g, page Small 0 alloc0 = Some g →
              page Small 0 s' =
                Some (LockPage.set_next (PageInfo.lockedIndex (plist Small alloc0)) g)) ∧
        store s' = store alloc0 ∧ iolog s' = iolog alloc0 ∧
        (∀ ret s'', freeLockedPage s' Small 0 = Some (ret, s'') →
           freeChain (plist Small s'') = Some (0 :: [1; 2; 3]) ∧
           lockedChain (plist Small s'') = Some []).
Proof.
  assert (∀ x : Z, x ∈ 0 :: [1; 2; 3] → x ∉ []) as Hdisj.
  { intros x _ Hin. by apply elem_of_nil in Hin. }
  split; [discriminate|].
  split; [vm_compute; reflexivity|].
  split; [vm_compute; reflexivity|].
  split; [exact Hdisj|].
  apply (lockPage_moves_head cfg0 alloc0 Small 100 8 0 [1; 2; 3] []).
  - discriminate.
  - vm_compute; reflexivity.
  - vm_compute; reflexivity.
  - exact Hdisj.
Defined.

Lemma copyRawData_reads_only_witness :
  ∃ s',
    copyRawData alloc0 (PoolPtr Small 0 0) 505 8 = Some s' ∧
    store s' = store alloc0 ∧
    (iolog s' = iolog alloc0 ∨ ∃ a n, iolog s' = IORead a n :: iolog alloc0) ∧
    (∀ c k g, page c k alloc0 = Some g →
              ∃ pool, page c k s' = Some (LockPage.set_pool pool g)) ∧
    (∀ c, PageInfo.freeIndex (plist c s') = PageInfo.freeIndex (plist c alloc0) ∧
          PageInfo.lockedIndex (plist c s') = PageInfo.lockedIndex (plist c alloc0)) ∧
    poolFreePos s' = poolFreePos alloc0 ∧ freePointer s' = freePointer alloc0.
Proof.
  eexists.
  split; [vm_compute; reflexivity|].
  apply (copyRawData_reads_only alloc0 (PoolPtr Small 0 0) 505 8).
  vm_compute; reflexivity.
Defined.

